(** * gorender: the shading and palettisation pipeline of internal/sprite/shader.go

    A shallow embedding of [shader.go] and the properties of its functions.
    Go's [int] is a 64-bit two's complement integer, [byte] an 8-bit unsigned
    one, and [float64] is IEEE 754 binary64, for which the primitive floats
    of the prover are used, so that every function below can be run. *)

From Stdlib Require Import ZArith Lia Bool Floats.
From stdpp Require Import gmap list.

Open Scope Z_scope.

(** ** Go integers *)

Module GoInt.

Definition MinInt64 : Z := - 2 ^ 63.
Definition MaxInt64 : Z := 2 ^ 63 - 1.

(** Two's complement wrap-around of a mathematical integer to [int]. *)
Definition wrap64 (z : Z) : Z := (z + 2 ^ 63) mod 2 ^ 64 - 2 ^ 63.

Definition add (a b : Z) : Z := wrap64 (a + b).
Definition sub (a b : Z) : Z := wrap64 (a - b).
Definition mul (a b : Z) : Z := wrap64 (a * b).

(** [a / b] truncates toward zero; the caller excludes [b = 0], which
    panics in Go. *)
Definition quot (a b : Z) : Z := wrap64 (Z.quot a b).

(** [a % b] has the sign of the dividend. *)
Definition rem (a b : Z) : Z := Z.rem a b.

(** The conversion [byte(i)]. *)
Definition to_byte (z : Z) : Z := z mod 256.

Definition in_range (z : Z) : Prop := MinInt64 <= z <= MaxInt64.

End GoInt.

(** ** float64 *)

Module F64.

Definition MaxFloat64 : float := 0x1.fffffffffffffp+1023%float.

(** The conversion [float64(i)] of an integer: rounding to the nearest
    binary64 value, ties to even. *)
Definition of_int (z : Z) : float :=
  SF2Prim (binary_normalize prec emax z 0 false).

(** The conversion [int(f)]: the fraction is discarded.  Go leaves the
    result open when the value does not fit; amd64 gives the smallest
    [int], which is what is taken here. *)
Definition to_int (f : float) : Z :=
  match Prim2SF f with
  | S754_zero _ => 0
  | S754_finite s m e =>
      let mag := if 0 <=? e then Z.pos m * 2 ^ e else Z.pos m / 2 ^ (- e) in
      let v := if s then - mag else mag in
      if (GoInt.MinInt64 <=? v) && (v <=? GoInt.MaxInt64) then v
      else GoInt.MinInt64
  | _ => GoInt.MinInt64
  end.

(** Go's comparison operators on float64. *)
Definition lt (a b : float) : bool := PrimFloat.ltb a b.
Definition gt (a b : float) : bool := PrimFloat.ltb b a.
Definition le (a b : float) : bool := PrimFloat.leb a b.
Definition ge (a b : float) : bool := PrimFloat.leb b a.
Definition eq (a b : float) : bool := PrimFloat.eqb a b.
Definition ne (a b : float) : bool := negb (PrimFloat.eqb a b).

End F64.

(** ** Package colour *)

Module colour.

Record RGB : Type := mkRGB { R : float; G : float; B : float }.

(** The zero value [colour.RGB{}]. *)
Definition zero : RGB := mkRGB 0 0 0.

(** Modelled from the spec: the colour package is not among the sources;
    an RGB supports component-wise add. *)
Definition Add (a b : RGB) : RGB :=
  mkRGB (R a + R b)%float (G a + G b)%float (B a + B b)%float.

(** Modelled from the spec: the colour package is not among the sources;
    an RGB supports component-wise subtract. *)
Definition Subtract (a b : RGB) : RGB :=
  mkRGB (R a - R b)%float (G a - G b)%float (B a - B b)%float.

(** Modelled from the spec: the colour package is not among the sources;
    an RGB supports scalar multiply. *)
Definition MultiplyBy (a : RGB) (f : float) : RGB :=
  mkRGB (R a * f)%float (G a * f)%float (B a * f)%float.

Definition clamp (x : float) : float :=
  if F64.lt x 0 then 0%float
  else if F64.gt x 65535 then 65535%float
  else x.

(** Modelled from the spec: the colour package is not among the sources;
    out-of-range RGB is clamped to [0, 65535]. *)
Definition ClampRGB (a : RGB) : RGB :=
  mkRGB (clamp (R a)) (clamp (G a)) (clamp (B a)).

(** Modelled from the spec: the colour package is not among the sources;
    an RGB supports a divide-and-clamp. *)
Definition DivideAndClamp (a : RGB) (d : float) : RGB :=
  ClampRGB (mkRGB (R a / d)%float (G a / d)%float (B a / d)%float).

(** Modelled from the spec: a contiguous interval of palette indices with
    three flags. *)
Record PaletteRange : Type := mkPaletteRange {
  Start : Z;
  End : Z;
  IsPrimaryCompanyColour : bool;
  IsSecondaryCompanyColour : bool;
  IsAnimatedLight : bool
}.

(** The zero value [colour.PaletteRange{}]. *)
Definition zeroRange : PaletteRange := mkPaletteRange 0 0 false false false.

(** A [*PaletteRange]: [None] is nil, [Some a] the range object at address
    [a] of the palette's range table.  Two pointers are equal when they
    are the same address, whatever the ranges hold. *)
Definition RangePtr : Type := option nat.

Definition ptr_eqb (p q : RangePtr) : bool := bool_decide (p = q).

(** Modelled from the spec: an entry carries an RGB colour (what [GetRGB]
    returns) and a reference to a range, which may be absent. *)
Record PaletteEntry : Type := mkPaletteEntry {
  GetRGB : RGB;
  Range : RangePtr
}.

(** Modelled from the spec: the palette is a sequence of entries indexed
    0..255, so that a lookup by a byte never fails; it provides the three
    colour lists and the two predicates.  [RangeAt] is the store of the
    range objects the entries point to. *)
Record Palette : Type := mkPalette {
  Entries : Z -> PaletteEntry;
  RangeAt : nat -> PaletteRange;
  GetRegularPalette : list RGB;
  GetPrimaryCompanyColourPalette : list RGB;
  GetSecondaryCompanyColourPalette : list RGB;
  IsSpecialColour : Z -> bool;
  IsRenderable : Z -> bool
}.

End colour.

(** ** Package manifest *)

Module manifest.

(** The type [manifest.Manifest]; the name [Manifest] is kept for the
    field of the definition that holds it. *)
Record ManifestData : Type := mkManifest {
  Accuracy : Z;
  EdgeThreshold : float;
  HardEdgeThreshold : float;
  RecoveredVoxelSuppression : float;
  DetailBoost : float;
  FadeToBlack : bool
}.

(** [SoftenEdges] stands for the result of the method [def.SoftenEdges()],
    whose body is not among the sources. *)
Record Definition_ : Type := mkDefinition {
  Palette : colour.Palette;
  Manifest : ManifestData;
  Scale : float;
  Debug : bool;
  SoftenEdges : bool
}.

Record Sprite : Type := mkSprite {
  OffsetX : float;
  OffsetY : float
}.

End manifest.

(** ** Package raycaster *)

Module raycaster.

(** The fields of a sample that the shader reads. *)
Record RenderSample : Type := mkRenderSample {
  Collision : bool;
  Index : Z;
  Depth : Z;
  Influence : float;
  Count : Z;
  IsRecovered : bool;
  Detail : float
}.

Definition with_Influence (s : RenderSample) (f : float) : RenderSample :=
  mkRenderSample (Collision s) (Index s) (Depth s) f (Count s)
                 (IsRecovered s) (Detail s).

Abbreviation RenderInfo := (list RenderSample).
Abbreviation RenderOutput := (list (list (list RenderSample))).

End raycaster.

(** ** Package sprite: the data *)

Record ShaderInfo : Type := mkShaderInfo {
  Colour : colour.RGB;
  SpecialColour : colour.RGB;
  Alpha : float;
  Specialness : float;
  Normal : colour.RGB;
  AveragedNormal : colour.RGB;
  Depth : colour.RGB;
  Occlusion : colour.RGB;
  Lighting : colour.RGB;
  Shadowing : colour.RGB;
  Detail : colour.RGB;
  Transparency : colour.RGB;
  Region : Z;
  ModalIndex : Z;
  DitheredIndex : Z;
  IsMaskColour : bool;
  IsAnimated : bool
}.

(** The zero value [ShaderInfo{}]. *)
Definition zeroShaderInfo : ShaderInfo :=
  mkShaderInfo colour.zero colour.zero 0 0 colour.zero colour.zero colour.zero
               colour.zero colour.zero colour.zero colour.zero colour.zero
               0 0 0 false false.

(** [type ShaderOutput [][]ShaderInfo], indexed [output[x][y]]. *)
Abbreviation ShaderOutput := (list (list ShaderInfo)).

(** ** The projections *)

Definition GetIndex (s : ShaderInfo) : Z := DitheredIndex s.

(** The getters of the other channels. *)
Definition GetColour (s : ShaderInfo) : colour.RGB := Colour s.
Definition GetNormal (s : ShaderInfo) : colour.RGB := Normal s.
Definition GetAveragedNormal (s : ShaderInfo) : colour.RGB := AveragedNormal s.
Definition GetDepth (s : ShaderInfo) : colour.RGB := Depth s.
Definition GetOcclusion (s : ShaderInfo) : colour.RGB := Occlusion s.
Definition GetLighting (s : ShaderInfo) : colour.RGB := Lighting s.
Definition GetShadowing (s : ShaderInfo) : colour.RGB := Shadowing s.
Definition GetDetail (s : ShaderInfo) : colour.RGB := Detail s.
Definition GetTransparency (s : ShaderInfo) : colour.RGB := Transparency s.

Definition GetMaskIndex (s : ShaderInfo) : Z :=
  if F64.gt (Specialness s) 0.75 || IsAnimated s then ModalIndex s
  else if F64.gt (Specialness s) 0.25 && IsMaskColour s then DitheredIndex s
  else 0.

(** [65535/4] is a constant expression over integers. *)
Definition regionStep : Z := Z.quot 65535 4.

Definition GetRegion (s : ShaderInfo) : colour.RGB :=
  colour.mkRGB
    (F64.of_int (GoInt.mul (GoInt.rem (Region s) 4) regionStep))
    (F64.of_int (GoInt.mul (GoInt.rem (GoInt.quot (Region s) 4) 4) regionStep))
    (F64.of_int (GoInt.mul (GoInt.rem (GoInt.quot (Region s) 16) 4) regionStep)).

(** ** Run-time failures

    A Go function either returns, or panics (an index out of range, a write
    to a nil map, a nil pointer dereference).  [OutOfFuel] is produced only
    by the recursion of [floodFill], which is given a recursion depth. *)

Inductive result (A : Type) : Type :=
  | Ok (a : A)
  | Panic
  | OutOfFuel.
Arguments Ok {A} a.
Arguments Panic {A}.
Arguments OutOfFuel {A}.

Definition bind {A B : Type} (m : result A) (k : A -> result B) : result B :=
  match m with
  | Ok a => k a
  | Panic => Panic
  | OutOfFuel => OutOfFuel
  end.

Notation "'let*' x ':=' m 'in' k" := (bind m (fun x => k))
  (at level 10, x pattern, m at level 100, k at level 200).

(** [l[i]] and [l[i] = a] on a slice: out of range is a panic. *)
Definition index {A : Type} (l : list A) (i : Z) : result A :=
  if i <? 0 then Panic
  else match l !! Z.to_nat i with
       | Some a => Ok a
       | None => Panic
       end.

Definition store {A : Type} (l : list A) (i : Z) (a : A) : result (list A) :=
  if i <? 0 then Panic
  else match l !! Z.to_nat i with
       | Some _ => Ok (<[Z.to_nat i := a]> l)
       | None => Panic
       end.

(** [make([]T, n)] with the zero value [z] of [T]. *)
Definition make {A : Type} (z : A) (n : Z) : result (list A) :=
  if n <? 0 then Panic else Ok (replicate (Z.to_nat n) z).

(** [output[x][y]] and [output[x][y] = s]. *)
Definition pixel (output : ShaderOutput) (x y : Z) : result ShaderInfo :=
  let* col := index output x in index col y.

Definition setPixel (output : ShaderOutput) (x y : Z) (s : ShaderInfo)
  : result ShaderOutput :=
  let* col := index output x in
  let* col' := store col y s in
  store output x col'.

(** [for i := 0; i < n; i++ { body }] over a state; the loop variable is
    handed to the body as the [int] it is. *)
Fixpoint forFrom {S : Type} (count : nat) (i : Z) (body : Z -> S -> result S)
    (s : S) : result S :=
  match count with
  | O => Ok s
  | Datatypes.S count' => let* s' := body i s in forFrom count' (i + 1) body s'
  end.

Definition forRange {S : Type} (n : Z) (body : Z -> S -> result S) (s : S)
  : result S :=
  forFrom (Z.to_nat n) 0 body s.

(** ** Field updates of a ShaderInfo *)

Definition with_Colour (s : ShaderInfo) (v : colour.RGB) : ShaderInfo :=
  mkShaderInfo v (SpecialColour s) (Alpha s) (Specialness s) (Normal s)
    (AveragedNormal s) (Depth s) (Occlusion s) (Lighting s) (Shadowing s)
    (Detail s) (Transparency s) (Region s) (ModalIndex s) (DitheredIndex s)
    (IsMaskColour s) (IsAnimated s).

Definition with_SpecialColour (s : ShaderInfo) (v : colour.RGB) : ShaderInfo :=
  mkShaderInfo (Colour s) v (Alpha s) (Specialness s) (Normal s)
    (AveragedNormal s) (Depth s) (Occlusion s) (Lighting s) (Shadowing s)
    (Detail s) (Transparency s) (Region s) (ModalIndex s) (DitheredIndex s)
    (IsMaskColour s) (IsAnimated s).

Definition with_Alpha (s : ShaderInfo) (v : float) : ShaderInfo :=
  mkShaderInfo (Colour s) (SpecialColour s) v (Specialness s) (Normal s)
    (AveragedNormal s) (Depth s) (Occlusion s) (Lighting s) (Shadowing s)
    (Detail s) (Transparency s) (Region s) (ModalIndex s) (DitheredIndex s)
    (IsMaskColour s) (IsAnimated s).

Definition with_Specialness (s : ShaderInfo) (v : float) : ShaderInfo :=
  mkShaderInfo (Colour s) (SpecialColour s) (Alpha s) v (Normal s)
    (AveragedNormal s) (Depth s) (Occlusion s) (Lighting s) (Shadowing s)
    (Detail s) (Transparency s) (Region s) (ModalIndex s) (DitheredIndex s)
    (IsMaskColour s) (IsAnimated s).

(** The seven debug channels that [shade] accumulates, set together. *)
Definition with_debug (s : ShaderInfo)
    (n an d o l sh dt : colour.RGB) : ShaderInfo :=
  mkShaderInfo (Colour s) (SpecialColour s) (Alpha s) (Specialness s) n an d o
    l sh dt (Transparency s) (Region s) (ModalIndex s) (DitheredIndex s)
    (IsMaskColour s) (IsAnimated s).

Definition with_Transparency (s : ShaderInfo) (v : colour.RGB) : ShaderInfo :=
  mkShaderInfo (Colour s) (SpecialColour s) (Alpha s) (Specialness s)
    (Normal s) (AveragedNormal s) (Depth s) (Occlusion s) (Lighting s)
    (Shadowing s) (Detail s) v (Region s) (ModalIndex s) (DitheredIndex s)
    (IsMaskColour s) (IsAnimated s).

Definition with_Region (s : ShaderInfo) (v : Z) : ShaderInfo :=
  mkShaderInfo (Colour s) (SpecialColour s) (Alpha s) (Specialness s)
    (Normal s) (AveragedNormal s) (Depth s) (Occlusion s) (Lighting s)
    (Shadowing s) (Detail s) (Transparency s) v (ModalIndex s)
    (DitheredIndex s) (IsMaskColour s) (IsAnimated s).

Definition with_ModalIndex (s : ShaderInfo) (v : Z) : ShaderInfo :=
  mkShaderInfo (Colour s) (SpecialColour s) (Alpha s) (Specialness s)
    (Normal s) (AveragedNormal s) (Depth s) (Occlusion s) (Lighting s)
    (Shadowing s) (Detail s) (Transparency s) (Region s) v
    (DitheredIndex s) (IsMaskColour s) (IsAnimated s).

Definition with_DitheredIndex (s : ShaderInfo) (v : Z) : ShaderInfo :=
  mkShaderInfo (Colour s) (SpecialColour s) (Alpha s) (Specialness s)
    (Normal s) (AveragedNormal s) (Depth s) (Occlusion s) (Lighting s)
    (Shadowing s) (Detail s) (Transparency s) (Region s) (ModalIndex s)
    v (IsMaskColour s) (IsAnimated s).

Definition with_IsMaskColour (s : ShaderInfo) (v : bool) : ShaderInfo :=
  mkShaderInfo (Colour s) (SpecialColour s) (Alpha s) (Specialness s)
    (Normal s) (AveragedNormal s) (Depth s) (Occlusion s) (Lighting s)
    (Shadowing s) (Detail s) (Transparency s) (Region s) (ModalIndex s)
    (DitheredIndex s) v (IsAnimated s).

Definition with_IsAnimated (s : ShaderInfo) (v : bool) : ShaderInfo :=
  mkShaderInfo (Colour s) (SpecialColour s) (Alpha s) (Specialness s)
    (Normal s) (AveragedNormal s) (Depth s) (Occlusion s) (Lighting s)
    (Shadowing s) (Detail s) (Transparency s) (Region s) (ModalIndex s)
    (DitheredIndex s) (IsMaskColour s) v.

(** ** The sample colouring rules

    [shade] calls functions of the package that live in another file:
    [Colour(s, def, regular, influence)] and the debug channels of a sample.
    They are taken as they come. *)

Module sample.
Class Rules : Type := {
  Colour : raycaster.RenderSample -> manifest.Definition_ -> bool -> float
           -> colour.RGB;
  Normal : raycaster.RenderSample -> colour.RGB;
  AveragedNormal : raycaster.RenderSample -> colour.RGB;
  Depth : raycaster.RenderSample -> colour.RGB;
  Occlusion : raycaster.RenderSample -> colour.RGB;
  Shadow : raycaster.RenderSample -> colour.RGB;
  Lighting : raycaster.RenderSample -> colour.RGB;
  Detail : raycaster.RenderSample -> colour.RGB;
  FloatValue : float -> colour.RGB
}.
End sample.

(** ** getBestIndex and squareDiff *)

Definition squareDiff (a b : float) : float :=
  let diff := (a - b)%float in (diff * diff)%float.

(** The guard that makes the loop [continue]. *)
Definition skipped (p : colour.RGB) : bool :=
  F64.gt (colour.R p) 65000
  && (F64.eq (colour.G p) 0 || F64.gt (colour.G p) 65000)
  && F64.gt (colour.B p) 65000.

Definition distance (error p : colour.RGB) : float :=
  (squareDiff (colour.R error) (colour.R p)
   + squareDiff (colour.G error) (colour.G p)
   + squareDiff (colour.B error) (colour.B p))%float.

(** The loop over [palette] from position [index] on, with the best index
    and sum found so far. *)
Fixpoint bestIndexLoop (error : colour.RGB) (palette : list colour.RGB)
    (index bestIndex : Z) (bestSum : float) : Z :=
  match palette with
  | [] => bestIndex
  | p :: rest =>
      if skipped p then bestIndexLoop error rest (index + 1) bestIndex bestSum
      else
        let sum := distance error p in
        if F64.lt sum bestSum then
          if F64.eq sum 0 then index
          else bestIndexLoop error rest (index + 1) index sum
        else bestIndexLoop error rest (index + 1) bestIndex bestSum
  end.

Definition getBestIndex (error : colour.RGB) (palette : list colour.RGB) : Z :=
  GoInt.to_byte (bestIndexLoop error palette 0 0 F64.MaxFloat64).

(** ** shade *)

(** The running totals of the sample loop of [shade]. *)
Record Tally : Type := mkTally {
  totalInfluence : float;
  filledInfluence : float;
  filledSamples : Z;
  totalSamples : Z;
  values : gmap Z float;
  output : ShaderInfo
}.

Definition emptyTally : Tally :=
  mkTally 0 0 0 0 ∅ zeroShaderInfo.

(** [values[k] += d], a missing key reading as zero. *)
Definition bump (values : gmap Z float) (k : Z) (d : float) : gmap Z float :=
  <[k := (default 0%float (values !! k) + d)%float]> values.

Definition minDepthOf (info : raycaster.RenderInfo) : Z :=
  fold_left
    (fun minDepth s =>
       if raycaster.Collision s && (raycaster.Depth s <? minDepth)
       then raycaster.Depth s else minDepth)
    info GoInt.MaxInt64.

(** The influence of a sample after the three adjustments. *)
Definition adjustInfluence (def : manifest.Definition_) (minDepth : Z)
    (s : raycaster.RenderSample) : float :=
  let m := manifest.Manifest def in
  let i := raycaster.Influence s in
  let i := if raycaster.IsRecovered s
           then (i * (1 - manifest.RecoveredVoxelSuppression m))%float else i in
  let i := if F64.ne (manifest.DetailBoost m) 0
           then (i * (1 + raycaster.Detail s * manifest.DetailBoost m))%float
           else i in
  let i := if negb (raycaster.Depth s =? minDepth)
           then (i / F64.of_int (manifest.Accuracy m))%float else i in
  i.

Section Shade.
Context `{rules : sample.Rules}.

Definition addDebug (s : raycaster.RenderSample) (o : ShaderInfo)
  : ShaderInfo :=
  with_debug o
    (colour.Add (Normal o) (sample.Normal s))
    (colour.Add (AveragedNormal o) (sample.AveragedNormal s))
    (colour.Add (Depth o) (sample.Depth s))
    (colour.Add (Occlusion o) (sample.Occlusion s))
    (colour.Add (Lighting o) (sample.Lighting s))
    (colour.Add (Shadowing o) (sample.Shadow s))
    (colour.Add (Detail o) (sample.Detail s)).

(** One round of the second loop over the samples. *)
Definition tallySample (def : manifest.Definition_) (minDepth : Z)
    (t : Tally) (s0 : raycaster.RenderSample) : Tally :=
  let pal := manifest.Palette def in
  let s := raycaster.with_Influence s0 (adjustInfluence def minDepth s0) in
  let infl := raycaster.Influence s in
  let idx := raycaster.Index s in
  let t1 :=
    if raycaster.Collision s && colour.IsRenderable pal idx then
      let o := output t in
      let o := with_Colour o
                 (colour.Add (Colour o) (sample.Colour s def true infl)) in
      let o := with_SpecialColour o
                 (colour.Add (SpecialColour o)
                             (sample.Colour s def false infl)) in
      let special := colour.IsSpecialColour pal idx in
      let o := if special
               then with_Specialness o (Specialness o + 1 * infl)%float
               else o in
      let v := values t in
      let v := if special then bump v idx 1 else v in
      let v := if negb (idx =? 0) then bump v idx infl else v in
      let o := if manifest.Debug def
               then Nat.iter (Z.to_nat (raycaster.Count s)) (addDebug s) o
               else o in
      mkTally (totalInfluence t + infl)%float
              (filledInfluence t + infl)%float
              (GoInt.add (filledSamples t) (raycaster.Count s))
              (totalSamples t) v o
    else
      mkTally (totalInfluence t + infl)%float (filledInfluence t)
              (filledSamples t) (totalSamples t) (values t) (output t) in
  mkTally (totalInfluence t1) (filledInfluence t1) (filledSamples t1)
          (GoInt.add (totalSamples t1) (raycaster.Count s))
          (values t1) (output t1).

Definition tally (def : manifest.Definition_) (info : raycaster.RenderInfo)
  : Tally :=
  fold_left (tallySample def (minDepthOf info)) info emptyTally.
End Shade.

(** The state of the loop [for k, v := range values]: the largest value seen,
    the previous modal, and the modal. *)
Record Vote : Type := mkVote {
  max : float;
  alternateModal : Z;
  modal : Z
}.

Definition voteStep (st : Vote) (kv : Z * float) : Vote :=
  let '(k, v) := kv in
  if F64.gt v (max st) then mkVote v (modal st) k else st.

(** [visited] is the sequence of pairs in which the range statement visits
    the map; Go leaves the order open. *)
Definition vote (visited : list (Z * float)) : Vote :=
  fold_left voteStep visited (mkVote 0 0 0).

(** The rule against banding, on the outcome of the vote. *)
Definition antiBanding (pal : colour.Palette) (prevIndex : Z) (v : Vote) : Z :=
  if (modal v =? prevIndex)
     && colour.ptr_eqb (colour.Range (colour.Entries pal (modal v)))
                       (colour.Range (colour.Entries pal (alternateModal v)))
     && negb (alternateModal v =? 0)
  then alternateModal v
  else modal v.

(** The test of the hard edge, on the two counts. *)
Definition edgeDiscard (def : manifest.Definition_) (filled total : Z) : bool :=
  let hardEdgeThreshold :=
    F64.to_int (manifest.HardEdgeThreshold (manifest.Manifest def) * 100)%float in
  (total =? 0)
  || (GoInt.quot (GoInt.mul filled 100) total <=? hardEdgeThreshold).

Section ShadeEnd.
Context `{rules : sample.Rules}.

(** [visit] gives the order in which the range statement walks a map. *)
Definition shade (visit : gmap Z float -> list (Z * float))
    (info : raycaster.RenderInfo) (def : manifest.Definition_)
    (prevIndex : Z) : ShaderInfo :=
  let t := tally def info in
  let v := vote (visit (values t)) in
  let o := with_ModalIndex (output t)
             (antiBanding (manifest.Palette def) prevIndex v) in
  if edgeDiscard def (filledSamples t) (totalSamples t) then zeroShaderInfo
  else
    let o := with_Alpha o 1 in
    let divisor := filledInfluence t in
    let o := if manifest.SoftenEdges def
             then with_Alpha o (divisor / totalInfluence t)%float else o in
    let divisor := if manifest.FadeToBlack (manifest.Manifest def)
                   then totalInfluence t else divisor in
    let o := with_Colour o (colour.DivideAndClamp (Colour o) divisor) in
    let o := with_SpecialColour o
               (colour.DivideAndClamp (SpecialColour o) divisor) in
    let o := with_Specialness o (Specialness o / divisor)%float in
    if manifest.Debug def then
      let debugDivisor := F64.of_int (filledSamples t) in
      let o := with_debug o
                 (colour.DivideAndClamp (Normal o) debugDivisor)
                 (colour.DivideAndClamp (AveragedNormal o) debugDivisor)
                 (colour.DivideAndClamp (Depth o) debugDivisor)
                 (colour.DivideAndClamp (Occlusion o) debugDivisor)
                 (colour.DivideAndClamp (Lighting o) debugDivisor)
                 (colour.DivideAndClamp (Shadowing o) debugDivisor)
                 (colour.DivideAndClamp (Detail o) debugDivisor) in
      with_Transparency o
        (sample.FloatValue (F64.of_int (filledSamples t)
                            / F64.of_int (totalSamples t))%float)
    else o.
End ShadeEnd.

(** ** ditherOutput *)

(** What the range pointer of an entry refers to; a nil pointer is replaced
    by a fresh zero range. *)
Definition rangeOrEmpty (pal : colour.Palette) (p : colour.RangePtr)
  : colour.PaletteRange :=
  match p with
  | Some a => colour.RangeAt pal a
  | None => colour.zeroRange
  end.

(** The colour to match: the pixel's colour, plus the error that reached the
    pixel unless the pixel above has a special modal index. *)
Definition target (pal : colour.Palette) (output : ShaderOutput) (x y : Z)
    (c : colour.RGB) (errCurr : list colour.RGB) : result colour.RGB :=
  let* above := (if 0 <? y
                 then let* a := pixel output x (y - 1) in
                      Ok (colour.IsSpecialColour pal (ModalIndex a))
                 else Ok false) in
  if above then Ok c
  else let* e := index errCurr (y + 1) in Ok (colour.Add c e).

(** [rows[i] = rows[i].Add(e)]. *)
Definition addAt (rows : list colour.RGB) (i : Z) (e : colour.RGB)
  : result (list colour.RGB) :=
  let* old := index rows i in store rows i (colour.Add old e).

(** The four Floyd-Steinberg updates and the reset of the current cell. *)
Definition diffuse (errCurr errNext : list colour.RGB) (y : Z)
    (error : colour.RGB) : result (list colour.RGB * list colour.RGB) :=
  let* errNext := addAt errNext (y + 0) (colour.MultiplyBy error (3 / 16)) in
  let* errNext := addAt errNext (y + 1) (colour.MultiplyBy error (5 / 16)) in
  let* errNext := addAt errNext (y + 2) (colour.MultiplyBy error (1 / 16)) in
  let* errCurr := addAt errCurr (y + 2) (colour.MultiplyBy error (7 / 16)) in
  let* errCurr := store errCurr (y + 1) colour.zero in
  Ok (errCurr, errNext).

(** What a call leaves behind: the grid and the two error rows, which the
    caller shares with it, and the index it returns. *)
Record Dithered : Type := mkDithered {
  grid : ShaderOutput;
  rowCurr : list colour.RGB;
  rowNext : list colour.RGB;
  bestIndex : Z
}.

(** The choice of the index: the value of [error] and [bestIndex] after the
    chain of branches, and the pixel with [IsAnimated] set where the chain
    sets it. *)
Definition choose (def : manifest.Definition_) (output : ShaderOutput)
    (x y : Z) (error : colour.RGB) (errCurr : list colour.RGB)
    (primaryCCPalette secondaryCCPalette regularPalette : list colour.RGB)
    (s : ShaderInfo) : result (colour.RGB * Z * ShaderInfo) :=
  let pal := manifest.Palette def in
  let rng := rangeOrEmpty pal (colour.Range (colour.Entries pal (ModalIndex s))) in
  if F64.lt (Alpha s) (manifest.EdgeThreshold (manifest.Manifest def)) then
    Ok (error, 0, s)
  else if colour.IsPrimaryCompanyColour rng then
    let* error := target pal output x y (SpecialColour s) errCurr in
    Ok (error, getBestIndex error primaryCCPalette, s)
  else if colour.IsSecondaryCompanyColour rng then
    let* error := target pal output x y (SpecialColour s) errCurr in
    Ok (error, getBestIndex error secondaryCCPalette, s)
  else if colour.IsAnimatedLight rng then
    let bestIndex := ModalIndex s in
    Ok (colour.GetRGB (colour.Entries pal bestIndex), bestIndex,
        with_IsAnimated s true)
  else
    let* error := target pal output x y (Colour s) errCurr in
    Ok (error, getBestIndex error regularPalette, s).

(** The error that is diffused. *)
Definition quantisationError (def : manifest.Definition_) (s : ShaderInfo)
    (error : colour.RGB) (bestIndex : Z) : colour.RGB :=
  if F64.ge (Alpha s) (manifest.EdgeThreshold (manifest.Manifest def))
  then colour.ClampRGB
         (colour.Subtract error
            (colour.GetRGB (colour.Entries (manifest.Palette def) bestIndex)))
  else colour.zero.

Definition ditherOutput (def : manifest.Definition_) (output : ShaderOutput)
    (x y : Z) (error : colour.RGB) (errCurr : list colour.RGB)
    (primaryCCPalette secondaryCCPalette regularPalette : list colour.RGB)
    (errNext : list colour.RGB) : result Dithered :=
  let pal := manifest.Palette def in
  let* s := pixel output x y in
  let* (error, bestIndex, s) :=
    choose def output x y error errCurr primaryCCPalette secondaryCCPalette
           regularPalette s in
  let s := with_DitheredIndex s bestIndex in
  let s := if colour.IsSpecialColour pal bestIndex
           then with_IsMaskColour s true else s in
  let* output := setPixel output x y s in
  let error := quantisationError def s error bestIndex in
  let* (errCurr, errNext) := diffuse errCurr errNext y error in
  Ok (mkDithered output errCurr errNext bestIndex).

(** ** floodFill *)

(** [if cond { floodFill(...) }]: the call, whose boolean result the source
    drops, works on the grid the caller holds. *)
Definition when (cond : bool)
    (call : ShaderOutput -> result (ShaderOutput * bool))
    (output : ShaderOutput) : result ShaderOutput :=
  if cond then let* r := call output in Ok (fst r) else Ok output.

(** The recursion of the source is not structural; [depth] bounds the depth
    of the call stack, and a call that would go deeper is [OutOfFuel].
    [floodFill_terminates] shows that a depth of one more than the number of
    cells of the grid is never exceeded. *)
Fixpoint floodFill (depth : nat) (output : ShaderOutput) (region : Z)
    (x y width height : Z) (palette : colour.Palette)
    (paletteRange : colour.RangePtr) : result (ShaderOutput * bool) :=
  match depth with
  | O => OutOfFuel
  | S depth =>
      let* s := pixel output x y in
      let index := ModalIndex s in
      let thisRegion := Region s in
      let thisRange := colour.Range (colour.Entries palette index) in
      if negb (colour.ptr_eqb thisRange paletteRange) || (thisRegion =? region)
      then Ok (output, false)
      else
        let* output := setPixel output x y (with_Region s region) in
        let* output :=
          when (0 <? x)
               (fun o => floodFill depth o region (GoInt.sub x 1) y width height
                                   palette paletteRange) output in
        let* output :=
          when (0 <? y)
               (fun o => floodFill depth o region x (GoInt.sub y 1) width height
                                   palette paletteRange) output in
        let* output :=
          when (x <? GoInt.sub width 1)
               (fun o => floodFill depth o region (GoInt.add x 1) y width height
                                   palette paletteRange) output in
        let* output :=
          when (y <? GoInt.sub height 1)
               (fun o => floodFill depth o region x (GoInt.add y 1) width height
                                   palette paletteRange) output in
        Ok (output, true)
  end.

(** The number of cells of a grid. *)
Definition cells (output : ShaderOutput) : nat :=
  sum_list (length <$> output).

(** The number of cells that do not carry the region id [region] yet: what
    the recursion of [floodFill] uses up. *)
Definition pendingIn (region : Z) (column : list ShaderInfo) : nat :=
  sum_list ((fun s => if Region s =? region then 0%nat else 1%nat) <$> column).

Definition pending (region : Z) (output : ShaderOutput) : nat :=
  sum_list (pendingIn region <$> output).

(** ** Regions *)

Record ColourDistance : Type := mkColourDistance {
  Low : float;
  High : float
}.

Definition sum3 (c : colour.RGB) : float :=
  (colour.R c + colour.G c + colour.B c)%float.

Definition MultiplyColours (cd : ColourDistance) (midpoint c : colour.RGB)
  : colour.RGB :=
  if F64.lt (sum3 c) (sum3 midpoint) then
    colour.ClampRGB (colour.mkRGB
      (colour.R midpoint - (colour.R midpoint - colour.R c) * Low cd)%float
      (colour.G midpoint - (colour.G midpoint - colour.G c) * Low cd)%float
      (colour.B midpoint - (colour.B midpoint - colour.B c) * Low cd)%float)
  else
    colour.ClampRGB (colour.mkRGB
      (colour.R midpoint + (colour.R c - colour.R midpoint) * High cd)%float
      (colour.G midpoint + (colour.G c - colour.G midpoint) * High cd)%float
      (colour.B midpoint + (colour.B c - colour.B midpoint) * High cd)%float).

(** [ModalCount] is a Go map, a reference: [None] is the nil map of the zero
    value.  The one place that writes to it stores the whole record back in
    [regions] right after, so that holding the map by value loses nothing. *)
Record RegionInfo : Type := mkRegionInfo {
  ModalCount : option (gmap Z Z);
  AverageColour : colour.RGB;
  Distance : ColourDistance;
  MinIndex : Z;
  MaxIndex : Z;
  Size : Z;
  SizeInRange : Z;
  Range : colour.RangePtr
}.

(** The zero value [RegionInfo{}], also what a missing key reads as. *)
Definition zeroRegionInfo : RegionInfo :=
  mkRegionInfo None colour.zero (mkColourDistance 0 0) 0 0 0 0 None.

Definition regionOf (regions : gmap Z RegionInfo) (r : Z) : RegionInfo :=
  default zeroRegionInfo (regions !! r).

(** [info.ModalCount[k]++] in the form the source writes it; the write to a
    nil map is a panic. *)
Definition countIndex (m : option (gmap Z Z)) (k : Z) : result (gmap Z Z) :=
  match m with
  | None => Panic
  | Some m => match m !! k with
              | None => Ok (<[k := 1]> m)
              | Some ct => Ok (<[k := GoInt.add ct 1]> m)
              end
  end.

(** The running mean of one channel. *)
Definition runningMean (avg : float) (n : Z) (c : float) : float :=
  ((avg * (F64.of_int n - 1) + c) / F64.of_int n)%float.

(** The statistics of pass 1 for the pixel [s] that was just given
    [bestIndex]. *)
Definition updateStats (pal : colour.Palette) (regions : gmap Z RegionInfo)
    (s : ShaderInfo) (bestIndex : Z) : result (gmap Z RegionInfo) :=
  let ditheredRange := colour.Range (colour.Entries pal bestIndex) in
  let info := regionOf regions (Region s) in
  let size := GoInt.add (Size info) 1 in
  if colour.ptr_eqb ditheredRange (Range info) && negb (bestIndex =? 0) then
    let sizeInRange := GoInt.add (SizeInRange info) 1 in
    let col := if colour.IsSpecialColour pal (ModalIndex s)
               then SpecialColour s else Colour s in
    let avg := AverageColour info in
    let avg' := colour.mkRGB
                  (runningMean (colour.R avg) sizeInRange (colour.R col))
                  (runningMean (colour.G avg) sizeInRange (colour.G col))
                  (runningMean (colour.B avg) sizeInRange (colour.B col)) in
    let minIndex := if (bestIndex <? MinIndex info) || (MinIndex info =? 0)
                    then bestIndex else MinIndex info in
    let maxIndex := if (MaxIndex info <? bestIndex) || (MaxIndex info =? 0)
                    then bestIndex else MaxIndex info in
    let* counts := countIndex (ModalCount info) bestIndex in
    Ok (<[Region s :=
            mkRegionInfo (Some counts) avg' (Distance info) minIndex maxIndex
                         size sizeInRange (Range info)]> regions)
  else Ok regions.

(** The body of the loop over the regions after pass 1, for one region. The
    two indices are bytes, and so is their arithmetic; reading the bounds of
    a nil range is a panic. *)
Definition stretchRegion (pal : colour.Palette) (region : RegionInfo)
  : result RegionInfo :=
  if 1 <? Size region then
    let* rng := match Range region with
                | Some a => Ok (colour.RangeAt pal a)
                | None => Panic
                end in
    let minColour := colour.GetRGB (colour.Entries pal (MinIndex region)) in
    let maxColour := colour.GetRGB (colour.Entries pal (MaxIndex region)) in
    let lowIndex :=
      if colour.Start rng <? MinIndex region then
        if 3 <? GoInt.to_byte (MinIndex region - colour.Start rng)
        then GoInt.to_byte (MinIndex region - 3)
        else colour.Start rng
      else MinIndex region in
    let highIndex :=
      if MaxIndex region <? colour.End rng then
        if 3 <? GoInt.to_byte (colour.End rng - MaxIndex region)
        then GoInt.to_byte (MaxIndex region + 3)
        else colour.End rng
      else MaxIndex region in
    let lowColour := colour.GetRGB (colour.Entries pal lowIndex) in
    let highColour := colour.GetRGB (colour.Entries pal highIndex) in
    let avg := AverageColour region in
    let ratio (proj : colour.RGB -> float) (far near : colour.RGB) : float :=
      ((proj avg - proj far) / (proj avg - proj near))%float in
    let distance := mkColourDistance
      ((ratio colour.R lowColour minColour + ratio colour.G lowColour minColour
        + ratio colour.B lowColour minColour) / 3)%float
      ((ratio colour.R highColour maxColour + ratio colour.G highColour maxColour
        + ratio colour.B highColour maxColour) / 3)%float in
    Ok (mkRegionInfo (ModalCount region) (AverageColour region) distance
                     (MinIndex region) (MaxIndex region) (Size region)
                     (SizeInRange region) (Range region))
  else Ok region.

(** [for idx, region := range regions]: each round reads and writes the
    entry of its own key only, so the order of the rounds does not show. *)
Definition stretchRegions (pal : colour.Palette) (regions : gmap Z RegionInfo)
  : result (gmap Z RegionInfo) :=
  fold_left
    (fun acc kv =>
       let* m := acc in
       let* r := stretchRegion pal (snd kv) in
       Ok (<[fst kv := r]> m))
    (map_to_list regions) (Ok regions).

(** ** GetShaderOutput, stage by stage *)

Section Driver.
Context `{rules : sample.Rules}.

(** The order in which the range statement of [shade] walks its map, for
    the call at each pixel. *)
Variable visit : Z -> Z -> gmap Z float -> list (Z * float).
Variable renderOutput : raycaster.RenderOutput.
Variable spr : manifest.Sprite.
Variable def : manifest.Definition_.
Variables width height : Z.

Let pal : colour.Palette := manifest.Palette def.

Definition xoffset : Z :=
  F64.to_int (manifest.OffsetX spr * manifest.Scale def)%float.
Definition yoffset : Z :=
  F64.to_int (manifest.OffsetY spr * manifest.Scale def)%float.

(** The body of the first pair of loops. *)
Definition shadePixel (x y : Z) (output : ShaderOutput)
  : result ShaderOutput :=
  let rx := GoInt.add x xoffset in
  let ry := GoInt.add y yoffset in
  if (rx <? 0) || (width <=? rx) || (ry <? 0) || (height <=? ry)
  then Ok output
  else
    let* prevIndex := (if 1 <? x
                       then let* p := pixel output (x - 1) y in
                            Ok (ModalIndex p)
                       else Ok 0) in
    let* column := index renderOutput rx in
    let* info := index column ry in
    setPixel output x y (shade (visit x y) info def prevIndex).

Definition shadeStage : result ShaderOutput :=
  let* output := make [] width in
  forRange width
    (fun x output =>
       let* column := make zeroShaderInfo height in
       let* output := store output x column in
       forRange height (shadePixel x) output)
    output.

(** The state of the loops that find the regions. *)
Record Segmentation : Type := mkSegmentation {
  segGrid : ShaderOutput;
  currentRegion : Z;
  segRegions : gmap Z RegionInfo
}.

Definition segmentPixel (x y : Z) (st : Segmentation) : result Segmentation :=
  let output := segGrid st in
  let* s := pixel output x y in
  if ModalIndex s =? 0 then Ok st
  else if negb (Region s =? 0) then Ok st
  else
    let paletteRange := colour.Range (colour.Entries pal (ModalIndex s)) in
    let info := mkRegionInfo (Some ∅) colour.zero (mkColourDistance 0 0)
                             0 0 0 0 paletteRange in
    let* r := floodFill (S (cells output)) output (currentRegion st) x y
                        width height pal paletteRange in
    Ok (mkSegmentation (fst r) (GoInt.add (currentRegion st) 1)
                       (<[currentRegion st := info]> (segRegions st))).

Definition segmentStage (output : ShaderOutput) : result Segmentation :=
  forRange width (fun x => forRange height (segmentPixel x))
           (mkSegmentation output 1 ∅).

(** The state of a dithering pass. *)
Record Pass : Type := mkPass {
  passGrid : ShaderOutput;
  errCurr : list colour.RGB;
  errNext : list colour.RGB;
  regions : gmap Z RegionInfo
}.

Definition swapRows (st : Pass) : Pass :=
  mkPass (passGrid st) (errNext st) (errCurr st) (regions st).

Definition dither (x y : Z) (st : Pass) : result Dithered :=
  ditherOutput def (passGrid st) x y colour.zero (errCurr st)
    (colour.GetPrimaryCompanyColourPalette pal)
    (colour.GetSecondaryCompanyColourPalette pal)
    (colour.GetRegularPalette pal) (errNext st).

Definition pass1Pixel (x y : Z) (st : Pass) : result Pass :=
  let* d := dither x y st in
  let* s := pixel (grid d) x y in
  let* regions := updateStats pal (regions st) s (bestIndex d) in
  Ok (mkPass (grid d) (rowCurr d) (rowNext d) regions).

Definition passLoop (body : Z -> Z -> Pass -> result Pass) (st : Pass)
  : result Pass :=
  forRange width
    (fun x st => let* st := forRange height (body x) st in Ok (swapRows st))
    st.

Definition pass1Stage (seg : Segmentation) : result Pass :=
  let* errCurr := make colour.zero (GoInt.add height 2) in
  let* errNext := make colour.zero (GoInt.add height 2) in
  passLoop pass1Pixel (mkPass (segGrid seg) errCurr errNext (segRegions seg)).

Definition stretchStage (st : Pass) : result Pass :=
  let* regions := stretchRegions pal (regions st) in
  Ok (mkPass (passGrid st) (errCurr st) (errNext st) regions).

(** The rewrite of the pixel's colour that precedes its second dithering. *)
Definition stretchPixel (regions : gmap Z RegionInfo) (s : ShaderInfo)
  : ShaderInfo :=
  let info := regionOf regions (Region s) in
  if 1 <? Size info then
    if colour.IsSpecialColour pal (ModalIndex s)
    then with_SpecialColour s
           (MultiplyColours (Distance info) (AverageColour info)
                            (SpecialColour s))
    else with_Colour s
           (MultiplyColours (Distance info) (AverageColour info) (Colour s))
  else s.

Definition pass2Pixel (x y : Z) (st : Pass) : result Pass :=
  let* s := pixel (passGrid st) x y in
  let* output := setPixel (passGrid st) x y (stretchPixel (regions st) s) in
  let* d := dither x y (mkPass output (errCurr st) (errNext st) (regions st)) in
  Ok (mkPass (grid d) (rowCurr d) (rowNext d) (regions st)).

Definition pass2Stage (st : Pass) : result Pass := passLoop pass2Pixel st.

(** The grid after the first dithering pass. *)
Definition afterPass1 : result Pass :=
  let* output := shadeStage in
  let* seg := segmentStage output in
  pass1Stage seg.

Definition GetShaderOutput : result ShaderOutput :=
  let* st := afterPass1 in
  let* st := stretchStage st in
  let* st := pass2Stage st in
  Ok (passGrid st).
End Driver.

(** ** A small palette and scene, for running the functions *)

Module fixture.

Definition grey (v : float) : colour.RGB := colour.mkRGB v v v.
Definition magenta : colour.RGB := colour.mkRGB 65535 0 65535.

(** Entries 1 and 2 share the range at address 0, entry 3 has the range at
    address 1, and every other entry, entry 0 among them, has none. *)
Definition entries (i : Z) : colour.PaletteEntry :=
  if i =? 1 then colour.mkPaletteEntry (grey 0) (Some 0%nat)
  else if i =? 2 then colour.mkPaletteEntry (grey 32768) (Some 0%nat)
  else if i =? 3 then colour.mkPaletteEntry (grey 60000) (Some 1%nat)
  else colour.mkPaletteEntry magenta None.

Definition ranges (a : nat) : colour.PaletteRange :=
  match a with
  | O => colour.mkPaletteRange 1 2 false false false
  | _ => colour.mkPaletteRange 3 3 false false false
  end.

Definition regular : list colour.RGB :=
  [magenta; grey 0; grey 32768; grey 60000].

Definition pal : colour.Palette :=
  colour.mkPalette entries ranges regular [] []
    (fun _ => false) (fun i => negb (i =? 0)).

(** A definition with the given edge threshold and a hard edge threshold
    of one half. *)
Definition def (edge : float) : manifest.Definition_ :=
  manifest.mkDefinition pal (manifest.mkManifest 2 edge 0.5 0 0 false)
                        1 false false.

Definition spr : manifest.Sprite := manifest.mkSprite 0 0.

#[local] Instance rules : sample.Rules := {|
  sample.Colour s d regular infl :=
    colour.MultiplyBy
      (colour.GetRGB (colour.Entries (manifest.Palette d) (raycaster.Index s)))
      infl;
  sample.Normal _ := colour.zero;
  sample.AveragedNormal _ := colour.zero;
  sample.Depth _ := colour.zero;
  sample.Occlusion _ := colour.zero;
  sample.Shadow _ := colour.zero;
  sample.Lighting _ := colour.zero;
  sample.Detail _ := colour.zero;
  sample.FloatValue f := grey f
|}.

(** The range statement walking a map in the order of its keys. *)
Definition visit (m : gmap Z float) : list (Z * float) := map_to_list m.
Definition visitAt (x y : Z) : gmap Z float -> list (Z * float) := visit.

(** A sample that hit a voxel of the given index, and one that missed. *)
Definition hit (i : Z) : raycaster.RenderSample :=
  raycaster.mkRenderSample true i 0 1 1 false 0.
Definition miss (count : Z) : raycaster.RenderSample :=
  raycaster.mkRenderSample false 0 0 1 count false 0.

Definition pixelWith (region modalIndex : Z) : ShaderInfo :=
  with_Alpha (with_Region (with_ModalIndex zeroShaderInfo modalIndex) region) 1.

(** A sample that hit a voxel of the given index with the given influence. *)
Definition hitWith (i : Z) (influence : float) : raycaster.RenderSample :=
  raycaster.mkRenderSample true i 0 influence 1 false 0.

(** A second palette: entry 1 alone in the range at address 0, entries 2
    and 3 in the range at address 1. *)
Definition entries2 (i : Z) : colour.PaletteEntry :=
  if i =? 1 then colour.mkPaletteEntry (grey 0) (Some 0%nat)
  else if i =? 2 then colour.mkPaletteEntry (grey 32768) (Some 1%nat)
  else if i =? 3 then colour.mkPaletteEntry (grey 60000) (Some 1%nat)
  else colour.mkPaletteEntry magenta None.

Definition ranges2 (a : nat) : colour.PaletteRange :=
  match a with
  | O => colour.mkPaletteRange 1 1 false false false
  | _ => colour.mkPaletteRange 2 3 false false false
  end.

Definition def2 : manifest.Definition_ :=
  manifest.mkDefinition
    (colour.mkPalette entries2 ranges2 regular [] []
       (fun _ => false) (fun i => negb (i =? 0)))
    (manifest.mkManifest 2 0.5 0.5 0 0 false) 1 false false.

(** A third palette: entry 3 is the one primary company colour, a special
    colour. *)
Definition rangesCC (a : nat) : colour.PaletteRange :=
  match a with
  | O => colour.mkPaletteRange 1 2 false false false
  | _ => colour.mkPaletteRange 3 3 true false false
  end.

Definition defCC : manifest.Definition_ :=
  manifest.mkDefinition
    (colour.mkPalette entries rangesCC regular
       [magenta; magenta; magenta; grey 60000] []
       (fun i => i =? 3) (fun i => negb (i =? 0)))
    (manifest.mkManifest 2 0.5 0.5 0 0 false) 1 false false.

End fixture.

(** ** Predicates of the proofs *)

(** Every float64 but NaN has a key, a triple of integers ordered
    lexicographically, through which the comparisons are read. *)
Definition key (x : spec_float) : Z * Z * Z :=
  match x with
  | S754_zero _ => (0, 0, 0)
  | S754_infinity true => (-2, 0, 0)
  | S754_infinity false => (2, 0, 0)
  | S754_nan => (0, 0, 0)
  | S754_finite true m e => (-1, - e, - Z.pos m)
  | S754_finite false m e => (1, e, Z.pos m)
  end.

Definition isnan (x : spec_float) : bool :=
  match x with S754_nan => true | _ => false end.

Definition lexlt (k1 k2 : Z * Z * Z) : Prop :=
  let '(a1, b1, c1) := k1 in
  let '(a2, b2, c2) := k2 in
  a1 < a2 \/ (a1 = a2 /\ (b1 < b2 \/ (b1 = b2 /\ c1 < c2))).

(** What a call may leave: a panic, or a grid with no more pending cells
    than [bound]; never a call stack that ran out. *)
Definition spent {A : Type} (region : Z) (bound : nat) (grid : A -> ShaderOutput)
    (r : result A) : Prop :=
  match r with
  | Ok a => (pending region (grid a) <= bound)%nat
  | Panic => True
  | OutOfFuel => False
  end.

(** What the loop over the map has established after the pairs [seen]: no
    pair seen has a value above [max], and the modal is the key of a pair
    seen that has the value [max], unless no pair was taken yet. *)
Definition voted (seen : list (Z * float)) (st : Vote) : Prop :=
  (forall k v, (k, v) ∈ seen -> F64.gt v (max st) = false)
  /\ ((modal st, max st) ∈ seen \/ st = mkVote 0 0 0).

(** A value that is NaN or carries the sign bit 0; the squares and their
    sums are of this kind. *)
Definition unsigned (x : spec_float) : Prop :=
  match x with
  | S754_nan => True
  | S754_zero s | S754_infinity s | S754_finite s _ _ => s = false
  end.

(** The entry [q] at index [j] is a candidate of the palette [l]: an entry
    that the guard lets through. *)
Definition candidate (l : list colour.RGB) (j : nat) (q : colour.RGB) : Prop :=
  l !! j = Some q /\ skipped q = false.

(** The entry [p] at index [i] is the one the loop settles on: a candidate
    below MaxFloat64 that no candidate undercuts and no earlier candidate
    equals. *)
Definition settled (error : colour.RGB) (l : list colour.RGB) (i : nat)
    (p : colour.RGB) : Prop :=
  candidate l i p
  /\ F64.lt (distance error p) F64.MaxFloat64 = true
  /\ (forall j q, candidate l j q ->
        F64.lt (distance error q) (distance error p) = false)
  /\ (forall j q, (j < i)%nat -> candidate l j q ->
        F64.le (distance error q) (distance error p) = false).

(** The state of the loop of [getBestIndex] after the entries [pre]. *)
Definition looped (error : colour.RGB) (pre : list colour.RGB) (bestIndex : Z)
    (bestSum : float) : Prop :=
  (forall j q, candidate pre j q -> F64.lt (distance error q) bestSum = false)
  /\ (bestSum = F64.MaxFloat64 \/ F64.lt bestSum F64.MaxFloat64 = true)
  /\ ((bestIndex = 0 /\ bestSum = F64.MaxFloat64)
      \/ exists i p, bestIndex = Z.of_nat i /\ bestSum = distance error p
                     /\ candidate pre i p
                     /\ F64.lt (distance error p) F64.MaxFloat64 = true
                     /\ forall j q, (j < i)%nat -> candidate pre j q ->
                          F64.le (distance error q) (distance error p) = false).

(** What the loop of [getBestIndex] returns on the list [l]. *)
Definition outcome (error : colour.RGB) (l : list colour.RGB) (r : Z) : Prop :=
  (r = 0 /\ forall j q, candidate l j q ->
              F64.lt (distance error q) F64.MaxFloat64 = false)
  \/ exists i p, r = Z.of_nat i /\ settled error l i p.

(** A best sum that every exact match undercuts. *)
Definition above_zero (b : float) : Prop :=
  forall z, F64.eq z 0 = true -> F64.lt z b = true.

(** Two readings of a cell that differ in the region id at most. *)
Definition regionApart (r r' : result ShaderInfo) : Prop :=
  match r, r' with
  | Ok s, Ok s' => s' = with_Region s (Region s')
  | Panic, Panic => True
  | _, _ => False
  end.

Definition gridsApart (output output' : ShaderOutput) : Prop :=
  forall x y, regionApart (pixel output x y) (pixel output' x y).

(** What the shading stage leaves in the cell (x, y): the zero value, or
    what [shade] made of the samples of the cell. *)
Definition shadedFrom `{rules : sample.Rules}
    (visit : Z -> Z -> gmap Z float -> list (Z * float))
    (renderOutput : raycaster.RenderOutput) (spr : manifest.Sprite)
    (def : manifest.Definition_) (x y : Z) (s : ShaderInfo) : Prop :=
  s = zeroShaderInfo
  \/ exists column info prevIndex,
       index renderOutput (GoInt.add x (xoffset spr def)) = Ok column
       /\ index column (GoInt.add y (yoffset spr def)) = Ok info
       /\ s = shade (visit x y) info def prevIndex.

(** The cell (x0, y0) holds a pixel of the given Alpha. *)
Definition alphaAt (a : float) (x0 y0 : Z) (st : Pass) : Prop :=
  exists s, pixel (passGrid st) x0 y0 = Ok s /\ Alpha s = a.

(** *** The regions

    What the proofs about [floodFill] and the scan for regions speak of. *)

(** The range pointer of the palette entry of a pixel's modal index. *)
Definition rangeOf (pal : colour.Palette) (s : ShaderInfo) : colour.RangePtr :=
  colour.Range (colour.Entries pal (ModalIndex s)).

(** The grid has [w] columns of [h] cells. *)
Definition shape (w h : Z) (g : ShaderOutput) : Prop :=
  forall x y, (exists s, pixel g x y = Ok s) <-> (0 <= x < w /\ 0 <= y < h).

(** The cell (x, y) carries the region id [r]. *)
Definition marked (r : Z) (g : ShaderOutput) (x y : Z) : Prop :=
  exists s, pixel g x y = Ok s /\ Region s = r.

(** The cell (x, y) has a modal index of the range [R]. *)
Definition matching (pal : colour.Palette) (R : colour.RangePtr)
    (g : ShaderOutput) (x y : Z) : Prop :=
  exists s, pixel g x y = Ok s /\ rangeOf pal s = R.

(** The cells (x, y) and (x', y') are neighbours in one of the four
    directions. *)
Definition adjacent (x y x' y' : Z) : Prop :=
  (y' = y /\ (x' = x + 1 \/ x' = x - 1))
  \/ (x' = x /\ (y' = y + 1 \/ y' = y - 1)).

(** What a flood fill with the region id [r] and the range [R] has made of
    the grid [g]: it wrote region ids only, it took the id [r] from no cell,
    it left the cells alone that do not carry [r] afterwards, and every cell
    that it gave the id [r] is of the range [R] and has all its neighbours
    of the range [R] carry [r] too. *)
Record filled (pal : colour.Palette) (R : colour.RangePtr) (r : Z)
    (g g' : ShaderOutput) : Prop := mkFilled {
  fill_apart : gridsApart g g';
  fill_mono : forall x y, marked r g x y -> marked r g' x y;
  fill_rest : forall x y, ~ marked r g' x y -> pixel g' x y = pixel g x y;
  fill_new : forall x y, ~ marked r g x y -> marked r g' x y ->
    matching pal R g x y
    /\ forall x' y', adjacent x y x' y' -> matching pal R g x' y' ->
         marked r g' x' y'
}.

(** The cell (x', y') is reached from the cell (x, y) by steps between
    neighbours, through cells of the range [R] only. *)
Inductive linked (pal : colour.Palette) (R : colour.RangePtr)
    (g : ShaderOutput) (x y : Z) : Z -> Z -> Prop :=
  | linked_here : matching pal R g x y -> linked pal R g x y x y
  | linked_step (x1 y1 x2 y2 : Z) :
      linked pal R g x y x1 y1 -> adjacent x1 y1 x2 y2 ->
      matching pal R g x2 y2 -> linked pal R g x y x2 y2.

(** What the scan for regions has established when it stands before the
    cell [next] of the scan order (column by column, each from the top):
    the grid has its shape, the region ids in use are those from 1 up to
    the current one, at most one per cell scanned, two neighbours of one
    range carry one id unless the first carries none, and every cell
    scanned has a region unless its modal index is 0. *)
Record scanned (pal : colour.Palette) (w h next : Z) (st : Segmentation)
  : Prop := mkScanned {
  scan_shape : shape w h (segGrid st);
  scan_ids : forall x y s, pixel (segGrid st) x y = Ok s ->
               0 <= Region s < currentRegion st;
  scan_count : 1 <= currentRegion st <= 1 + next;
  scan_same : forall x y x' y' s s',
      adjacent x y x' y' ->
      pixel (segGrid st) x y = Ok s -> pixel (segGrid st) x' y' = Ok s' ->
      rangeOf pal s = rangeOf pal s' -> Region s <> 0 ->
      Region s' = Region s;
  scan_done : forall x y s,
      x * h + y < next -> 0 <= y < h ->
      pixel (segGrid st) x y = Ok s -> ModalIndex s <> 0 -> Region s <> 0;
  scan_linked : forall x y x' y' s s',
      pixel (segGrid st) x y = Ok s -> pixel (segGrid st) x' y' = Ok s' ->
      Region s = Region s' -> Region s <> 0 ->
      linked pal (rangeOf pal s) (segGrid st) x y x' y'
}.

(** The columns before position [x] have been made, with [h] cells each,
    the others are nil still. *)
Definition columnsMade (w h x : Z) (o : ShaderOutput) : Prop :=
  length o = Z.to_nat w
  /\ forall i column, o !! i = Some column ->
       (Z.of_nat i < x -> length column = Z.to_nat h)
       /\ (x <= Z.of_nat i -> column = []).

(** *** The later stages

    What the proofs about the shading loops, the dithering passes and the
    statistics speak of, and some more scenes. *)

(** The branch of the ditherer that marks a pixel as animated: the pixel is
    not below the edge threshold and its range is one of animated lights
    and of neither company colour. *)
Definition animatedBranch (def : manifest.Definition_) (s : ShaderInfo)
  : bool :=
  let pal := manifest.Palette def in
  let rng := rangeOrEmpty pal (colour.Range (colour.Entries pal (ModalIndex s))) in
  negb (F64.lt (Alpha s) (manifest.EdgeThreshold (manifest.Manifest def)))
  && negb (colour.IsPrimaryCompanyColour rng)
  && negb (colour.IsSecondaryCompanyColour rng)
  && colour.IsAnimatedLight rng.

(** A pixel with the three fields blanked that the ditherer writes. *)
Definition undithered (s : ShaderInfo) : ShaderInfo :=
  with_IsAnimated (with_IsMaskColour (with_DitheredIndex s 0) false) false.

(** A pixel with the fields blanked that the stages after [shade] write:
    the region, the two colours that pass 2 stretches, and the three
    fields of the ditherer. *)
Definition shadedCore (s : ShaderInfo) : ShaderInfo :=
  with_Region
    (with_Colour (with_SpecialColour (undithered s) colour.zero) colour.zero) 0.

(** What the statistics of a region are at any time of pass 1: Size and
    SizeInRange are the same number; the indices counted are not 0 and of
    the range of the region; MinIndex and MaxIndex are the least and the
    greatest index counted, and 0 while none is; and no distance has been
    worked out yet. *)
Definition counted (pal : colour.Palette) (info : RegionInfo) : Prop :=
  Size info = SizeInRange info
  /\ Distance info = mkColourDistance 0 0
  /\ exists counts,
       ModalCount info = Some counts
       /\ (forall k n, counts !! k = Some n ->
             k <> 0
             /\ colour.Range (colour.Entries pal k) = Range info
             /\ MinIndex info <= k <= MaxIndex info)
       /\ ((counts = ∅ /\ MinIndex info = 0 /\ MaxIndex info = 0)
           \/ (is_Some (counts !! MinIndex info)
               /\ is_Some (counts !! MaxIndex info))).



(** The map of the regions goes with the grid: its keys are the region ids
    given out so far, and a pixel that carries a region finds the range of
    its modal index in the entry of the region. *)
Definition charted (pal : colour.Palette) (st : Segmentation) : Prop :=
  (forall r, is_Some (segRegions st !! r) <-> 1 <= r < currentRegion st)
  /\ forall x y s, pixel (segGrid st) x y = Ok s -> Region s <> 0 ->
       exists info, segRegions st !! Region s = Some info
                    /\ Range info = rangeOf pal s.

(** The first [n] cells of a grid of columns of [h] cells, in the order of
    the loops: column by column, each from the top. *)
Definition scannedCells (h : Z) (n : nat) : list (Z * Z) :=
  (fun i : nat => (Z.of_nat i / h, Z.of_nat i mod h)) <$> seq 0 n.

(** The pixel at the cell [c] is one that pass 1 counts for the region [r]
    of the range [R]: it carries the region, and its dithered index is not
    0 and of the range. *)
Definition inRangeAt (pal : colour.Palette) (g : ShaderOutput) (r : Z)
    (R : colour.RangePtr) (c : Z * Z) : bool :=
  match pixel g (fst c) (snd c) with
  | Ok s =>
      (Region s =? r) && negb (DitheredIndex s =? 0)
      && colour.ptr_eqb
           (colour.Range (colour.Entries pal (DitheredIndex s))) R
  | _ => false
  end.

(** The number of pixels among the first [n] that pass 1 counts for the
    region [r] of the range [R]. *)
Definition inRangeCount (pal : colour.Palette) (g : ShaderOutput) (h : Z)
    (n : nat) (r : Z) (R : colour.RangePtr) : Z :=
  Z.of_nat (length (List.filter (inRangeAt pal g r R) (scannedCells h n))).

(** What the first pair of loops has stored in the cell (x, y) of the
    grid [o]: the zero value when the cell, moved by the offsets, is
    outside the image, and otherwise what [shade] makes of the samples of
    the moved cell, with the modal index of the left neighbour in [o] for
    the previous index when [x] is above 1, and 0 otherwise. *)
Definition storedBy `{rules : sample.Rules}
    (visit : Z -> Z -> gmap Z float -> list (Z * float))
    (renderOutput : raycaster.RenderOutput) (spr : manifest.Sprite)
    (def : manifest.Definition_) (width height : Z) (o : ShaderOutput)
    (x y : Z) : Prop :=
  let rx := GoInt.add x (xoffset spr def) in
  let ry := GoInt.add y (yoffset spr def) in
  if (rx <? 0) || (width <=? rx) || (ry <? 0) || (height <=? ry)
  then pixel o x y = Ok zeroShaderInfo
  else exists column info prev,
         index renderOutput rx = Ok column
         /\ index column ry = Ok info
         /\ (if 1 <? x
             then exists p, pixel o (x - 1) y = Ok p /\ prev = ModalIndex p
             else prev = 0)
         /\ pixel o x y = Ok (shade (visit x y) info def prev).

Module scenes.

(** A palette whose range at address 1, of entry 3, is one of animated
    lights. *)
Definition rangesLight (a : nat) : colour.PaletteRange :=
  match a with
  | O => colour.mkPaletteRange 1 2 false false false
  | _ => colour.mkPaletteRange 3 3 false false true
  end.

Definition defLight : manifest.Definition_ :=
  manifest.mkDefinition
    (colour.mkPalette fixture.entries rangesLight fixture.regular [] []
       (fun _ => false) (fun i => negb (i =? 0)))
    (manifest.mkManifest 2 0.5 0.5 0 0 false) 1 false false.

(** Two columns of two pixels: the modal indices 1 and 2 of one range in
    the first column, 3 and 2 in the second. *)
Definition quad : ShaderOutput :=
  [[fixture.pixelWith 0 1; fixture.pixelWith 0 2];
   [fixture.pixelWith 0 3; fixture.pixelWith 0 2]].



End scenes.

(** * Properties *)

(** ** The result monad and slices *)

Lemma bind_Ok {A B : Type} (m : result A) (k : A -> result B) (b : B) :
  bind m k = Ok b <-> exists a, m = Ok a /\ k a = Ok b.
Proof.
  destruct m; simpl; split; try (intros [a [H _]]; discriminate H);
    try discriminate.
  - intros H; eauto.
  - intros [a' [[= ->] H]]; exact H.
Qed.

Lemma index_Ok {A : Type} (l : list A) (i : Z) (a : A) :
  index l i = Ok a <-> 0 <= i /\ l !! Z.to_nat i = Some a.
Proof.
  unfold index. destruct (Z.ltb_spec i 0).
  - split; [discriminate | lia].
  - destruct (l !! Z.to_nat i); split; try discriminate.
    + intros [= ->]; auto.
    + intros [_ [= ->]]; reflexivity.
    + intros [_ [=]].
Qed.

Lemma store_Ok {A : Type} (l l' : list A) (i : Z) (a : A) :
  store l i a = Ok l' <->
  0 <= i /\ (Z.to_nat i < length l)%nat /\ l' = <[Z.to_nat i := a]> l.
Proof.
  unfold store. destruct (Z.ltb_spec i 0).
  - split; [discriminate | lia].
  - destruct (l !! Z.to_nat i) eqn:E; split; try discriminate.
    + intros [= <-]. apply lookup_lt_Some in E. auto.
    + intros (_ & _ & ->); reflexivity.
    + intros (_ & Hlt & _). apply lookup_ge_None in E. lia.
Qed.

(** Inversion of a run that returned: every bind in [H] is split. *)
Ltac inv_bind H :=
  repeat match type of H with
         | bind _ _ = Ok _ =>
             let a := fresh "a" in
             let Ha := fresh "Ha" in
             apply bind_Ok in H; destruct H as (a & Ha & H)
         end.

(** ** Go integers *)

Lemma wrap64_id (z : Z) : GoInt.in_range z -> GoInt.wrap64 z = z.
Proof.
  unfold GoInt.in_range, GoInt.wrap64, GoInt.MinInt64, GoInt.MaxInt64.
  intros H. rewrite Z.mod_small; lia.
Qed.

Lemma wrap64_in_range (z : Z) : GoInt.in_range (GoInt.wrap64 z).
Proof.
  unfold GoInt.in_range, GoInt.wrap64, GoInt.MinInt64, GoInt.MaxInt64.
  pose proof (Z.mod_pos_bound (z + 2 ^ 63) (2 ^ 64)). lia.
Qed.

Lemma quot_small (a b : Z) :
  GoInt.in_range a -> 1 < b -> GoInt.quot a b = Z.quot a b.
Proof.
  intros Ha Hb. unfold GoInt.quot. apply wrap64_id.
  unfold GoInt.in_range, GoInt.MinInt64, GoInt.MaxInt64 in *.
  destruct (Z.le_gt_cases 0 a) as [Hp | Hn].
  - pose proof (Z.quot_pos a b Hp ltac:(lia)).
    pose proof (Z.quot_le_upper_bound a b a ltac:(lia)) as Hu.
    rewrite Z.quot_div_nonneg by lia.
    pose proof (Z.div_le_upper_bound a b a ltac:(lia) ltac:(nia)). 
    rewrite Z.quot_div_nonneg in H by lia. lia.
  - replace a with (- (- a)) by lia. rewrite Z.quot_opp_l by lia.
    rewrite Z.quot_div_nonneg by lia.
    pose proof (Z.div_pos (- a) b ltac:(lia) ltac:(lia)).
    pose proof (Z.div_le_upper_bound (- a) b (- a) ltac:(lia) ltac:(nia)).
    lia.
Qed.

Lemma rem4_step (a : Z) :
  GoInt.mul (GoInt.rem a 4) regionStep = Z.rem a 4 * 16383.
Proof.
  unfold GoInt.mul, GoInt.rem. change regionStep with 16383.
  apply wrap64_id.
  pose proof (Z.rem_bound_abs a 4 ltac:(lia)).
  unfold GoInt.in_range, GoInt.MinInt64, GoInt.MaxInt64. lia.
Qed.

(** ** GetRegion *)

(** C5, as the code has it: for every ShaderInfo whose Region is an [int],
    GetRegion returns R = (Region % 4) * 16383, G = ((Region/4) % 4) * 16383
    and B = ((Region/16) % 4) * 16383, the division and the remainder being
    Go's, which truncate toward zero, and 16383 being the integer quotient
    65535/4. *)
Theorem GetRegion_channels (s : ShaderInfo) :
  GoInt.in_range (Region s) ->
  GetRegion s =
    colour.mkRGB
      (F64.of_int (Z.rem (Region s) 4 * 16383))
      (F64.of_int (Z.rem (Z.quot (Region s) 4) 4 * 16383))
      (F64.of_int (Z.rem (Z.quot (Region s) 16) 4 * 16383)).
Proof.
  intros Hr. unfold GetRegion.
  rewrite !rem4_step, !quot_small by (assumption || lia).
  reflexivity.
Qed.

Lemma GetRegion_channels_witness :
  GetRegion (fixture.pixelWith 27 3) = colour.mkRGB 49149 32766 16383.
Proof.
  rewrite (GetRegion_channels (fixture.pixelWith 27 3)).
  - reflexivity.
  - unfold GoInt.in_range, GoInt.MinInt64, GoInt.MaxInt64; simpl; lia.
Defined.

(** C5, as the spec words it with the factor 16384, fails for region 1:
    the red channel is 16383. *)
Lemma GetRegion_not_16384 :
  GetRegion (fixture.pixelWith 1 3)
  <> colour.mkRGB (F64.of_int (1 mod 4 * 16384))
                  (F64.of_int ((1 / 4) mod 4 * 16384))
                  (F64.of_int ((1 / 16) mod 4 * 16384)).
Proof.
  intros H.
  apply (f_equal (fun c => Prim2SF (colour.R c))) in H.
  vm_compute in H. discriminate H.
Qed.

(** ** GetMaskIndex *)

(** C8: GetMaskIndex is ModalIndex when Specialness > 0.75 or IsAnimated,
    otherwise DitheredIndex when Specialness > 0.25 and IsMaskColour,
    otherwise 0; so it is one of 0, ModalIndex and DitheredIndex, and it is
    a function of the five fields it reads, the same at every call. *)
Theorem GetMaskIndex_law (s : ShaderInfo) :
  GetMaskIndex s =
    match F64.gt (Specialness s) 0.75 || IsAnimated s,
          F64.gt (Specialness s) 0.25 && IsMaskColour s with
    | true, _ => ModalIndex s
    | false, true => DitheredIndex s
    | false, false => 0
    end
  /\ (GetMaskIndex s = 0 \/ GetMaskIndex s = ModalIndex s
      \/ GetMaskIndex s = DitheredIndex s)
  /\ forall s' : ShaderInfo,
       Specialness s' = Specialness s -> IsAnimated s' = IsAnimated s ->
       IsMaskColour s' = IsMaskColour s -> ModalIndex s' = ModalIndex s ->
       DitheredIndex s' = DitheredIndex s ->
       GetMaskIndex s' = GetMaskIndex s.
Proof.
  unfold GetMaskIndex. split; [| split].
  - destruct (F64.gt (Specialness s) 0.75 || IsAnimated s),
             (F64.gt (Specialness s) 0.25 && IsMaskColour s); reflexivity.
  - destruct (F64.gt (Specialness s) 0.75 || IsAnimated s),
             (F64.gt (Specialness s) 0.25 && IsMaskColour s); auto.
  - intros s' -> -> -> -> ->. reflexivity.
Qed.

Lemma GetMaskIndex_law_witness :
  let s := with_IsAnimated (with_DitheredIndex (fixture.pixelWith 1 3) 2) true in
  GetMaskIndex s = 3
  /\ GetMaskIndex (with_Region s 9) = GetMaskIndex s.
Proof.
  intros s. destruct (GetMaskIndex_law s) as (H1 & _ & H3). split.
  - rewrite H1. reflexivity.
  - apply H3; reflexivity.
Defined.

(** ** The order of float64

    The comparisons of binary64 are read through the specification of the
    primitive floats: every value but NaN has a key, a triple of integers
    ordered lexicographically; a comparison with NaN is false. *)

Lemma SFcompare_key (x y : spec_float) :
  isnan x = false -> isnan y = false ->
  exists c, SFcompare x y = Some c
            /\ (c = Lt <-> lexlt (key x) (key y))
            /\ (c = Eq <-> key x = key y)
            /\ (c = Gt <-> lexlt (key y) (key x)).
Proof.
  intros Hx Hy.
  destruct x as [sx | sx | | sx mx ex], y as [sy | sy | | sy my ey];
    try discriminate; simpl;
    try (destruct sx); try (destruct sy); simpl;
    try (eexists; split; [reflexivity |];
         repeat split; intros; try discriminate; try lia; try congruence;
         match goal with H : _ = _ |- _ => inversion H; lia end).
  all: rewrite Pos.compare_cont_spec; simpl.
  all: destruct (Z.compare_spec ex ey), (Pos.compare_spec mx my); simpl;
    eexists; (split; [reflexivity |]);
    repeat split; intros; try discriminate; try lia; try congruence;
    try match goal with H : (_, _, _) = (_, _, _) |- _ => inversion H; lia end;
    try (f_equal; f_equal; lia).
Qed.

Lemma SFcompare_nan_l (y : spec_float) : SFcompare S754_nan y = None.
Proof. reflexivity. Qed.

Lemma SFcompare_nan_r (x : spec_float) : SFcompare x S754_nan = None.
Proof. destruct x; reflexivity. Qed.

Lemma SFcompare_None (x y : spec_float) :
  SFcompare x y = None <-> isnan x = true \/ isnan y = true.
Proof.
  split.
  - destruct (isnan x) eqn:Hx, (isnan y) eqn:Hy; auto.
    destruct (SFcompare_key x y Hx Hy) as (c & -> & _). discriminate.
  - intros [H | H]; [destruct x | destruct y]; try discriminate.
    + apply SFcompare_nan_l.
    + apply SFcompare_nan_r.
Qed.

(** The three comparisons, through the keys. *)
Lemma lt_key (a b : float) :
  F64.lt a b = true <->
  isnan (Prim2SF a) = false /\ isnan (Prim2SF b) = false
  /\ lexlt (key (Prim2SF a)) (key (Prim2SF b)).
Proof.
  unfold F64.lt. rewrite FloatAxioms.ltb_spec. unfold SFltb.
  destruct (isnan (Prim2SF a)) eqn:Ha.
  { destruct (Prim2SF a); try discriminate. simpl. split; [discriminate |].
    intros (H & _); discriminate. }
  destruct (isnan (Prim2SF b)) eqn:Hb.
  { destruct (Prim2SF b); try discriminate. rewrite SFcompare_nan_r.
    split; [discriminate |]. intros (_ & H & _); discriminate. }
  destruct (SFcompare_key _ _ Ha Hb) as (c & -> & HL & HE & HG).
  destruct c; split; intros H; try discriminate; auto.
  - destruct H as (_ & _ & H). apply HL in H. discriminate.
  - split; [reflexivity | split; [reflexivity |]]. apply HL; reflexivity.
  - destruct H as (_ & _ & H). apply HL in H. discriminate.
Qed.

Lemma le_key (a b : float) :
  F64.le a b = true <->
  isnan (Prim2SF a) = false /\ isnan (Prim2SF b) = false
  /\ (lexlt (key (Prim2SF a)) (key (Prim2SF b))
      \/ key (Prim2SF a) = key (Prim2SF b)).
Proof.
  unfold F64.le. rewrite FloatAxioms.leb_spec. unfold SFleb.
  destruct (isnan (Prim2SF a)) eqn:Ha.
  { destruct (Prim2SF a); try discriminate. simpl. split; [discriminate |].
    intros (H & _); discriminate. }
  destruct (isnan (Prim2SF b)) eqn:Hb.
  { destruct (Prim2SF b); try discriminate. rewrite SFcompare_nan_r.
    split; [discriminate |]. intros (_ & H & _); discriminate. }
  destruct (SFcompare_key _ _ Ha Hb) as (c & -> & HL & HE & HG).
  destruct c; split; intros H; try discriminate; auto.
  - split; [reflexivity | split; [reflexivity |]]. right. apply HE; reflexivity.
  - split; [reflexivity | split; [reflexivity |]]. left. apply HL; reflexivity.
  - destruct H as (_ & _ & [H | H]).
    + apply HL in H. discriminate.
    + apply HE in H. discriminate.
Qed.

Lemma eq_key (a b : float) :
  F64.eq a b = true <->
  isnan (Prim2SF a) = false /\ isnan (Prim2SF b) = false
  /\ key (Prim2SF a) = key (Prim2SF b).
Proof.
  unfold F64.eq. rewrite FloatAxioms.eqb_spec. unfold SFeqb.
  destruct (isnan (Prim2SF a)) eqn:Ha.
  { destruct (Prim2SF a); try discriminate. simpl. split; [discriminate |].
    intros (H & _); discriminate. }
  destruct (isnan (Prim2SF b)) eqn:Hb.
  { destruct (Prim2SF b); try discriminate. rewrite SFcompare_nan_r.
    split; [discriminate |]. intros (_ & H & _); discriminate. }
  destruct (SFcompare_key _ _ Ha Hb) as (c & -> & HL & HE & HG).
  destruct c; split; intros H; try discriminate; auto.
  - split; [reflexivity | split; [reflexivity |]]. apply HE; reflexivity.
  - destruct H as (_ & _ & H). apply HE in H. discriminate.
  - destruct H as (_ & _ & H). apply HE in H. discriminate.
Qed.

Lemma lexlt_trans (k1 k2 k3 : Z * Z * Z) :
  lexlt k1 k2 -> lexlt k2 k3 -> lexlt k1 k3.
Proof.
  destruct k1 as [[a1 b1] c1], k2 as [[a2 b2] c2], k3 as [[a3 b3] c3].
  unfold lexlt. lia.
Qed.

Lemma lexlt_irrefl (k : Z * Z * Z) : ~ lexlt k k.
Proof. destruct k as [[a b] c]. unfold lexlt. lia. Qed.

Lemma lt_trans (a b c : float) :
  F64.lt a b = true -> F64.lt b c = true -> F64.lt a c = true.
Proof.
  rewrite !lt_key. intros (Ha & Hb & H1) (_ & Hc & H2).
  eauto using lexlt_trans.
Qed.

Lemma le_lt_trans (a b c : float) :
  F64.le a b = true -> F64.lt b c = true -> F64.lt a c = true.
Proof.
  rewrite le_key, !lt_key. intros (Ha & Hb & [H1 | H1]) (_ & Hc & H2).
  - eauto using lexlt_trans.
  - rewrite H1. auto.
Qed.

Lemma lt_irrefl (a : float) : F64.lt a a = false.
Proof.
  destruct (F64.lt a a) eqn:E; [| reflexivity].
  apply lt_key in E. destruct E as (_ & _ & E).
  destruct (lexlt_irrefl _ E).
Qed.

Lemma lt_not_ge (a b : float) : F64.lt a b = true -> F64.ge a b = false.
Proof.
  intros H. unfold F64.ge. change (F64.le b a = false).
  destruct (F64.le b a) eqn:E; [| reflexivity].
  pose proof (le_lt_trans _ _ _ E H) as C. rewrite lt_irrefl in C.
  discriminate C.
Qed.

(** ** ditherOutput *)

Lemma addAt_Ok (rows rows' : list colour.RGB) (i : Z) (e : colour.RGB) :
  addAt rows i e = Ok rows' <->
  0 <= i /\ exists old, rows !! Z.to_nat i = Some old
                        /\ rows' = <[Z.to_nat i := colour.Add old e]> rows.
Proof.
  unfold addAt. rewrite bind_Ok. split.
  - intros (old & H1 & H2). apply index_Ok in H1 as [Hi H1].
    apply store_Ok in H2 as (_ & _ & ->). eauto.
  - intros (Hi & old & H1 & ->). exists old. split.
    + apply index_Ok; auto.
    + apply store_Ok. split; [assumption | split; [| reflexivity]].
      eapply lookup_lt_Some; eassumption.
Qed.

(** The rows after the five updates of [diffuse]. *)
Lemma diffuse_Ok (errCurr errNext rc rn : list colour.RGB) (y : Z)
    (e : colour.RGB) :
  diffuse errCurr errNext y e = Ok (rc, rn) ->
  let n := Z.to_nat y in
  0 <= y
  /\ exists n0 n1 n2 c2,
       errNext !! n = Some n0 /\ errNext !! S n = Some n1
       /\ errNext !! S (S n) = Some n2 /\ errCurr !! S (S n) = Some c2
       /\ rn = <[S (S n) := colour.Add n2 (colour.MultiplyBy e (1 / 16))]>
                 (<[S n := colour.Add n1 (colour.MultiplyBy e (5 / 16))]>
                    (<[n := colour.Add n0 (colour.MultiplyBy e (3 / 16))]>
                       errNext))
       /\ rc = <[S n := colour.zero]>
                 (<[S (S n) := colour.Add c2 (colour.MultiplyBy e (7 / 16))]>
                    errCurr).
Proof.
  unfold diffuse. intros H. set (n := Z.to_nat y). inv_bind H.
  injection H as <- <-.
  apply addAt_Ok in Ha as (Hy0 & n0 & Hn0 & ->).
  apply addAt_Ok in Ha0 as (_ & n1 & Hn1 & ->).
  apply addAt_Ok in Ha1 as (_ & n2 & Hn2 & ->).
  apply addAt_Ok in Ha2 as (_ & c2 & Hc2 & ->).
  apply store_Ok in Ha3 as (_ & _ & ->).
  replace (Z.to_nat (y + 0)) with n in * by lia.
  replace (Z.to_nat (y + 1)) with (S n) in * by lia.
  replace (Z.to_nat (y + 2)) with (S (S n)) in * by lia.
  rewrite list_lookup_insert_ne in Hn1 by lia.
  rewrite !list_lookup_insert_ne in Hn2 by lia.
  split; [lia |]. exists n0, n1, n2, c2. auto 10.
Qed.

Lemma diffuse_returns (errCurr errNext : list colour.RGB) (y : Z)
    (e : colour.RGB) :
  0 <= y -> (Z.to_nat y + 2 < length errCurr)%nat ->
  (Z.to_nat y + 2 < length errNext)%nat ->
  exists rows, diffuse errCurr errNext y e = Ok rows.
Proof.
  intros Hy Hc Hn. unfold diffuse.
  assert (Hadd : forall rows i v, 0 <= i -> (Z.to_nat i < length rows)%nat ->
            exists rows', addAt rows i v = Ok rows'
                          /\ length rows' = length rows).
  { intros rows i v Hi Hlt.
    destruct (lookup_lt_is_Some_2 rows _ Hlt) as [old Hold].
    eexists. split.
    - apply addAt_Ok. eauto.
    - apply length_insert. }
  destruct (Hadd errNext (y + 0) (colour.MultiplyBy e (3 / 16)))
    as (r1 & -> & L1); [lia | lia |]. cbn [bind].
  destruct (Hadd r1 (y + 1) (colour.MultiplyBy e (5 / 16)))
    as (r2 & -> & L2); [lia | lia |]. cbn [bind].
  destruct (Hadd r2 (y + 2) (colour.MultiplyBy e (1 / 16)))
    as (r3 & -> & L3); [lia | lia |]. cbn [bind].
  destruct (Hadd errCurr (y + 2) (colour.MultiplyBy e (7 / 16)))
    as (r4 & -> & L4); [lia | lia |]. cbn [bind].
  destruct (store r4 (y + 1) colour.zero) eqn:E; cbn [bind]; eauto.
  - unfold store in E. destruct (Z.ltb_spec (y + 1) 0); [lia |].
    destruct (lookup_lt_is_Some_2 r4 (Z.to_nat (y + 1)) ltac:(lia)) as [v Hv].
    rewrite Hv in E. discriminate.
  - unfold store in E. destruct (Z.ltb_spec (y + 1) 0); [lia |].
    destruct (r4 !! Z.to_nat (y + 1)); discriminate.
Qed.

Lemma choose_pixel (def : manifest.Definition_) (output : ShaderOutput)
    (x y : Z) (error : colour.RGB) (errCurr pcc scc reg : list colour.RGB)
    (s s' : ShaderInfo) (tgt : colour.RGB) (best : Z) :
  choose def output x y error errCurr pcc scc reg s = Ok (tgt, best, s') ->
  s' = s \/ s' = with_IsAnimated s true.
Proof.
  unfold choose. intros H.
  repeat match type of H with
         | (if ?c then _ else _) = _ => destruct c
         end;
    inv_bind H; injection H as <- <- <-; auto.
Qed.

Lemma choose_transparent (def : manifest.Definition_) (output : ShaderOutput)
    (x y : Z) (error : colour.RGB) (errCurr pcc scc reg : list colour.RGB)
    (s : ShaderInfo) :
  F64.lt (Alpha s) (manifest.EdgeThreshold (manifest.Manifest def)) = true ->
  choose def output x y error errCurr pcc scc reg s = Ok (error, 0, s).
Proof. unfold choose. intros ->. reflexivity. Qed.

(** A pixel below the edge threshold hands on the zero error, and the four
    shares of the zero error are zero. *)
Lemma zero_shares :
  colour.MultiplyBy colour.zero (3 / 16) = colour.zero
  /\ colour.MultiplyBy colour.zero (5 / 16) = colour.zero
  /\ colour.MultiplyBy colour.zero (1 / 16) = colour.zero
  /\ colour.MultiplyBy colour.zero (7 / 16) = colour.zero.
Proof. repeat split; reflexivity. Qed.

(** C7: a call of the ditherer at (x, y) that returns has diffused the
    quantisation error e, the clamped difference of the target and the
    palette colour of the chosen index when Alpha >= EdgeThreshold and the
    zero RGB otherwise, as errNext[y] += 3/16 e, errNext[y+1] += 5/16 e,
    errNext[y+2] += 1/16 e, errCurr[y+2] += 7/16 e, has then set errCurr[y+1]
    to the zero RGB and has left every other cell of the two rows alone; a
    pixel with Alpha < EdgeThreshold gets index 0 and its error is the zero
    RGB. *)
Theorem ditherOutput_diffusion (def : manifest.Definition_)
    (output : ShaderOutput) (x y : Z) (error : colour.RGB)
    (errCurr pcc scc reg errNext : list colour.RGB) (d : Dithered) :
  ditherOutput def output x y error errCurr pcc scc reg errNext = Ok d ->
  exists (px px' : ShaderInfo) (tgt : colour.RGB),
    pixel output x y = Ok px
    /\ choose def output x y error errCurr pcc scc reg px
       = Ok (tgt, bestIndex d, px')
    /\ 0 <= y
    /\ let threshold := manifest.EdgeThreshold (manifest.Manifest def) in
       let e :=
         if F64.ge (Alpha px) threshold
         then colour.ClampRGB
                (colour.Subtract tgt
                   (colour.GetRGB
                      (colour.Entries (manifest.Palette def) (bestIndex d))))
         else colour.zero in
       let n := Z.to_nat y in
       (exists old, errNext !! n = Some old
          /\ rowNext d !! n
             = Some (colour.Add old (colour.MultiplyBy e (3 / 16))))
       /\ (exists old, errNext !! S n = Some old
          /\ rowNext d !! S n
             = Some (colour.Add old (colour.MultiplyBy e (5 / 16))))
       /\ (exists old, errNext !! S (S n) = Some old
          /\ rowNext d !! S (S n)
             = Some (colour.Add old (colour.MultiplyBy e (1 / 16))))
       /\ (exists old, errCurr !! S (S n) = Some old
          /\ rowCurr d !! S (S n)
             = Some (colour.Add old (colour.MultiplyBy e (7 / 16))))
       /\ rowCurr d !! S n = Some colour.zero
       /\ (forall i, i <> n -> i <> S n -> i <> S (S n) ->
             rowNext d !! i = errNext !! i)
       /\ (forall i, i <> S n -> i <> S (S n) -> rowCurr d !! i = errCurr !! i)
       /\ (F64.lt (Alpha px) threshold = true ->
           bestIndex d = 0 /\ e = colour.zero).
Proof.
  unfold ditherOutput. intros H. inv_bind H.
  destruct a0 as [[tgt best] px']. inv_bind H.
  destruct a1 as [rc rn]. injection H as <-. cbn [bestIndex rowNext rowCurr].
  exists a, px', tgt. split; [assumption |]. split; [assumption |].
  pose proof (choose_pixel _ _ _ _ _ _ _ _ _ _ _ _ _ Ha0) as Hpx.
  unfold quantisationError in Ha2.
  match type of Ha2 with
  | diffuse _ _ _ (if F64.ge (Alpha ?s) _ then _ else _) = _ =>
      replace (Alpha s) with (Alpha a) in Ha2
        by (destruct Hpx as [-> | ->];
            destruct (colour.IsSpecialColour (manifest.Palette def) best);
            reflexivity)
  end.
  apply diffuse_Ok in Ha2 as (Hy & n0 & n1 & n2 & c2 & E0 & E1 & E2 & E3 & -> & ->).
  split; [assumption |]. cbv zeta.
  pose proof (lookup_lt_Some _ _ _ E0) as L0.
  pose proof (lookup_lt_Some _ _ _ E1) as L1.
  pose proof (lookup_lt_Some _ _ _ E2) as L2.
  pose proof (lookup_lt_Some _ _ _ E3) as L3.
  repeat split.
  - exists n0. split; [assumption |].
    rewrite !list_lookup_insert_ne by lia.
    apply list_lookup_insert_eq. assumption.
  - exists n1. split; [assumption |].
    rewrite list_lookup_insert_ne by lia.
    apply list_lookup_insert_eq. rewrite length_insert. assumption.
  - exists n2. split; [assumption |].
    apply list_lookup_insert_eq. rewrite !length_insert. assumption.
  - exists c2. split; [assumption |].
    rewrite list_lookup_insert_ne by lia.
    apply list_lookup_insert_eq. assumption.
  - apply list_lookup_insert_eq. rewrite length_insert. lia.
  - intros i N0 N1 N2. rewrite !list_lookup_insert_ne by lia. reflexivity.
  - intros i N1 N2. rewrite !list_lookup_insert_ne by lia. reflexivity.
  - rewrite (choose_transparent _ _ _ _ _ _ _ _ _ _ H) in Ha0.
    injection Ha0 as _ <- _. reflexivity.
  - rewrite (lt_not_ge _ _ H). reflexivity.
Qed.

Lemma ditherOutput_diffusion_witness :
  let out := [[with_Colour (fixture.pixelWith 1 2) (fixture.grey 40000)]] in
  let rows := replicate 3 colour.zero in
  exists d,
    ditherOutput (fixture.def 0.5) out 0 0 colour.zero rows [] []
                 fixture.regular rows = Ok d
    /\ bestIndex d = 2
    /\ rowNext d !! 1%nat = Some (fixture.grey 2260)
    /\ rowCurr d !! 1%nat = Some colour.zero.
Proof.
  intros out rows.
  destruct (ditherOutput (fixture.def 0.5) out 0 0 colour.zero rows [] []
                         fixture.regular rows) as [d | |] eqn:E;
    [| vm_compute in E; discriminate E ..].
  exists d.
  destruct (ditherOutput_diffusion _ _ _ _ _ _ _ _ _ _ _ E)
    as (px & px' & tgt & Hpx & Hch & _ & _ & _ & _ & _ & Hz & _).
  split; [| split; [| split; [| exact Hz]]];
    vm_compute in E; injection E as <-; reflexivity.
Defined.

(** The ditherer returns whenever the pixel, the pixel above it and the
    three cells of the two rows exist. *)
Lemma ditherOutput_returns (def : manifest.Definition_)
    (output : ShaderOutput) (x y : Z) (error : colour.RGB)
    (errCurr pcc scc reg errNext : list colour.RGB) (px : ShaderInfo) :
  pixel output x y = Ok px ->
  (0 < y -> exists above, pixel output x (y - 1) = Ok above) ->
  (Z.to_nat y + 2 < length errCurr)%nat ->
  (Z.to_nat y + 2 < length errNext)%nat ->
  exists d, ditherOutput def output x y error errCurr pcc scc reg errNext = Ok d.
Proof.
  intros Hpx Habove Hc Hn.
  assert (Hy : 0 <= y).
  { unfold pixel in Hpx. inv_bind Hpx. apply index_Ok in Hpx. lia. }
  assert (Htarget : forall c, exists t,
            target (manifest.Palette def) output x y c errCurr = Ok t).
  { intros c. unfold target.
    assert (He : exists e, index errCurr (y + 1) = Ok e).
    { destruct (lookup_lt_is_Some_2 errCurr (Z.to_nat (y + 1)) ltac:(lia))
        as [e He]. exists e. apply index_Ok. split; [lia | assumption]. }
    destruct He as [e He].
    destruct (Z.ltb_spec 0 y) as [Hpos | Hzero].
    - destruct (Habove Hpos) as [a ->]. cbn [bind].
      destruct (colour.IsSpecialColour _ _); [eauto |].
      rewrite He. cbn [bind]. eauto.
    - cbn [bind]. rewrite He. cbn [bind]. eauto. }
  assert (Hchoose : exists r,
            choose def output x y error errCurr pcc scc reg px = Ok r).
  { unfold choose.
    destruct (F64.lt _ _); [eauto |].
    destruct (colour.IsPrimaryCompanyColour _).
    { destruct (Htarget (SpecialColour px)) as [t ->]. cbn [bind]. eauto. }
    destruct (colour.IsSecondaryCompanyColour _).
    { destruct (Htarget (SpecialColour px)) as [t ->]. cbn [bind]. eauto. }
    destruct (colour.IsAnimatedLight _); [eauto |].
    destruct (Htarget (Colour px)) as [t ->]. cbn [bind]. eauto. }
  destruct Hchoose as [[[tgt best] px'] Hch].
  unfold ditherOutput. rewrite Hpx. cbn [bind]. rewrite Hch. cbn [bind].
  match goal with
  | |- context [setPixel output x y ?s] =>
      assert (Hset : exists o, setPixel output x y s = Ok o)
  end.
  { unfold setPixel. unfold pixel in Hpx. inv_bind Hpx. rewrite Ha.
    cbn [bind]. apply index_Ok in Hpx as [_ Hpx]. apply index_Ok in Ha as Ha'.
    destruct Ha' as [Hx Ha'].
    unfold store. destruct (Z.ltb_spec y 0); [lia |]. rewrite Hpx.
    cbn [bind]. destruct (Z.ltb_spec x 0); [lia |]. rewrite Ha'. eauto. }
  destruct Hset as [o ->]. cbn [bind].
  match goal with
  | |- context [diffuse errCurr errNext y ?e] =>
      destruct (diffuse_returns errCurr errNext y e Hy Hc Hn) as [[rc rn] ->]
  end.
  cbn [bind]. eauto.
Qed.

(** ** floodFill: termination *)

Lemma sum_list_insert (l : list nat) (i a b : nat) :
  l !! i = Some a -> (sum_list (<[i := b]> l) + a = sum_list l + b)%nat.
Proof.
  revert i. induction l as [| c l IH]; intros [| i] H; simpl in *;
    try discriminate.
  - injection H as ->. lia.
  - specialize (IH i H). lia.
Qed.

Lemma pixel_Ok (output : ShaderOutput) (x y : Z) (s : ShaderInfo) :
  pixel output x y = Ok s <->
  0 <= x /\ 0 <= y
  /\ exists column, output !! Z.to_nat x = Some column
                    /\ column !! Z.to_nat y = Some s.
Proof.
  unfold pixel. rewrite bind_Ok. split.
  - intros (column & H1 & H2). apply index_Ok in H1 as [? ?].
    apply index_Ok in H2 as [? ?]. eauto 6.
  - intros (Hx & Hy & column & H1 & H2). exists column.
    rewrite !index_Ok. auto.
Qed.

Lemma setPixel_Ok (output output' : ShaderOutput) (x y : Z) (s : ShaderInfo) :
  setPixel output x y s = Ok output' <->
  0 <= x /\ 0 <= y
  /\ exists column old,
       output !! Z.to_nat x = Some column /\ column !! Z.to_nat y = Some old
       /\ output' = <[Z.to_nat x := <[Z.to_nat y := s]> column]> output.
Proof.
  unfold setPixel. rewrite bind_Ok. split.
  - intros (column & H1 & H2). apply bind_Ok in H2 as (column' & H2 & H3).
    apply index_Ok in H1 as [Hx H1].
    apply store_Ok in H2 as (Hy & Hlt & ->).
    apply store_Ok in H3 as (_ & _ & ->).
    destruct (lookup_lt_is_Some_2 _ _ Hlt) as [old Hold]. eauto 10.
  - intros (Hx & Hy & column & old & H1 & H2 & ->). exists column. split.
    + apply index_Ok; auto.
    + apply bind_Ok. eexists. split.
      * apply store_Ok. split; [assumption |]. split; [| reflexivity].
        eapply lookup_lt_Some; eassumption.
      * apply store_Ok. split; [assumption |]. split; [| reflexivity].
        eapply lookup_lt_Some; eassumption.
Qed.

Lemma pixel_fuel (output : ShaderOutput) (x y : Z) :
  pixel output x y <> OutOfFuel.
Proof.
  unfold pixel, index. destruct (x <? 0); [discriminate |].
  destruct (output !! Z.to_nat x) as [c |]; [| discriminate]. cbn [bind].
  destruct (y <? 0); [discriminate |].
  destruct (c !! Z.to_nat y); discriminate.
Qed.

(** Giving a cell the region id takes one from the pending cells. *)
Lemma pendingIn_insert (region : Z) (column : list ShaderInfo) (j : nat)
    (s : ShaderInfo) :
  column !! j = Some s -> Region s <> region ->
  S (pendingIn region (<[j := with_Region s region]> column))
  = pendingIn region column.
Proof.
  intros Hj Hne. unfold pendingIn. rewrite list_fmap_insert.
  cbn beta. cbn [Region with_Region]. rewrite Z.eqb_refl.
  pose proof (sum_list_insert
                ((fun s => if Region s =? region then 0%nat else 1%nat) <$> column)
                j (if Region s =? region then 0%nat else 1%nat) 0%nat)
    as Hinner.
  rewrite list_lookup_fmap, Hj in Hinner. specialize (Hinner eq_refl).
  destruct (Z.eqb_spec (Region s) region); [contradiction |]. lia.
Qed.

Lemma pending_setPixel (region : Z) (output output' : ShaderOutput) (x y : Z)
    (s : ShaderInfo) :
  pixel output x y = Ok s -> Region s <> region ->
  setPixel output x y (with_Region s region) = Ok output' ->
  S (pending region output') = pending region output.
Proof.
  intros Hp Hne Hs.
  apply pixel_Ok in Hp as (_ & _ & column & Hc & Hy).
  apply setPixel_Ok in Hs as (_ & _ & column' & old & Hc' & Hy' & ->).
  rewrite Hc in Hc'. injection Hc' as <-.
  unfold pending. rewrite list_fmap_insert.
  pose proof (sum_list_insert (pendingIn region <$> output) (Z.to_nat x)
                (pendingIn region column)
                (pendingIn region (<[Z.to_nat y := with_Region s region]> column)))
    as Houter.
  rewrite list_lookup_fmap, Hc in Houter. specialize (Houter eq_refl).
  rewrite <- (pendingIn_insert region column (Z.to_nat y) s Hy Hne) in Houter.
  revert Houter.
  generalize (pendingIn region (<[Z.to_nat y := with_Region s region]> column)).
  intros p. generalize (sum_list (pendingIn region <$> output)).
  generalize (sum_list (<[Z.to_nat x := p]> (pendingIn region <$> output))).
  intros; lia.
Qed.

Lemma pendingIn_le (region : Z) (column : list ShaderInfo) :
  (pendingIn region column <= length column)%nat.
Proof.
  unfold pendingIn. induction column as [| s column IH]; csimpl; [lia |].
  destruct (Region s =? region); lia.
Qed.

Lemma pending_le_cells (region : Z) (output : ShaderOutput) :
  (pending region output <= cells output)%nat.
Proof.
  unfold pending, cells. induction output as [| c output IH]; csimpl; [lia |].
  pose proof (pendingIn_le region c). lia.
Qed.

Lemma floodFill_spent (depth : nat) :
  forall (output : ShaderOutput) (region x y width height : Z)
         (palette : colour.Palette) (paletteRange : colour.RangePtr),
    (pending region output < depth)%nat ->
    spent region (pending region output) fst
          (floodFill depth output region x y width height palette paletteRange).
Proof.
  induction depth as [| depth IH]; intros output region x y width height
    palette paletteRange Hlt; [lia |].
  cbn [floodFill].
  destruct (pixel output x y) as [s | |] eqn:Hp; cbn [bind spent]; auto;
    [| exact (pixel_fuel _ _ _ Hp)].
  destruct (negb _ || (Region s =? region)) eqn:Hc; cbn [spent fst]; [lia |].
  apply orb_false_iff in Hc as [_ Hr]. apply Z.eqb_neq in Hr.
  destruct (setPixel output x y (with_Region s region)) as [o1 | |] eqn:Hs;
    cbn [bind spent]; auto.
  2:{ unfold setPixel in Hs. unfold pixel in Hp.
      destruct (index output x) as [c | |]; cbn [bind] in *; try discriminate.
      unfold store in Hs. unfold index in Hp.
      destruct (y <? 0); try discriminate.
      destruct (c !! Z.to_nat y); try discriminate. cbn [bind] in Hs.
      destruct (x <? 0); try discriminate.
      destruct (output !! Z.to_nat x); discriminate. }
  pose proof (pending_setPixel _ _ _ _ _ _ Hp Hr Hs) as Hdec.
  assert (Hwhen : forall cond x' y' o,
            (pending region o < depth)%nat ->
            spent region (pending region o) id
              (when cond (fun o => floodFill depth o region x' y' width height
                                             palette paletteRange) o)).
  { intros cond x' y' o Ho. unfold when. destruct cond; cbn [spent id]; [| lia].
    specialize (IH o region x' y' width height palette paletteRange Ho).
    destruct (floodFill depth o region x' y' width height palette paletteRange)
      as [[o' b] | |]; cbn [bind spent fst id] in *; auto. }
  pose proof (Hwhen (0 <? x) (GoInt.sub x 1) y o1 ltac:(lia)) as H1.
  destruct (when (0 <? x) _ o1) as [o2 | |]; cbn [bind spent id] in *; auto.
  pose proof (Hwhen (0 <? y) x (GoInt.sub y 1) o2 ltac:(lia)) as H2.
  destruct (when (0 <? y) _ o2) as [o3 | |]; cbn [bind spent id] in *; auto.
  pose proof (Hwhen (x <? GoInt.sub width 1) (GoInt.add x 1) y o3 ltac:(lia))
    as H3.
  destruct (when (x <? GoInt.sub width 1) _ o3) as [o4 | |];
    cbn [bind spent id] in *; auto.
  pose proof (Hwhen (y <? GoInt.sub height 1) x (GoInt.add y 1) o4 ltac:(lia))
    as H4.
  destruct (when (y <? GoInt.sub height 1) _ o4) as [o5 | |];
    cbn [bind spent id fst] in *; auto.
  lia.
Qed.

Lemma floodFill_unfold (depth : nat) (output : ShaderOutput)
    (region x y width height : Z) (palette : colour.Palette)
    (paletteRange : colour.RangePtr) :
  floodFill (S depth) output region x y width height palette paletteRange =
  let self x' y' o :=
    floodFill depth o region x' y' width height palette paletteRange in
  let* s := pixel output x y in
  if negb (colour.ptr_eqb (colour.Range (colour.Entries palette (ModalIndex s)))
                          paletteRange)
     || (Region s =? region)
  then Ok (output, false)
  else
    let* output := setPixel output x y (with_Region s region) in
    let* output := when (0 <? x) (self (GoInt.sub x 1) y) output in
    let* output := when (0 <? y) (self x (GoInt.sub y 1)) output in
    let* output := when (x <? GoInt.sub width 1) (self (GoInt.add x 1) y) output in
    let* output := when (y <? GoInt.sub height 1) (self x (GoInt.add y 1)) output in
    Ok (output, true).
Proof. reflexivity. Qed.

Lemma bind_fuel {A B : Type} (m : result A) (k : A -> result B) :
  bind m k <> OutOfFuel -> m <> OutOfFuel.
Proof. destruct m; cbn [bind]; congruence. Qed.

Lemma when_more (cond : bool)
    (call1 call2 : ShaderOutput -> result (ShaderOutput * bool))
    (o : ShaderOutput) :
  (forall o', call1 o' <> OutOfFuel -> call2 o' = call1 o') ->
  when cond call1 o <> OutOfFuel -> when cond call2 o = when cond call1 o.
Proof.
  intros Hcall H. unfold when in *. destruct cond; [| reflexivity].
  rewrite Hcall; [reflexivity |]. exact (bind_fuel _ _ H).
Qed.

(** A call that returned or panicked within a depth does the same within
    any greater depth. *)
Lemma floodFill_deeper (depth : nat) :
  forall (output : ShaderOutput) (region x y width height : Z)
         (palette : colour.Palette) (paletteRange : colour.RangePtr),
    floodFill depth output region x y width height palette paletteRange
    <> OutOfFuel ->
    floodFill (S depth) output region x y width height palette paletteRange
    = floodFill depth output region x y width height palette paletteRange.
Proof.
  induction depth as [| depth IH]; intros output region x y width height
    palette paletteRange H; [contradiction H; reflexivity |].
  rewrite (floodFill_unfold (S depth)). rewrite (floodFill_unfold depth) in *.
  cbv zeta in *.
  destruct (pixel output x y) as [s | |]; cbn [bind] in *; try reflexivity.
  destruct (negb _ || _); [reflexivity |].
  destruct (setPixel output x y (with_Region s region)) as [o1 | |];
    cbn [bind] in *; try reflexivity.
  rewrite (when_more (0 <? x) _ _ o1 (fun o' => IH o' _ _ _ _ _ _ _)
             (bind_fuel _ _ H)).
  destruct (when (0 <? x) _ o1) as [o2 | |]; cbn [bind] in *; try reflexivity.
  rewrite (when_more (0 <? y) _ _ o2 (fun o' => IH o' _ _ _ _ _ _ _)
             (bind_fuel _ _ H)).
  destruct (when (0 <? y) _ o2) as [o3 | |]; cbn [bind] in *; try reflexivity.
  rewrite (when_more (x <? GoInt.sub width 1) _ _ o3
             (fun o' => IH o' _ _ _ _ _ _ _) (bind_fuel _ _ H)).
  destruct (when (x <? GoInt.sub width 1) _ o3) as [o4 | |]; cbn [bind] in *;
    try reflexivity.
  rewrite (when_more (y <? GoInt.sub height 1) _ _ o4
             (fun o' => IH o' _ _ _ _ _ _ _) (bind_fuel _ _ H)).
  reflexivity.
Qed.

Lemma floodFill_any_deeper (k depth : nat) (output : ShaderOutput)
    (region x y width height : Z) (palette : colour.Palette)
    (paletteRange : colour.RangePtr) :
  floodFill depth output region x y width height palette paletteRange
  <> OutOfFuel ->
  floodFill (k + depth) output region x y width height palette paletteRange
  = floodFill depth output region x y width height palette paletteRange.
Proof.
  intros H. induction k as [| k IH]; [reflexivity |].
  cbn [Nat.add]. rewrite floodFill_deeper; [exact IH |].
  rewrite IH. exact H.
Qed.

(** C9: the recursive flood fill terminates on every grid, for every seed,
    region id, palette and range: its call stack never grows deeper than one
    more than the number of cells of the grid, and from that depth on the
    call has one outcome, a return or a panic, whatever room it is given. *)
Theorem floodFill_terminates (output : ShaderOutput)
    (region x y width height : Z) (palette : colour.Palette)
    (paletteRange : colour.RangePtr) :
  exists outcome : result (ShaderOutput * bool),
    outcome <> OutOfFuel
    /\ forall extra : nat,
         floodFill (extra + S (cells output)) output region x y width height
                   palette paletteRange = outcome.
Proof.
  exists (floodFill (S (cells output)) output region x y width height palette
                    paletteRange).
  assert (H : floodFill (S (cells output)) output region x y width height
                        palette paletteRange <> OutOfFuel).
  { pose proof (floodFill_spent (S (cells output)) output region x y width
                  height palette paletteRange) as Hs.
    pose proof (pending_le_cells region output).
    intros E. rewrite E in Hs. apply Hs. lia. }
  split; [exact H |].
  intros extra. apply floodFill_any_deeper. exact H.
Qed.

(** ** shade *)

Lemma voteStep_voted (seen : list (Z * float)) (st : Vote) (kv : Z * float) :
  voted seen st -> voted (seen ++ [kv]) (voteStep st kv).
Proof.
  intros [Hmax Hmodal]. destruct kv as [k v]. unfold voteStep.
  destruct (F64.gt v (max st)) eqn:Hgt; split; cbn [max modal].
  - intros k' v' Hin. apply elem_of_app in Hin as [Hin | Hin].
    + specialize (Hmax _ _ Hin). unfold F64.gt in *.
      destruct (F64.lt v v') eqn:E; [| exact E].
      pose proof (lt_trans _ _ _ Hgt E) as T. unfold F64.lt in T. congruence.
    + apply list_elem_of_singleton in Hin. injection Hin as -> ->.
      apply lt_irrefl.
  - left. apply elem_of_app. right. apply list_elem_of_singleton. reflexivity.
  - intros k' v' Hin. apply elem_of_app in Hin as [Hin | Hin]; [eauto |].
    apply list_elem_of_singleton in Hin. injection Hin as -> ->. exact Hgt.
  - destruct Hmodal as [Hin | ->]; [left | right; reflexivity].
    apply elem_of_app. left. exact Hin.
Qed.

Lemma vote_fold (rest : list (Z * float)) :
  forall (seen : list (Z * float)) (st : Vote),
    voted seen st -> voted (seen ++ rest) (fold_left voteStep rest st).
Proof.
  induction rest as [| kv rest IH]; intros seen st H; cbn [fold_left].
  - rewrite app_nil_r. exact H.
  - replace (seen ++ kv :: rest) with ((seen ++ [kv]) ++ rest)
      by (rewrite <- app_assoc; reflexivity).
    apply IH, voteStep_voted, H.
Qed.

(** The winner of the weighted vote: no value of the map is above the value
    of the modal. *)
Lemma vote_winner (visited : list (Z * float)) :
  voted visited (vote visited).
Proof.
  apply (vote_fold visited [] (mkVote 0 0 0)). split.
  - intros k v Hin. apply elem_of_nil in Hin. contradiction.
  - right. reflexivity.
Qed.

Section ShadeFacts.
Context `{rules : sample.Rules}.

(** Past the edge test nothing writes to the modal index. *)
Lemma shade_kept (visit : gmap Z float -> list (Z * float))
    (info : raycaster.RenderInfo) (def : manifest.Definition_)
    (prevIndex : Z) :
  let t := tally def info in
  edgeDiscard def (filledSamples t) (totalSamples t) = false ->
  ModalIndex (shade visit info def prevIndex)
  = antiBanding (manifest.Palette def) prevIndex (vote (visit (values t)))
  /\ Region (shade visit info def prevIndex) = 0
  /\ IsMaskColour (shade visit info def prevIndex) = false.
Proof.
  intros t H. unfold shade. fold t. rewrite H.
  assert (Hout : forall samples acc minDepth,
            ModalIndex (output acc) = 0 /\ Region (output acc) = 0
            /\ IsMaskColour (output acc) = false ->
            let acc' := fold_left (tallySample def minDepth) samples acc in
            ModalIndex (output acc') = 0 /\ Region (output acc') = 0
            /\ IsMaskColour (output acc') = false).
  { induction samples as [| s samples IH]; intros acc minDepth Hacc;
      cbn [fold_left]; [exact Hacc |].
    apply IH. unfold tallySample.
    destruct (raycaster.Collision _ && colour.IsRenderable _ _);
      cbn [output]; [| exact Hacc].
    destruct (colour.IsSpecialColour _ _), (manifest.Debug def);
      cbn [ModalIndex Region IsMaskColour with_Specialness with_Colour
           with_SpecialColour];
      try exact Hacc.
    all: match goal with
         | |- context [Nat.iter ?n ?f ?o] =>
             assert (Hit : forall m o', ModalIndex o' = 0 /\ Region o' = 0
                                        /\ IsMaskColour o' = false ->
                       ModalIndex (Nat.iter m f o') = 0
                       /\ Region (Nat.iter m f o') = 0
                       /\ IsMaskColour (Nat.iter m f o') = false)
               by (induction m as [| m IHm]; intros o' Ho'; cbn [Nat.iter];
                   [exact Ho' | exact (IHm o' Ho')]);
             apply Hit; exact Hacc
         end. }
  specialize (Hout info emptyTally (minDepthOf info)
                   (conj eq_refl (conj eq_refl eq_refl))).
  cbv zeta in Hout. fold (tally def info) in Hout. fold t in Hout.
  destruct Hout as (_ & Hr & Hm).
  destruct (manifest.SoftenEdges def), (manifest.Debug def);
    cbn [ModalIndex Region IsMaskColour with_debug with_Transparency
         with_Specialness with_SpecialColour with_Colour with_Alpha
         with_ModalIndex];
    auto.
Qed.
End ShadeFacts.

Section ShadeModal.
Context `{rules : sample.Rules}.

(** C4, as the code has it: for a pixel that the hard-edge test keeps,
    the returned ModalIndex is the runner-up alternateModal when the
    winner of the vote equals prevIndex, the runner-up is nonzero and the
    palette entries of the two point to the same range object, and the
    winner in every other case; the winner's value is below no value of
    the map.  (A pixel that the test discards comes back all zero.) *)
Theorem shade_antiBanding (visit : gmap Z float -> list (Z * float))
    (info : raycaster.RenderInfo) (def : manifest.Definition_)
    (prevIndex : Z) :
  let t := tally def info in
  let v := vote (visit (values t)) in
  let pal := manifest.Palette def in
  edgeDiscard def (filledSamples t) (totalSamples t) = false ->
  ModalIndex (shade visit info def prevIndex)
  = (if (modal v =? prevIndex)
        && negb (alternateModal v =? 0)
        && colour.ptr_eqb (colour.Range (colour.Entries pal (modal v)))
                          (colour.Range (colour.Entries pal (alternateModal v)))
     then alternateModal v
     else modal v)
  /\ forall k x, (k, x) ∈ visit (values t) -> F64.gt x (max v) = false.
Proof.
  intros t v pal H. split.
  - destruct (shade_kept visit info def prevIndex H) as [-> _].
    fold t. fold v. unfold antiBanding. fold pal.
    destruct (modal v =? prevIndex), (alternateModal v =? 0),
      (colour.ptr_eqb _ _); reflexivity.
  - apply (vote_winner (visit (values t))).
Qed.

(** The first half of C1: an empty sample list, or counts that meet the
    hard-edge test, give the all-zero ShaderInfo. *)
Lemma shade_discards (visit : gmap Z float -> list (Z * float))
    (info : raycaster.RenderInfo) (def : manifest.Definition_)
    (prevIndex : Z) :
  let t := tally def info in
  info = []
  \/ totalSamples t = 0
  \/ GoInt.quot (GoInt.mul (filledSamples t) 100) (totalSamples t)
     <= F64.to_int (manifest.HardEdgeThreshold (manifest.Manifest def) * 100)%float ->
  shade visit info def prevIndex = zeroShaderInfo.
Proof.
  intros t H. unfold shade. fold t.
  assert (Hd : edgeDiscard def (filledSamples t) (totalSamples t) = true).
  { unfold edgeDiscard. apply orb_true_iff.
    destruct H as [-> | [H | H]].
    - left. reflexivity.
    - left. apply Z.eqb_eq. exact H.
    - right. apply Z.leb_le. exact H. }
  rewrite Hd. reflexivity.
Qed.
End ShadeModal.

Lemma shade_antiBanding_witness :
  let info := [fixture.hit 1; fixture.hit 2; fixture.hit 1] in
  ModalIndex (shade (rules := fixture.rules) fixture.visit info
                    (fixture.def 0.5) 1) = 2.
Proof.
  intros info.
  destruct (shade_antiBanding (rules := fixture.rules) fixture.visit info
              (fixture.def 0.5) 1) as [H _].
  - vm_compute. reflexivity.
  - rewrite H. vm_compute. reflexivity.
Defined.

(** C4, as it is worded, fails for a pixel that the hard-edge test discards:
    one sample in ten hit a voxel of index 3, which wins the vote and is not
    the left neighbour's index 0, and yet the returned ModalIndex is 0. *)
Lemma shade_discarded_winner :
  let info := [fixture.hit 3; fixture.miss 9] in
  let v := vote (fixture.visit
                   (values (tally (rules := fixture.rules) (fixture.def 0.5) info))) in
  modal v = 3
  /\ (modal v =? 0) = false
  /\ ModalIndex (shade (rules := fixture.rules) fixture.visit info
                       (fixture.def 0.5) 0) <> modal v.
Proof. vm_compute. repeat split; discriminate. Qed.

(** ** getBestIndex *)

Lemma binary_round_aux_unsigned (mx ex : Z) (lx : location) :
  unsigned (binary_round_aux prec emax false mx ex lx).
Proof.
  unfold binary_round_aux.
  destruct (shr_fexp prec emax mx ex lx) as [mrs' e'].
  destruct (shr_fexp prec emax _ e' loc_Exact) as [mrs'' e''].
  destruct (shr_m mrs''); cbn [unsigned]; auto.
  destruct (Z.leb e'' _); reflexivity.
Qed.

Lemma SFmul_square_unsigned (x : spec_float) : unsigned (SF64mul x x).
Proof.
  destruct x as [s | s | | s m e]; cbn [SF64mul SFmul unsigned]; auto;
    try (destruct s; reflexivity).
  unfold SF64mul, SFmul. replace (xorb s s) with false by (destruct s; reflexivity).
  apply binary_round_aux_unsigned.
Qed.

Lemma SFadd_unsigned (x y : spec_float) :
  unsigned x -> unsigned y -> unsigned (SF64add x y).
Proof.
  destruct x as [sx | sx | | sx mx ex], y as [sy | sy | | sy my ey];
    cbn [unsigned]; intros Hx Hy; subst; cbn [SF64add SFadd unsigned]; auto.
  unfold SF64add, SFadd, cond_Zopp, binary_normalize.
  rewrite Pos2Z.add_pos_pos. unfold binary_round.
  generalize ((shl_align mx ex (Z.min ex ey)).1 + (shl_align my ey (Z.min ex ey)).1)%positive.
  intros m.
  match goal with
  | |- context [shl_align m ?e ?f] => destruct (shl_align m e f) as [mz ez]
  end.
  apply binary_round_aux_unsigned.
Qed.

Lemma squareDiff_unsigned (a b : float) : unsigned (Prim2SF (squareDiff a b)).
Proof. unfold squareDiff. rewrite mul_spec. apply SFmul_square_unsigned. Qed.

Lemma distance_unsigned (error p : colour.RGB) :
  unsigned (Prim2SF (distance error p)).
Proof.
  unfold distance. rewrite !add_spec.
  auto using SFadd_unsigned, squareDiff_unsigned.
Qed.

(** Nothing unsigned is below a zero. *)
Lemma unsigned_not_below_zero (a z : float) :
  unsigned (Prim2SF a) -> F64.eq z 0 = true -> F64.lt a z = false.
Proof.
  intros Ha Hz. apply eq_key in Hz as (_ & _ & Hz).
  destruct (F64.lt a z) eqn:E; [| reflexivity].
  apply lt_key in E as (_ & _ & E). rewrite Hz in E.
  change (key (Prim2SF 0)) with (0, 0, 0) in E.
  destruct (Prim2SF a) as [s | s | | s m e]; cbn [unsigned key] in *;
    subst; cbn [lexlt] in E; lia.
Qed.

Section BestIndex.
Variable error : colour.RGB.

Lemma candidate_app_l (pre rest : list colour.RGB) (j : nat) (q : colour.RGB) :
  candidate pre j q -> candidate (pre ++ rest) j q.
Proof.
  intros [H1 H2]. split; [| exact H2].
  rewrite lookup_app_l; [exact H1 |]. eapply lookup_lt_Some; eassumption.
Qed.

Lemma candidate_snoc (pre : list colour.RGB) (p : colour.RGB) (j : nat)
    (q : colour.RGB) :
  candidate (pre ++ [p]) j q ->
  candidate pre j q \/ (j = length pre /\ q = p).
Proof.
  intros [H1 H2]. destruct (Nat.lt_ge_cases j (length pre)) as [Hlt | Hge].
  - left. rewrite lookup_app_l in H1 by exact Hlt. split; assumption.
  - right. rewrite lookup_app_r in H1 by exact Hge.
    destruct (j - length pre)%nat as [| k] eqn:E.
    + injection H1 as <-. split; [lia | reflexivity].
    + apply lookup_lt_Some in H1. cbn [length] in H1. lia.
Qed.

Lemma candidate_last (pre : list colour.RGB) (p : colour.RGB) :
  skipped p = false -> candidate (pre ++ [p]) (length pre) p.
Proof.
  intros H. split; [| exact H].
  rewrite lookup_app_r by lia. rewrite Nat.sub_diag. reflexivity.
Qed.

(** A candidate that undercuts the best sum is equalled by none before. *)
Lemma undercut_first (pre : list colour.RGB) (p : colour.RGB)
    (bestIndex : Z) (bestSum : float) :
  looped error pre bestIndex bestSum -> F64.lt (distance error p) bestSum = true ->
  forall j q, candidate pre j q -> F64.le (distance error q) (distance error p) = false.
Proof.
  intros (Hlow & _) Hlt j q Hq.
  destruct (F64.le (distance error q) (distance error p)) eqn:E; [| reflexivity].
  pose proof (Hlow _ _ Hq) as C.
  rewrite (le_lt_trans _ _ _ E Hlt) in C. exact C.
Qed.

Lemma undercut_max (pre : list colour.RGB) (p : colour.RGB)
    (bestIndex : Z) (bestSum : float) :
  looped error pre bestIndex bestSum -> F64.lt (distance error p) bestSum = true ->
  F64.lt (distance error p) F64.MaxFloat64 = true.
Proof.
  intros (_ & [-> | Hmax] & _) Hlt; [exact Hlt |].
  exact (lt_trans _ _ _ Hlt Hmax).
Qed.

(** Taking a candidate that undercuts the best sum. *)
Lemma looped_take (pre : list colour.RGB) (p : colour.RGB) (bestIndex : Z)
    (bestSum : float) :
  looped error pre bestIndex bestSum -> skipped p = false ->
  F64.lt (distance error p) bestSum = true ->
  looped error (pre ++ [p]) (Z.of_nat (length pre)) (distance error p).
Proof.
  intros Hl Hp Hlt. pose proof Hl as (Hlow & Hmax & _). split; [| split].
  - intros j q Hq. apply candidate_snoc in Hq as [Hq | [_ ->]].
    + destruct (F64.lt (distance error q) (distance error p)) eqn:E; [| reflexivity].
      pose proof (Hlow _ _ Hq) as C.
      rewrite (lt_trans _ _ _ E Hlt) in C. exact C.
    + apply lt_irrefl.
  - right. destruct Hmax as [-> | Hmax]; [exact Hlt |].
    exact (lt_trans _ _ _ Hlt Hmax).
  - right. exists (length pre), p.
    split; [reflexivity |]. split; [reflexivity |].
    split; [apply candidate_last, Hp |].
    split; [exact (undercut_max _ _ _ _ Hl Hlt) |].
    intros j q Hj Hq. apply candidate_snoc in Hq as [Hq | [-> _]]; [| lia].
    exact (undercut_first _ _ _ _ Hl Hlt _ _ Hq).
Qed.

(** Passing a candidate that does not undercut the best sum, or an entry
    that the guard skips. *)
Lemma looped_pass (pre : list colour.RGB) (p : colour.RGB) (bestIndex : Z)
    (bestSum : float) :
  looped error pre bestIndex bestSum ->
  skipped p = true \/ F64.lt (distance error p) bestSum = false ->
  looped error (pre ++ [p]) bestIndex bestSum.
Proof.
  intros (Hlow & Hmax & Hbest) Hp. split; [| split; [exact Hmax |]].
  - intros j q Hq. pose proof Hq as [_ Hs].
    apply candidate_snoc in Hq as [Hq | [_ ->]]; [eauto |].
    destruct Hp as [Hp | Hp]; [congruence | exact Hp].
  - destruct Hbest as [Hbest | (i & p' & -> & -> & Hc & Hm & Hfirst)];
      [left; exact Hbest | right].
    exists i, p'.
    split; [reflexivity |]. split; [reflexivity |].
    split; [apply candidate_app_l, Hc |]. split; [exact Hm |].
    intros j q Hj Hq. apply candidate_snoc in Hq as [Hq | [-> _]];
      [eauto |].
    destruct Hc as [Hc _]. apply lookup_lt_Some in Hc. lia.
Qed.
End BestIndex.

Lemma bestIndexLoop_outcome (error : colour.RGB) (rest : list colour.RGB) :
  forall (pre : list colour.RGB) (bestIndex : Z) (bestSum : float),
    looped error pre bestIndex bestSum ->
    outcome error (pre ++ rest)
            (bestIndexLoop error rest (Z.of_nat (length pre)) bestIndex bestSum).
Proof.
  induction rest as [| p rest IH]; intros pre bestIndex bestSum Hl.
  - rewrite app_nil_r. cbn [bestIndexLoop].
    destruct Hl as (Hlow & _ & [[-> ->] | (i & p & -> & -> & Hc & Hm & Hfirst)]).
    + left. split; [reflexivity | exact Hlow].
    + right. exists i, p. split; [reflexivity |]. repeat split; auto; apply Hc.
  - assert (Hnext : forall bi b, looped error (pre ++ [p]) bi b ->
              outcome error (pre ++ p :: rest)
                (bestIndexLoop error rest (Z.of_nat (length pre) + 1) bi b)).
    { intros bi b H. specialize (IH _ _ _ H).
      rewrite <- app_assoc, length_app in IH. cbn [app length] in IH.
      replace (Z.of_nat (length pre + 1)) with (Z.of_nat (length pre) + 1)
        in IH by lia.
      exact IH. }
    cbn [bestIndexLoop]. destruct (skipped p) eqn:Hs.
    { apply Hnext, looped_pass; auto. }
    destruct (F64.lt (distance error p) bestSum) eqn:Hlt.
    2:{ apply Hnext, looped_pass; auto. }
    destruct (F64.eq (distance error p) 0) eqn:Hz.
    2:{ apply Hnext. eapply looped_take; eassumption. }
    right. exists (length pre), p. split; [reflexivity |].
    split; [| split; [| split]].
    + split; [| exact Hs]. rewrite lookup_app_r by lia.
      rewrite Nat.sub_diag. reflexivity.
    + exact (undercut_max _ _ _ _ _ Hl Hlt).
    + intros j q _.
      apply unsigned_not_below_zero; [apply distance_unsigned | exact Hz].
    + intros j q Hj [Hq Hqs]. rewrite lookup_app_l in Hq by exact Hj.
      exact (undercut_first _ _ _ _ _ Hl Hlt j q (conj Hq Hqs)).
Qed.

Lemma looped_start (error : colour.RGB) : looped error [] 0 F64.MaxFloat64.
Proof.
  split; [| split].
  - intros j q [H _]. rewrite lookup_nil in H. discriminate H.
  - left. reflexivity.
  - left. split; reflexivity.
Qed.

Lemma MaxFloat64_above_zero : above_zero F64.MaxFloat64.
Proof.
  intros z Hz. apply eq_key in Hz as (Hn & _ & Hk). apply lt_key.
  split; [exact Hn |]. split; [reflexivity |]. rewrite Hk.
  vm_compute. auto.
Qed.

Lemma taken_above_zero (error p : colour.RGB) (bestSum : float) :
  F64.lt (distance error p) bestSum = true ->
  F64.eq (distance error p) 0 = false ->
  above_zero (distance error p).
Proof.
  intros Hlt Hne z Hz. pose proof (distance_unsigned error p) as Hu.
  apply lt_key in Hlt as (Hn & _ & _).
  apply eq_key in Hz as (Hzn & _ & Hk). apply lt_key.
  split; [exact Hzn |]. split; [exact Hn |]. rewrite Hk.
  change (key (Prim2SF 0)) with (0, 0, 0).
  destruct (Prim2SF (distance error p)) as [s | s | | s m e] eqn:E;
    cbn [unsigned key isnan] in *; subst; try discriminate;
    cbn [lexlt]; try lia.
  exfalso. assert (F64.eq (distance error p) 0 = true); [| congruence].
  apply eq_key. rewrite E. repeat split.
Qed.

(** The entries behind an exact match are not looked at. *)
Lemma bestIndexLoop_exit (error p : colour.RGB) (rest : list colour.RGB) :
  skipped p = false -> F64.eq (distance error p) 0 = true ->
  forall (pre : list colour.RGB) (index bestIndex : Z) (bestSum : float),
    above_zero bestSum ->
    bestIndexLoop error (pre ++ p :: rest) index bestIndex bestSum
    = bestIndexLoop error (pre ++ [p]) index bestIndex bestSum.
Proof.
  intros Hs Hz. induction pre as [| q pre IH];
    intros index bestIndex bestSum Hb; cbn [app bestIndexLoop].
  - rewrite Hs, (Hb _ Hz), Hz. reflexivity.
  - destruct (skipped q); [apply IH, Hb |].
    destruct (F64.lt (distance error q) bestSum) eqn:Hlt; [| apply IH, Hb].
    destruct (F64.eq (distance error q) 0) eqn:Hq; [reflexivity |].
    apply IH. eapply taken_above_zero; eassumption.
Qed.

(** Where no candidate is below MaxFloat64 (an empty list, a list of
    sentinels, a NaN target), the index stays the 0 it starts from. *)
Lemma getBestIndex_default (error : colour.RGB) (palette : list colour.RGB) :
  (forall j q, candidate palette j q ->
     F64.lt (distance error q) F64.MaxFloat64 = false) ->
  getBestIndex error palette = 0.
Proof.
  intros Hnone. unfold getBestIndex.
  pose proof (bestIndexLoop_outcome error palette [] 0 F64.MaxFloat64
                (looped_start error)) as Hout.
  cbn [app length] in Hout. change (Z.of_nat 0) with 0 in Hout.
  destruct Hout as [[-> _] | (i & p & _ & Hc & Hm & _)]; [reflexivity |].
  rewrite (Hnone _ _ Hc) in Hm. discriminate Hm.
Qed.

(** C6, as the code has it: for every target and every palette list of at
    most 256 entries that holds an entry which the sentinel guard lets
    through and whose squared distance is below MaxFloat64, getBestIndex
    returns the index of such an entry; no entry that the guard lets through
    has a smaller distance, and none before it has an equal one (the first
    index met wins a tie); when the distance of the returned entry is 0 the
    entries behind it are never looked at.  (Without such an entry the
    result is the 0 that the loop starts from.) *)
Theorem getBestIndex_minimises (error : colour.RGB)
    (palette : list colour.RGB) :
  (length palette <= 256)%nat ->
  (exists j q, candidate palette j q
               /\ F64.lt (distance error q) F64.MaxFloat64 = true) ->
  exists (i : nat) (p : colour.RGB),
    getBestIndex error palette = Z.of_nat i
    /\ palette !! i = Some p
    /\ skipped p = false
    /\ (forall j q, palette !! j = Some q -> skipped q = false ->
          F64.lt (distance error q) (distance error p) = false)
    /\ (forall j q, (j < i)%nat -> palette !! j = Some q -> skipped q = false ->
          F64.le (distance error q) (distance error p) = false)
    /\ (F64.eq (distance error p) 0 = true ->
        forall rest,
          getBestIndex error (take i palette ++ p :: rest) = Z.of_nat i).
Proof.
  intros Hlen (j0 & q0 & Hc0 & Hlt0).
  pose proof (bestIndexLoop_outcome error palette [] 0 F64.MaxFloat64
                (looped_start error)) as Hout.
  cbn [app length] in Hout. change (Z.of_nat 0) with 0 in Hout.
  destruct Hout as [[_ Hnone] | (i & p & Hr & [Hi Hs] & Hm & Hmin & Hfirst)].
  { rewrite (Hnone _ _ Hc0) in Hlt0. discriminate Hlt0. }
  pose proof (lookup_lt_Some _ _ _ Hi) as Hlt.
  assert (Hbyte : GoInt.to_byte (Z.of_nat i) = Z.of_nat i).
  { unfold GoInt.to_byte. apply Z.mod_small. lia. }
  exists i, p. split; [unfold getBestIndex; rewrite Hr; exact Hbyte |].
  split; [exact Hi |]. split; [exact Hs |].
  split; [intros j q Hq Hqs; exact (Hmin j q (conj Hq Hqs)) |].
  split; [intros j q Hj Hq Hqs; exact (Hfirst j q Hj (conj Hq Hqs)) |].
  intros Hz rest. unfold getBestIndex.
  rewrite (bestIndexLoop_exit error p rest Hs Hz (take i palette) 0 0
             F64.MaxFloat64 MaxFloat64_above_zero).
  rewrite <- (bestIndexLoop_exit error p (drop (S i) palette) Hs Hz
                (take i palette) 0 0 F64.MaxFloat64 MaxFloat64_above_zero).
  rewrite <- (take_drop_middle palette i p Hi) in Hr at 1.
  rewrite Hr. exact Hbyte.
Qed.

Lemma getBestIndex_minimises_witness :
  getBestIndex (fixture.grey 40000) fixture.regular = 2
  /\ getBestIndex (fixture.grey 32768)
       (take 2 fixture.regular ++ fixture.grey 32768 :: [fixture.grey 32768])
     = 2.
Proof.
  assert (Hlen : (length fixture.regular <= 256)%nat) by (vm_compute; lia).
  assert (Hsome : exists j q, candidate fixture.regular j q
                    /\ F64.lt (distance (fixture.grey 40000) q) F64.MaxFloat64
                       = true).
  { exists 1%nat, (fixture.grey 0). vm_compute. auto. }
  assert (Hsome' : exists j q, candidate fixture.regular j q
                    /\ F64.lt (distance (fixture.grey 32768) q) F64.MaxFloat64
                       = true).
  { exists 1%nat, (fixture.grey 0). vm_compute. auto. }
  destruct (getBestIndex_minimises (fixture.grey 40000) fixture.regular
              Hlen Hsome) as (i & p & Hr & _).
  destruct (getBestIndex_minimises (fixture.grey 32768) fixture.regular
              Hlen Hsome') as (i' & p' & Hr' & Hi' & _ & _ & _ & Hexit).
  split; [vm_compute; reflexivity |].
  assert (Ei : i' = 2%nat).
  { apply Nat2Z.inj. rewrite <- Hr'. vm_compute. reflexivity. }
  subst i'. vm_compute in Hi'. injection Hi' as <-.
  apply (Hexit eq_refl [fixture.grey 32768]).
Defined.

(** C6, as it is worded for every palette subset, fails for a list that
    holds sentinels only: the result 0 is the index of an entry that the
    guard skips, so it is not the index of an entry let through. *)
Lemma getBestIndex_all_skipped :
  let palette := [fixture.magenta; fixture.magenta] in
  ~ exists p, palette !! Z.to_nat (getBestIndex (fixture.grey 0) palette) = Some p
              /\ skipped p = false.
Proof.
  intros palette (p & Hp & Hs). vm_compute in Hp. injection Hp as <-.
  vm_compute in Hs. discriminate Hs.
Qed.

(** ** Reading and writing cells of the grid *)

Lemma pixel_setPixel_same (output output' : ShaderOutput) (x y : Z)
    (s : ShaderInfo) :
  setPixel output x y s = Ok output' -> pixel output' x y = Ok s.
Proof.
  intros H. apply setPixel_Ok in H as (Hx & Hy & column & old & Hc & Ho & ->).
  apply pixel_Ok. split; [exact Hx |]. split; [exact Hy |].
  exists (<[Z.to_nat y := s]> column). split.
  - apply list_lookup_insert_eq. eapply lookup_lt_Some; eassumption.
  - apply list_lookup_insert_eq. eapply lookup_lt_Some; eassumption.
Qed.

Lemma pixel_setPixel_other (output output' : ShaderOutput) (x y x' y' : Z)
    (s : ShaderInfo) :
  setPixel output x y s = Ok output' -> (x', y') <> (x, y) ->
  pixel output' x' y' = pixel output x' y'.
Proof.
  intros H Hne. apply setPixel_Ok in H as (Hx & Hy & column & old & Hc & Ho & ->).
  unfold pixel, index.
  destruct (Z.ltb_spec x' 0) as [| Hx']; [reflexivity |].
  destruct (decide (Z.to_nat x' = Z.to_nat x)) as [E | E].
  - rewrite E, list_lookup_insert_eq by (eapply lookup_lt_Some; eassumption).
    rewrite Hc. cbn [bind].
    destruct (Z.ltb_spec y' 0) as [| Hy']; [reflexivity |].
    rewrite list_lookup_insert_ne; [reflexivity |].
    intros E'. apply Hne. f_equal; lia.
  - rewrite list_lookup_insert_ne by congruence. reflexivity.
Qed.


(** ** Loops *)

(** What every round keeps, the loop keeps. *)
Lemma forFrom_inv {S : Type} (P : S -> Prop) (count : nat) :
  forall (i : Z) (body : Z -> S -> result S) (s s' : S),
    (forall j st st', i <= j < i + Z.of_nat count -> P st ->
                      body j st = Ok st' -> P st') ->
    P s -> forFrom count i body s = Ok s' -> P s'.
Proof.
  induction count as [| count IH]; intros i body s s' Hbody Hs H;
    cbn [forFrom] in H.
  - injection H as <-. exact Hs.
  - apply bind_Ok in H as (s1 & H1 & H).
    apply (IH (i + 1) body s1 s'); [| | exact H].
    + intros j st st' Hj. apply Hbody. lia.
    + apply (Hbody i s s1); [lia | exact Hs | exact H1].
Qed.

(** The round [k] of a loop, seen through a view [view] of the state that
    the other rounds leave alone: the state before the round shows what the
    state before the loop shows, and the state after the round what the
    state after the loop shows.  [P] is kept by every round. *)
Lemma forFrom_at {S V : Type} (view : S -> V) (P : S -> Prop) (k : Z)
    (count : nat) :
  forall (i : Z) (body : Z -> S -> result S) (s s' : S),
    i <= k < i + Z.of_nat count ->
    (forall j st st', i <= j < i + Z.of_nat count -> P st ->
                      body j st = Ok st' -> P st') ->
    (forall j st st', i <= j < i + Z.of_nat count -> j <> k -> P st ->
                      body j st = Ok st' -> view st' = view st) ->
    P s -> forFrom count i body s = Ok s' ->
    exists s1 s2, P s1 /\ body k s1 = Ok s2
                  /\ view s1 = view s /\ view s2 = view s'.
Proof.
  induction count as [| count IH]; intros i body s s' Hk HP Hview Hs H;
    [lia |].
  cbn [forFrom] in H. apply bind_Ok in H as (s1 & H1 & H).
  assert (HP1 : P s1) by (apply (HP i s s1); [lia | exact Hs | exact H1]).
  destruct (decide (k = i)) as [-> | Hne].
  - exists s, s1. split; [exact Hs |]. split; [exact H1 |].
    split; [reflexivity |].
    symmetry.
    apply (forFrom_inv (fun st => P st /\ view st = view s1) count (i + 1)
             body s1 s'); [| auto | exact H].
    intros j st st' Hj [HPst Hv] Hb. split.
    + apply (HP j st st'); [lia | exact HPst | exact Hb].
    + rewrite <- Hv. apply (Hview j st st'); [lia | lia | exact HPst | exact Hb].
  - destruct (IH (i + 1) body s1 s') as (a & b & Ha & Hab & Hva & Hvb);
      [lia | | | exact HP1 | exact H |].
    + intros j st st' Hj. apply HP. lia.
    + intros j st st' Hj. apply Hview. lia.
    + exists a, b. split; [exact Ha |]. split; [exact Hab |].
      split; [| exact Hvb].
      rewrite Hva. apply (Hview i s s1); [lia | lia | exact Hs | exact H1].
Qed.

Lemma forRange_inv {S : Type} (P : S -> Prop) (n : Z)
    (body : Z -> S -> result S) (s s' : S) :
  (forall j st st', 0 <= j < n -> P st -> body j st = Ok st' -> P st') ->
  P s -> forRange n body s = Ok s' -> P s'.
Proof.
  intros Hbody. apply forFrom_inv. intros j st st' Hj. apply Hbody. lia.
Qed.

Lemma forRange_at {S V : Type} (view : S -> V) (P : S -> Prop) (k n : Z)
    (body : Z -> S -> result S) (s s' : S) :
  0 <= k < n ->
  (forall j st st', 0 <= j < n -> P st -> body j st = Ok st' -> P st') ->
  (forall j st st', 0 <= j < n -> j <> k -> P st -> body j st = Ok st' ->
                    view st' = view st) ->
  P s -> forRange n body s = Ok s' ->
  exists s1 s2, P s1 /\ body k s1 = Ok s2 /\ view s1 = view s /\ view s2 = view s'.
Proof.
  intros Hk HP Hview. apply forFrom_at.
  - lia.
  - intros j st st' Hj. apply HP. lia.
  - intros j st st' Hj. apply Hview. lia.
Qed.

(** ** The two loops of a dithering pass *)

Lemma passLoop_inv (P : Pass -> Prop) (width height : Z)
    (body : Z -> Z -> Pass -> result Pass) (st st' : Pass) :
  (forall x y s s', 0 <= x < width -> 0 <= y < height -> P s ->
                    body x y s = Ok s' -> P s') ->
  (forall s, P s -> P (swapRows s)) ->
  P st -> passLoop width height body st = Ok st' -> P st'.
Proof.
  intros Hbody Hswap. unfold passLoop. apply forRange_inv.
  intros x s s' Hx Hs H. apply bind_Ok in H as (s1 & H1 & H).
  injection H as <-. apply Hswap.
  apply (forRange_inv P height (body x) s s1); auto.
  intros y a b Hy. apply Hbody; assumption.
Qed.

(** The round of a pass at the cell (x0, y0), seen through a view of the
    grid that the rounds at the other cells leave alone. *)
Lemma passLoop_at {V : Type} (view : ShaderOutput -> V) (P : Pass -> Prop)
    (width height : Z) (body : Z -> Z -> Pass -> result Pass) (x0 y0 : Z)
    (st st' : Pass) :
  0 <= x0 < width -> 0 <= y0 < height ->
  (forall x y s s', 0 <= x < width -> 0 <= y < height -> P s ->
                    body x y s = Ok s' -> P s') ->
  (forall s, P s -> P (swapRows s)) ->
  (forall x y s s', 0 <= x < width -> 0 <= y < height -> (x, y) <> (x0, y0) ->
                    P s -> body x y s = Ok s' ->
                    view (passGrid s') = view (passGrid s)) ->
  P st -> passLoop width height body st = Ok st' ->
  exists s1 s2, P s1 /\ body x0 y0 s1 = Ok s2
                /\ view (passGrid s1) = view (passGrid st)
                /\ view (passGrid s2) = view (passGrid st').
Proof.
  intros Hx0 Hy0 Hbody Hswap Hview Hst H. unfold passLoop in H.
  assert (Hinner : forall x s s', 0 <= x < width -> P s ->
            forRange height (body x) s = Ok s' -> P s').
  { intros x s s' Hx Hs. apply forRange_inv; [| exact Hs].
    intros y a b Hy. apply Hbody; assumption. }
  destruct (forRange_at (fun s => view (passGrid s)) P x0 width
              (fun x st => let* st0 := forRange height (body x) st in
                           Ok (swapRows st0))
              st st' Hx0)
    as (o1 & o2 & Ho1 & Ho & Hv1 & Hv2); [| | exact Hst | exact H |].
  - intros x s s' Hx Hs E. apply bind_Ok in E as (s1 & E1 & E).
    injection E as <-. apply Hswap. exact (Hinner x s s1 Hx Hs E1).
  - intros x s s' Hx Hne Hs E. apply bind_Ok in E as (s1 & E1 & E).
    injection E as <-. cbn [swapRows passGrid].
    apply (forRange_inv
             (fun a => P a /\ view (passGrid a) = view (passGrid s))
             height (body x) s s1); [| auto | exact E1].
    intros y a b Hy [Ha Hva] Eb. split.
    + apply (Hbody x y a b); assumption.
    + rewrite <- Hva. apply (Hview x y a b); try assumption. congruence.
  - apply bind_Ok in Ho as (i1 & Hi & Ho). injection Ho as <-.
    destruct (forRange_at (fun s => view (passGrid s)) P y0 height (body x0)
                o1 i1 Hy0)
      as (s1 & s2 & Hs1 & Hs & Hw1 & Hw2); [| | exact Ho1 | exact Hi |].
    + intros y a b Hy. apply Hbody; assumption.
    + intros y a b Hy Hne. apply Hview; try assumption. congruence.
    + exists s1, s2. split; [exact Hs1 |]. split; [exact Hs |].
      split; [congruence |]. rewrite Hw2. exact Hv2.
Qed.

(** ** What the ditherer does to the grid *)

(** A call writes the cell (x, y) only; there it stores the index it
    returns, raises IsMaskColour when that index is a special colour, and
    leaves Alpha, Region and ModalIndex as they were. *)
Lemma ditherOutput_cell (def : manifest.Definition_) (output : ShaderOutput)
    (x y : Z) (error : colour.RGB)
    (errCurr pcc scc reg errNext : list colour.RGB) (d : Dithered) :
  ditherOutput def output x y error errCurr pcc scc reg errNext = Ok d ->
  exists s s',
    pixel output x y = Ok s /\ pixel (grid d) x y = Ok s'
    /\ DitheredIndex s' = bestIndex d
    /\ IsMaskColour s'
       = IsMaskColour s
         || colour.IsSpecialColour (manifest.Palette def) (bestIndex d)
    /\ Alpha s' = Alpha s /\ Region s' = Region s
    /\ ModalIndex s' = ModalIndex s
    /\ (F64.lt (Alpha s) (manifest.EdgeThreshold (manifest.Manifest def)) = true ->
        bestIndex d = 0)
    /\ forall x' y', (x', y') <> (x, y) ->
         pixel (grid d) x' y' = pixel output x' y'.
Proof.
  unfold ditherOutput. intros H. inv_bind H.
  destruct a0 as [[tgt best] s1]. inv_bind H. destruct a1 as [rc rn].
  injection H as <-. cbn [grid bestIndex].
  pose proof (choose_pixel _ _ _ _ _ _ _ _ _ _ _ _ _ Ha0) as Hs1.
  match type of Ha1 with
  | setPixel _ _ _ ?v = _ =>
      exists a, v; split; [exact Ha |];
      split; [exact (pixel_setPixel_same _ _ _ _ _ Ha1) |];
      assert (Hfields :
                DitheredIndex v = best
                /\ IsMaskColour v
                   = IsMaskColour a
                     || colour.IsSpecialColour (manifest.Palette def) best
                /\ Alpha v = Alpha a /\ Region v = Region a
                /\ ModalIndex v = ModalIndex a)
  end.
  { destruct Hs1 as [-> | ->];
      destruct (colour.IsSpecialColour (manifest.Palette def) best);
      cbn [DitheredIndex IsMaskColour Alpha Region ModalIndex
           with_DitheredIndex with_IsMaskColour with_IsAnimated];
      rewrite ?orb_true_r, ?orb_false_r; auto. }
  destruct Hfields as (F1 & F2 & F3 & F4 & F5).
  split; [exact F1 |]. split; [exact F2 |]. split; [exact F3 |].
  split; [exact F4 |]. split; [exact F5 |]. split.
  - intros Hlt. rewrite (choose_transparent _ _ _ _ _ _ _ _ _ _ Hlt) in Ha0.
    injection Ha0 as _ <- _. reflexivity.
  - intros x' y' Hne. exact (pixel_setPixel_other _ _ _ _ _ _ _ Ha1 Hne).
Qed.

(** ** What the flood fill does to the grid *)

Lemma with_Region_same (s : ShaderInfo) : with_Region s (Region s) = s.
Proof. destruct s; reflexivity. Qed.

Lemma regionApart_refl (output : ShaderOutput) (x y : Z) :
  regionApart (pixel output x y) (pixel output x y).
Proof.
  pose proof (pixel_fuel output x y) as Hf.
  destruct (pixel output x y); cbn [regionApart]; auto.
  symmetry. apply with_Region_same.
Qed.

Lemma regionApart_trans (a b c : result ShaderInfo) :
  regionApart a b -> regionApart b c -> regionApart a c.
Proof.
  destruct a as [s | |], b as [s' | |], c as [s'' | |]; cbn [regionApart];
    try contradiction; auto.
  intros -> ->. reflexivity.
Qed.

Lemma gridsApart_refl (output : ShaderOutput) : gridsApart output output.
Proof. intros x y. apply regionApart_refl. Qed.

Lemma gridsApart_trans (a b c : ShaderOutput) :
  gridsApart a b -> gridsApart b c -> gridsApart a c.
Proof. intros H1 H2 x y. eapply regionApart_trans; [apply H1 | apply H2]. Qed.

Lemma gridsApart_setRegion (output output' : ShaderOutput) (x y region : Z)
    (s : ShaderInfo) :
  pixel output x y = Ok s ->
  setPixel output x y (with_Region s region) = Ok output' ->
  gridsApart output output'.
Proof.
  intros Hp Hs x' y'. destruct (decide ((x', y') = (x, y))) as [E | E].
  - injection E as -> ->. rewrite Hp, (pixel_setPixel_same _ _ _ _ _ Hs).
    reflexivity.
  - rewrite (pixel_setPixel_other _ _ _ _ _ _ _ Hs E). apply regionApart_refl.
Qed.

Lemma floodFill_frame (depth : nat) :
  forall (output output' : ShaderOutput) (region x y width height : Z)
         (palette : colour.Palette) (paletteRange : colour.RangePtr) (b : bool),
    floodFill depth output region x y width height palette paletteRange
    = Ok (output', b) ->
    gridsApart output output'.
Proof.
  induction depth as [| depth IH]; intros output output' region x y width
    height palette paletteRange b H; [discriminate H |].
  rewrite floodFill_unfold in H. cbv zeta in H.
  apply bind_Ok in H as (s & Hp & H).
  destruct (negb _ || _).
  { injection H as <- _. apply gridsApart_refl. }
  assert (Hwhen : forall cond x' y' o o',
            when cond (fun o => floodFill depth o region x' y' width height
                                          palette paletteRange) o = Ok o' ->
            gridsApart o o').
  { intros cond x' y' o o' Hw. unfold when in Hw. destruct cond.
    - apply bind_Ok in Hw as ([o'' b'] & Hf & Hw). injection Hw as <-.
      exact (IH _ _ _ _ _ _ _ _ _ _ Hf).
    - injection Hw as <-. apply gridsApart_refl. }
  inv_bind H. injection H as <- _.
  pose proof (gridsApart_setRegion _ _ _ _ _ _ Hp Ha).
  eauto 10 using gridsApart_trans.
Qed.

(** ** The shading stage *)

Section ShadeStage.
Context `{rules : sample.Rules}.
Variable visit : Z -> Z -> gmap Z float -> list (Z * float).
Variable renderOutput : raycaster.RenderOutput.
Variable spr : manifest.Sprite.
Variable def : manifest.Definition_.
Variables width height : Z.

Lemma shadePixel_cell (x y : Z) (output output' : ShaderOutput) :
  shadePixel visit renderOutput spr def width height x y output = Ok output' ->
  (forall x' y', (x', y') <> (x, y) -> pixel output' x' y' = pixel output x' y')
  /\ (pixel output' x y = pixel output x y
      \/ exists s, pixel output' x y = Ok s /\ shadedFrom visit renderOutput spr def x y s).
Proof.
  unfold shadePixel. intros H.
  destruct (_ || _ || _ || _).
  { injection H as <-. auto. }
  inv_bind H. split.
  - intros x' y' Hne. exact (pixel_setPixel_other _ _ _ _ _ _ _ H Hne).
  - right. exists (shade (visit x y) a1 def a).
    split; [exact (pixel_setPixel_same _ _ _ _ _ H) |].
    right. exists a0, a1, a. auto.
Qed.

Lemma store_column_other (output output' : ShaderOutput) (x x' y' : Z)
    (column : list ShaderInfo) :
  store output x column = Ok output' -> x' <> x ->
  pixel output' x' y' = pixel output x' y'.
Proof.
  intros H Hne. apply store_Ok in H as (Hx & _ & ->).
  unfold pixel, index. destruct (Z.ltb_spec x' 0); [reflexivity |].
  rewrite list_lookup_insert_ne by lia. reflexivity.
Qed.

Lemma store_column_same (output output' : ShaderOutput) (x y : Z)
    (column : list ShaderInfo) :
  store output x column = Ok output' ->
  pixel output' x y = index column y.
Proof.
  intros H. apply store_Ok in H as (Hx & Hlt & ->).
  unfold pixel. unfold index at 1. destruct (Z.ltb_spec x 0); [lia |].
  rewrite list_lookup_insert_eq by exact Hlt. reflexivity.
Qed.

Lemma shadeStage_cell (output : ShaderOutput) (x0 y0 : Z) :
  shadeStage visit renderOutput spr def width height = Ok output ->
  0 <= x0 < width -> 0 <= y0 < height ->
  exists s, pixel output x0 y0 = Ok s /\ shadedFrom visit renderOutput spr def x0 y0 s.
Proof.
  unfold shadeStage. intros H Hx0 Hy0. apply bind_Ok in H as (o0 & _ & H).
  match type of H with
  | forRange _ ?body _ = _ =>
      assert (Hother : forall x o o', 0 <= x < width -> x <> x0 -> True ->
                body x o = Ok o' -> pixel o' x0 y0 = pixel o x0 y0)
  end.
  { intros x o o' Hx Hne _ E. inv_bind E.
    rewrite <- (store_column_other _ _ _ x0 y0 _ Ha0 ltac:(congruence)).
    apply (forRange_inv (fun o => pixel o x0 y0 = pixel a0 x0 y0) height
             (shadePixel visit renderOutput spr def width height x) a0 o');
      [| reflexivity | exact E].
    intros y st st' Hy Hst Est. rewrite <- Hst.
    apply (shadePixel_cell _ _ _ _ Est). congruence. }
  destruct (forRange_at (fun o => pixel o x0 y0) (fun _ => True) x0 width _
              o0 output Hx0 (fun _ _ _ _ _ _ => I) Hother I H)
    as (s1 & s2 & _ & Hround & _ & Hv2).
  cbv beta in Hv2. rewrite <- Hv2. clear Hv2 H Hother. inv_bind Hround.
  pose proof (store_column_same _ _ x0 y0 _ Ha0) as Hcol.
  assert (Hzero : pixel a0 x0 y0 = Ok zeroShaderInfo).
  { rewrite Hcol. unfold make in Ha. destruct (height <? 0); [discriminate |].
    injection Ha as <-. apply index_Ok. split; [lia |].
    apply lookup_replicate_2. lia. }
  assert (Hrest : forall y st st', 0 <= y < height -> y <> y0 -> True ->
            shadePixel visit renderOutput spr def width height x0 y st = Ok st' ->
            pixel st' x0 y0 = pixel st x0 y0).
  { intros y st st' Hy Hne _ Est.
    apply (shadePixel_cell _ _ _ _ Est). congruence. }
  destruct (forRange_at (fun o => pixel o x0 y0) (fun _ => True) y0 height
              (shadePixel visit renderOutput spr def width height x0)
              a0 s2 Hy0 (fun _ _ _ _ _ _ => I) Hrest I Hround)
    as (b1 & b2 & _ & Hb & Hw1 & Hw2).
  cbv beta in Hw1, Hw2. rewrite <- Hw2.
  destruct (shadePixel_cell _ _ _ _ Hb) as [_ [Hsame | Hnew]];
    [| exact Hnew].
  exists zeroShaderInfo. split; [congruence | left; reflexivity].
Qed.

Lemma shadedFrom_fresh (x y : Z) (s : ShaderInfo) :
  shadedFrom visit renderOutput spr def x y s -> Region s = 0 /\ IsMaskColour s = false.
Proof.
  intros [-> | (column & info & prev & _ & _ & ->)]; [split; reflexivity |].
  destruct (edgeDiscard def (filledSamples (tally def info))
                        (totalSamples (tally def info))) eqn:E.
  - unfold shade. rewrite E. split; reflexivity.
  - destruct (shade_kept (visit x y) info def prev E) as (_ & Hr & Hm). auto.
Qed.
End ShadeStage.

(** ** The region stage *)

Lemma segmentStage_frame (def : manifest.Definition_) (width height : Z)
    (output : ShaderOutput) (seg : Segmentation) :
  segmentStage def width height output = Ok seg ->
  gridsApart output (segGrid seg).
Proof.
  unfold segmentStage. intros H.
  apply (forRange_inv (fun st => gridsApart output (segGrid st)) width _ _ _)
    with (3 := H); [| apply gridsApart_refl].
  intros x st st' _ Hst E.
  apply (forRange_inv (fun st => gridsApart output (segGrid st)) height _ _ _)
    with (3 := E); [| exact Hst].
  clear. intros y st st' _ Hst E. unfold segmentPixel in E.
  apply bind_Ok in E as (s & _ & E).
  destruct (ModalIndex s =? 0); [injection E as <-; exact Hst |].
  destruct (negb (Region s =? 0)); [injection E as <-; exact Hst |].
  apply bind_Ok in E as ([o b] & Hf & E). injection E as <-.
  cbn [segGrid fst]. eapply gridsApart_trans; [exact Hst |].
  exact (floodFill_frame _ _ _ _ _ _ _ _ _ _ _ Hf).
Qed.

Lemma gridsApart_cell (output output' : ShaderOutput) (x y : Z)
    (s : ShaderInfo) :
  gridsApart output output' -> pixel output x y = Ok s ->
  exists s', pixel output' x y = Ok s' /\ s' = with_Region s (Region s').
Proof.
  intros H Hp. specialize (H x y). rewrite Hp in H.
  destruct (pixel output' x y) as [s' | |]; cbn [regionApart] in H;
    try contradiction.
  eauto.
Qed.

(** ** The two dithering passes *)

Lemma pass1Pixel_dither (def : manifest.Definition_) (x y : Z) (st st' : Pass) :
  pass1Pixel def x y st = Ok st' ->
  exists d, dither def x y st = Ok d /\ passGrid st' = grid d.
Proof.
  unfold pass1Pixel. intros H. inv_bind H. injection H as <-. eauto.
Qed.

Lemma pass2Pixel_dither (def : manifest.Definition_) (x y : Z) (st st' : Pass) :
  pass2Pixel def x y st = Ok st' ->
  exists s output d,
    pixel (passGrid st) x y = Ok s
    /\ setPixel (passGrid st) x y (stretchPixel def (regions st) s) = Ok output
    /\ dither def x y (mkPass output (errCurr st) (errNext st) (regions st))
       = Ok d
    /\ passGrid st' = grid d.
Proof.
  unfold pass2Pixel. intros H. inv_bind H. injection H as <-. eauto 10.
Qed.

Lemma stretchPixel_kept (def : manifest.Definition_)
    (regions : gmap Z RegionInfo) (s : ShaderInfo) :
  Alpha (stretchPixel def regions s) = Alpha s
  /\ IsMaskColour (stretchPixel def regions s) = IsMaskColour s
  /\ ModalIndex (stretchPixel def regions s) = ModalIndex s
  /\ Region (stretchPixel def regions s) = Region s.
Proof.
  unfold stretchPixel. destruct (1 <? _); [| auto].
  destruct (colour.IsSpecialColour _ _); auto.
Qed.

Lemma dither_alphaAt (def : manifest.Definition_) (a : float) (x0 y0 x y : Z)
    (st : Pass) (d : Dithered) :
  dither def x y st = Ok d -> alphaAt a x0 y0 st ->
  exists s, pixel (grid d) x0 y0 = Ok s /\ Alpha s = a.
Proof.
  unfold dither. intros H (s0 & Hs0 & Ha).
  destruct (ditherOutput_cell _ _ _ _ _ _ _ _ _ _ _ H)
    as (s & s' & Hs & Hs' & _ & _ & Hal & _ & _ & _ & Hother).
  destruct (decide ((x0, y0) = (x, y))) as [E | E].
  - injection E as -> ->. exists s'. split; [exact Hs' |]. congruence.
  - exists s0. rewrite (Hother _ _ E). auto.
Qed.

Lemma pass1Pixel_alphaAt (def : manifest.Definition_) (a : float)
    (x0 y0 x y : Z) (st st' : Pass) :
  pass1Pixel def x y st = Ok st' -> alphaAt a x0 y0 st -> alphaAt a x0 y0 st'.
Proof.
  intros H Ha. apply pass1Pixel_dither in H as (d & Hd & Hg).
  unfold alphaAt. rewrite Hg. exact (dither_alphaAt _ _ _ _ _ _ _ _ Hd Ha).
Qed.

Lemma pass2Pixel_alphaAt (def : manifest.Definition_) (a : float)
    (x0 y0 x y : Z) (st st' : Pass) :
  pass2Pixel def x y st = Ok st' -> alphaAt a x0 y0 st -> alphaAt a x0 y0 st'.
Proof.
  intros H (s0 & Hs0 & Ha).
  apply pass2Pixel_dither in H as (s & output & d & Hs & Hset & Hd & Hg).
  unfold alphaAt. rewrite Hg.
  apply (dither_alphaAt _ _ _ _ _ _ _ _ Hd). unfold alphaAt. cbn [passGrid].
  destruct (decide ((x0, y0) = (x, y))) as [E | E].
  - injection E as -> ->. eexists.
    split; [exact (pixel_setPixel_same _ _ _ _ _ Hset) |].
    destruct (stretchPixel_kept def (regions st) s) as [-> _]. congruence.
  - exists s0. rewrite (pixel_setPixel_other _ _ _ _ _ _ _ Hset E). auto.
Qed.

Lemma dither_other (def : manifest.Definition_) (x0 y0 x y : Z) (st : Pass)
    (d : Dithered) :
  dither def x y st = Ok d -> (x0, y0) <> (x, y) ->
  pixel (grid d) x0 y0 = pixel (passGrid st) x0 y0.
Proof.
  unfold dither. intros H Hne.
  destruct (ditherOutput_cell _ _ _ _ _ _ _ _ _ _ _ H)
    as (s & s' & _ & _ & _ & _ & _ & _ & _ & _ & Hother).
  exact (Hother _ _ Hne).
Qed.

Lemma pass1Pixel_other (def : manifest.Definition_) (x0 y0 x y : Z)
    (st st' : Pass) :
  pass1Pixel def x y st = Ok st' -> (x, y) <> (x0, y0) ->
  pixel (passGrid st') x0 y0 = pixel (passGrid st) x0 y0.
Proof.
  intros H Hne. apply pass1Pixel_dither in H as (d & Hd & ->).
  apply (dither_other _ _ _ _ _ _ _ Hd). congruence.
Qed.

Lemma pass2Pixel_other (def : manifest.Definition_) (x0 y0 x y : Z)
    (st st' : Pass) :
  pass2Pixel def x y st = Ok st' -> (x, y) <> (x0, y0) ->
  pixel (passGrid st') x0 y0 = pixel (passGrid st) x0 y0.
Proof.
  intros H Hne.
  apply pass2Pixel_dither in H as (s & output & d & Hs & Hset & Hd & ->).
  rewrite (dither_other _ _ _ _ _ _ _ Hd) by congruence. cbn [passGrid].
  apply (pixel_setPixel_other _ _ _ _ _ _ _ Hset). congruence.
Qed.

(** A pixel that enters pass 2 with an Alpha below the edge threshold leaves
    its round with the index 0. *)
Lemma pass2Pixel_transparent (def : manifest.Definition_) (x y : Z)
    (st st' : Pass) (a : float) :
  pass2Pixel def x y st = Ok st' -> alphaAt a x y st ->
  F64.lt a (manifest.EdgeThreshold (manifest.Manifest def)) = true ->
  exists s, pixel (passGrid st') x y = Ok s /\ DitheredIndex s = 0.
Proof.
  intros H (s0 & Hs0 & Ha) Hlt.
  apply pass2Pixel_dither in H as (s & output & d & Hs & Hset & Hd & ->).
  unfold dither in Hd. cbn [passGrid errCurr errNext] in Hd.
  destruct (ditherOutput_cell _ _ _ _ _ _ _ _ _ _ _ Hd)
    as (sa & s' & Hsa & Hs' & Hidx & _ & _ & _ & _ & Hzero & _).
  exists s'. split; [exact Hs' |]. rewrite Hidx. apply Hzero.
  rewrite (pixel_setPixel_same _ _ _ _ _ Hset) in Hsa. injection Hsa as <-.
  destruct (stretchPixel_kept def (regions st) s) as [-> _].
  rewrite Hs0 in Hs. injection Hs as <-. rewrite Ha. exact Hlt.
Qed.

Section Pipeline.
Context `{rules : sample.Rules}.
Variable visit : Z -> Z -> gmap Z float -> list (Z * float).
Variable renderOutput : raycaster.RenderOutput.
Variable spr : manifest.Sprite.
Variable def : manifest.Definition_.
Variables width height : Z.

(** The stages that a run of the pipeline went through. *)
Lemma GetShaderOutput_stages (final : ShaderOutput) :
  GetShaderOutput visit renderOutput spr def width height = Ok final ->
  exists shaded seg st1 st1' st2,
    shadeStage visit renderOutput spr def width height = Ok shaded
    /\ segmentStage def width height shaded = Ok seg
    /\ pass1Stage def width height seg = Ok st1
    /\ afterPass1 visit renderOutput spr def width height = Ok st1
    /\ stretchStage def st1 = Ok st1'
    /\ passGrid st1' = passGrid st1
    /\ pass2Stage def width height st1' = Ok st2
    /\ final = passGrid st2.
Proof.
  unfold GetShaderOutput. intros H. inv_bind H. injection H as <-.
  pose proof Ha as Hafter. unfold afterPass1 in Ha. inv_bind Ha.
  exists a2, a3, a, a0, a1. repeat split; auto.
  unfold stretchStage in Ha0. inv_bind Ha0. injection Ha0 as <-. reflexivity.
Qed.

Lemma pass1Stage_start (seg : Segmentation) (st1 : Pass) :
  pass1Stage def width height seg = Ok st1 ->
  exists st0, passGrid st0 = segGrid seg
              /\ passLoop width height (pass1Pixel def) st0 = Ok st1.
Proof.
  unfold pass1Stage. intros H. inv_bind H. eexists. split; [| exact H].
  reflexivity.
Qed.
End Pipeline.

Section Transparency.
Context `{rules : sample.Rules}.
Variable visit : Z -> Z -> gmap Z float -> list (Z * float).
Variable renderOutput : raycaster.RenderOutput.
Variable spr : manifest.Sprite.
Variable def : manifest.Definition_.
Variables width height : Z.

(** C1, as the code has it: for every pixel whose sample list is empty, or
    whose counts meet the hard-edge test that the code computes in integer
    arithmetic, shade returns the all-zero ShaderInfo; and when the edge
    threshold is above zero, the DitheredIndex of the pixel after the whole
    pipeline is 0. *)
Theorem transparent_pixel (x y prevIndex : Z)
    (column : list raycaster.RenderInfo) (info : raycaster.RenderInfo)
    (final : ShaderOutput) :
  let t := tally def info in
  info = []
  \/ totalSamples t = 0
  \/ GoInt.quot (GoInt.mul (filledSamples t) 100) (totalSamples t)
     <= F64.to_int (manifest.HardEdgeThreshold (manifest.Manifest def) * 100)%float ->
  shade (visit x y) info def prevIndex = zeroShaderInfo
  /\ (GetShaderOutput visit renderOutput spr def width height = Ok final ->
      0 <= x < width -> 0 <= y < height ->
      index renderOutput (GoInt.add x (xoffset spr def)) = Ok column ->
      index column (GoInt.add y (yoffset spr def)) = Ok info ->
      F64.lt 0 (manifest.EdgeThreshold (manifest.Manifest def)) = true ->
      exists s, pixel final x y = Ok s /\ DitheredIndex s = 0).
Proof.
  intros t Hempty. split; [exact (shade_discards _ _ _ _ Hempty) |].
  intros Hrun Hx Hy Hcol Hinfo Hedge.
  destruct (GetShaderOutput_stages _ _ _ _ _ _ _ Hrun)
    as (shaded & seg & st1 & st1' & st2 & Hshade & Hseg & Hp1 & _ & _ & Hgrid
        & Hp2 & ->).
  (* the cell after the shading stage *)
  destruct (shadeStage_cell _ _ _ _ _ _ _ x y Hshade Hx Hy) as (s0 & Hs0 & Hfrom).
  assert (Hzero : s0 = zeroShaderInfo).
  { destruct Hfrom as [-> | (column' & info' & prev & Hc' & Hi' & ->)];
      [reflexivity |].
    rewrite Hcol in Hc'. injection Hc' as <-.
    rewrite Hinfo in Hi'. injection Hi' as <-.
    exact (shade_discards _ _ _ _ Hempty). }
  subst s0.
  (* the region stage and pass 1 keep its Alpha *)
  destruct (gridsApart_cell _ _ _ _ _ (segmentStage_frame _ _ _ _ _ Hseg) Hs0)
    as (s1 & Hs1 & Es1).
  destruct (pass1Stage_start _ _ _ _ _ Hp1) as (st0 & Hst0 & Hloop1).
  assert (Ha0 : alphaAt 0 x y st0).
  { exists s1. rewrite Hst0. split; [exact Hs1 |]. rewrite Es1. reflexivity. }
  assert (Ha1 : alphaAt 0 x y st1).
  { apply (passLoop_inv (alphaAt 0 x y) width height (pass1Pixel def) st0 st1);
      [| auto | exact Ha0 | exact Hloop1].
    intros x' y' s s' _ _ Hs E. exact (pass1Pixel_alphaAt _ _ _ _ _ _ _ _ E Hs). }
  assert (Ha1' : alphaAt 0 x y st1').
  { unfold alphaAt. rewrite Hgrid. exact Ha1. }
  (* the round of the cell in pass 2 *)
  destruct (passLoop_at (fun g => pixel g x y) (alphaAt 0 x y) width height
              (pass2Pixel def) x y st1' st2 Hx Hy)
    as (b & a & Hb & Hround & _ & Hview); [| auto | | exact Ha1' | exact Hp2 |].
  - intros x' y' s s' _ _ Hs E. exact (pass2Pixel_alphaAt _ _ _ _ _ _ _ _ E Hs).
  - intros x' y' s s' _ _ Hne _ E. exact (pass2Pixel_other _ _ _ _ _ _ _ E Hne).
  - cbv beta in Hview. rewrite <- Hview.
    exact (pass2Pixel_transparent _ _ _ _ _ _ Hround Hb Hedge).
Qed.
End Transparency.

Lemma transparent_pixel_witness :
  let renderOutput := [[[fixture.hit 3; fixture.miss 9]; [fixture.hit 2]]] in
  exists final s,
    GetShaderOutput (rules := fixture.rules) fixture.visitAt renderOutput
                    fixture.spr (fixture.def 0.5) 1 2 = Ok final
    /\ pixel final 0 0 = Ok s /\ DitheredIndex s = 0.
Proof.
  intros renderOutput.
  destruct (GetShaderOutput (rules := fixture.rules) fixture.visitAt
              renderOutput fixture.spr (fixture.def 0.5) 1 2)
    as [final | |] eqn:E; [| vm_compute in E; discriminate E ..].
  destruct (transparent_pixel (rules := fixture.rules) fixture.visitAt
              renderOutput fixture.spr (fixture.def 0.5) 1 2 0 0 0
              [[fixture.hit 3; fixture.miss 9]; [fixture.hit 2]]
              [fixture.hit 3; fixture.miss 9] final)
    as [_ Hrun].
  - right. right. vm_compute. discriminate.
  - destruct Hrun as (s & Hs & Hd); try reflexivity; try lia; try exact E.
    exists final, s. auto.
Defined.

(** C1, as it is worded for every pixel, fails when the edge threshold is
    0: the one pixel of this scene has no samples, and the pipeline leaves
    it with the index 1, the black of the palette. *)
Lemma transparent_pixel_dithered :
  let renderOutput := [[[]]] : raycaster.RenderOutput in
  index renderOutput 0 = Ok [[]]
  /\ exists s,
       GetShaderOutput (rules := fixture.rules) fixture.visitAt renderOutput
                       fixture.spr (fixture.def 0) 1 1 = Ok [[s]]
       /\ DitheredIndex s = 1 /\ DitheredIndex s <> 0.
Proof.
  intros renderOutput. split; [reflexivity |].
  eexists. split; [vm_compute; reflexivity |].
  split; [reflexivity | discriminate].
Qed.

Section MaskColour.
Context `{rules : sample.Rules}.
Variable visit : Z -> Z -> gmap Z float -> list (Z * float).
Variable renderOutput : raycaster.RenderOutput.
Variable spr : manifest.Sprite.
Variable def : manifest.Definition_.
Variables width height : Z.

(** C10: a call of the ditherer leaves IsMaskColour of its pixel true when
    it was true or when the index it chose is a special colour, and as it
    was otherwise; and after the whole pipeline IsMaskColour of a pixel is
    true exactly when the index that the ditherer chose for the pixel in
    pass 1 or the one it chose in pass 2 is a special colour, the second of
    which is the final DitheredIndex. *)
Theorem IsMaskColour_history (x y : Z) (final : ShaderOutput) :
  (forall output x y error errCurr pcc scc reg errNext d,
      ditherOutput def output x y error errCurr pcc scc reg errNext = Ok d ->
      exists s s',
        pixel output x y = Ok s /\ pixel (grid d) x y = Ok s'
        /\ IsMaskColour s' = IsMaskColour s || colour.IsSpecialColour (manifest.Palette def) (bestIndex d))
  /\ (GetShaderOutput visit renderOutput spr def width height = Ok final ->
      0 <= x < width -> 0 <= y < height ->
      exists (st1 before1 before2 : Pass) (d1 d2 : Dithered) (s : ShaderInfo),
        afterPass1 visit renderOutput spr def width height = Ok st1
        /\ dither def x y before1 = Ok d1
        /\ pixel (passGrid st1) x y = pixel (grid d1) x y
        /\ dither def x y before2 = Ok d2
        /\ pixel final x y = pixel (grid d2) x y
        /\ pixel final x y = Ok s
        /\ DitheredIndex s = bestIndex d2
        /\ IsMaskColour s = colour.IsSpecialColour (manifest.Palette def) (bestIndex d1) || colour.IsSpecialColour (manifest.Palette def) (bestIndex d2)).
Proof.
  split.
  { intros output x' y' error errCurr pcc scc reg errNext d H.
    destruct (ditherOutput_cell _ _ _ _ _ _ _ _ _ _ _ H)
      as (s & s' & Hs & Hs' & _ & Hm & _).
    exists s, s'. auto. }
  intros Hrun Hx Hy.
  destruct (GetShaderOutput_stages _ _ _ _ _ _ _ Hrun)
    as (shaded & seg & st1 & st1' & st2 & Hshade & Hseg & Hp1 & Hafter & _
        & Hgrid & Hp2 & ->).
  destruct (shadeStage_cell _ _ _ _ _ _ _ x y Hshade Hx Hy) as (s0 & Hs0 & Hfrom).
  destruct (shadedFrom_fresh _ _ _ _ _ _ _ Hfrom) as [_ Hfresh].
  destruct (gridsApart_cell _ _ _ _ _ (segmentStage_frame _ _ _ _ _ Hseg) Hs0)
    as (s1 & Hs1 & Es1).
  destruct (pass1Stage_start _ _ _ _ _ Hp1) as (st0 & Hst0 & Hloop1).
  (* the round of the cell in pass 1 *)
  destruct (passLoop_at (fun g => pixel g x y) (fun _ => True) width height
              (pass1Pixel def) x y st0 st1 Hx Hy)
    as (b1 & a1 & _ & Hround1 & Hb1 & Ha1);
    [auto | auto | | exact I | exact Hloop1 |].
  { intros x' y' s s' _ _ Hne _ E. exact (pass1Pixel_other _ _ _ _ _ _ _ E Hne). }
  cbv beta in Hb1, Ha1.
  apply pass1Pixel_dither in Hround1 as (d1 & Hd1 & Hg1).
  pose proof Hd1 as Hc1. unfold dither in Hc1.
  destruct (ditherOutput_cell _ _ _ _ _ _ _ _ _ _ _ Hc1)
    as (p1 & p1' & Hp & Hp' & _ & Hm1 & _).
  rewrite Hb1, Hst0, Hs1 in Hp. injection Hp as <-.
  assert (Hmask1 : IsMaskColour p1' = colour.IsSpecialColour (manifest.Palette def) (bestIndex d1)).
  { rewrite Hm1, Es1. cbn [IsMaskColour with_Region]. rewrite Hfresh.
    reflexivity. }
  (* the round of the cell in pass 2 *)
  destruct (passLoop_at (fun g => pixel g x y) (fun _ => True) width height
              (pass2Pixel def) x y st1' st2 Hx Hy)
    as (b2 & a2 & _ & Hround2 & Hb2 & Ha2);
    [auto | auto | | exact I | exact Hp2 |].
  { intros x' y' s s' _ _ Hne _ E. exact (pass2Pixel_other _ _ _ _ _ _ _ E Hne). }
  cbv beta in Hb2, Ha2.
  apply pass2Pixel_dither in Hround2 as (p2 & output & d2 & Hq & Hset & Hd2 & Hg2).
  pose proof Hd2 as Hc2. unfold dither in Hc2. cbn [passGrid] in Hc2.
  destruct (ditherOutput_cell _ _ _ _ _ _ _ _ _ _ _ Hc2)
    as (q & q' & Hq0 & Hq' & Hidx & Hm2 & _).
  rewrite (pixel_setPixel_same _ _ _ _ _ Hset) in Hq0. injection Hq0 as <-.
  rewrite Hb2, Hgrid, <- Ha1, Hg1, Hp' in Hq. injection Hq as <-.
  exists st1, b1, (mkPass output (errCurr b2) (errNext b2) (regions b2)),
    d1, d2, q'.
  split; [exact Hafter |]. split; [exact Hd1 |].
  split; [rewrite <- Hg1; symmetry; exact Ha1 |]. split; [exact Hd2 |].
  split; [rewrite <- Hg2; symmetry; exact Ha2 |].
  split; [rewrite <- Ha2, Hg2; exact Hq' |]. split; [exact Hidx |].
  rewrite Hm2.
  destruct (stretchPixel_kept def (regions b2) p1') as (_ & -> & _).
  rewrite Hmask1. reflexivity.
Qed.
End MaskColour.

Lemma IsMaskColour_history_witness :
  let renderOutput := [[[fixture.hit 3]; [fixture.hit 2]]] in
  exists final s,
    GetShaderOutput (rules := fixture.rules) fixture.visitAt renderOutput
                    fixture.spr fixture.defCC 1 2 = Ok final
    /\ pixel final 0 0 = Ok s
    /\ IsMaskColour s = true /\ DitheredIndex s = 3.
Proof.
  intros renderOutput.
  destruct (GetShaderOutput (rules := fixture.rules) fixture.visitAt
              renderOutput fixture.spr fixture.defCC 1 2)
    as [final | |] eqn:E; [| vm_compute in E; discriminate E ..].
  destruct (IsMaskColour_history (rules := fixture.rules) fixture.visitAt
              renderOutput fixture.spr fixture.defCC 1 2 0 0 final)
    as [_ Hrun].
  destruct (Hrun E ltac:(lia) ltac:(lia))
    as (st1 & b1 & b2 & d1 & d2 & s & _ & _ & _ & _ & _ & Hs & Hidx & Hmask).
  exists final, s. split; [reflexivity |]. split; [exact Hs |].
  vm_compute in E. injection E as <-. vm_compute in Hs. injection Hs as <-.
  split; reflexivity.
Defined.

(** ** The statistics of pass 1 *)

(** C2 at a failing input: the one pixel of this scene has the modal index
    1 and makes up region 1, whose range holds index 1 only; the ditherer
    gives it index 2, of another range, and after pass 1 the Size of region
    1 is 0, not the 1 pixel that carries the region: the incremented record
    is stored back only under the in-range test. *)
Theorem Size_misses_pixel :
  let renderOutput := [[[fixture.hitWith 1 1; fixture.hitWith 3 0.75]]] in
  exists st1 s,
    afterPass1 (rules := fixture.rules) fixture.visitAt renderOutput
               fixture.spr fixture.def2 1 1 = Ok st1
    /\ passGrid st1 = [[s]]
    /\ Region s = 1 /\ ModalIndex s = 1 /\ DitheredIndex s = 2
    /\ Size (regionOf (regions st1) 1) = 0.
Proof.
  intros renderOutput.
  destruct (afterPass1 (rules := fixture.rules) fixture.visitAt renderOutput
              fixture.spr fixture.def2 1 1) as [st1 | |] eqn:E;
    [| vm_compute in E; discriminate E ..].
  vm_compute in E. injection E as <-.
  eexists _, _. split; [reflexivity |]. repeat split.
Qed.

(** ** The regions *)

(** C3 at a failing input: in a column of two pixels the upper one has the
    modal index 4, whose palette entry has no range, and the lower one has
    no samples, so its modal index is 0; entry 0 has no range either, the
    flood fill from the upper pixel takes the two nil pointers for the same
    range and gives the lower pixel region 1. *)
Theorem empty_pixel_in_region :
  let renderOutput := [[[fixture.hit 4]; []]] in
  exists upper lower,
    GetShaderOutput (rules := fixture.rules) fixture.visitAt renderOutput
                    fixture.spr (fixture.def 0.5) 1 2 = Ok [[upper; lower]]
    /\ ModalIndex upper = 4 /\ Region upper = 1
    /\ ModalIndex lower = 0 /\ Region lower = 1.
Proof.
  intros renderOutput. eexists _, _.
  split; [vm_compute; reflexivity |]. repeat split.
Qed.

(** ** The regions that the scan finds

    The flood fill gives its region id to the cells that are joined to its
    seed through cells of the seed's range, and to no others; the scan
    therefore leaves every cell of a nonzero modal index in a region, one
    region id along every path of neighbours of one range, and one
    connected set of cells per region id. *)

Lemma marked_dec (r : Z) (g : ShaderOutput) (x y : Z) :
  marked r g x y \/ ~ marked r g x y.
Proof.
  unfold marked. destruct (pixel g x y) as [s | |].
  - destruct (decide (Region s = r)); [left; eauto |].
    right. intros (s' & [= <-] & E). contradiction.
  - right. intros (s' & E & _). discriminate.
  - right. intros (s' & E & _). discriminate.
Qed.

Lemma matching_apart (pal : colour.Palette) (R : colour.RangePtr)
    (g g' : ShaderOutput) (x y : Z) :
  gridsApart g g' -> (matching pal R g x y <-> matching pal R g' x y).
Proof.
  intros H. specialize (H x y). unfold matching.
  destruct (pixel g x y) as [s | |], (pixel g' x y) as [s' | |];
    cbn [regionApart] in H; try contradiction.
  - split; intros (t & [= <-] & E); eexists; (split; [reflexivity |]);
      rewrite <- E; rewrite H; reflexivity.
  - split; intros (t & E & _); discriminate.
Qed.

Lemma shape_apart (w h : Z) (g g' : ShaderOutput) :
  gridsApart g g' -> shape w h g -> shape w h g'.
Proof.
  intros H Hs x y. rewrite <- (Hs x y). specialize (H x y).
  destruct (pixel g x y) as [s | |], (pixel g' x y) as [s' | |];
    cbn [regionApart] in H; try contradiction;
    split; intros [t E]; try discriminate; eauto.
Qed.

Lemma filled_refl (pal : colour.Palette) (R : colour.RangePtr) (r : Z)
    (g : ShaderOutput) : filled pal R r g g.
Proof.
  split; auto using gridsApart_refl. intros x y H1 H2. contradiction.
Qed.

Lemma filled_trans (pal : colour.Palette) (R : colour.RangePtr) (r : Z)
    (g g1 g2 : ShaderOutput) :
  filled pal R r g g1 -> filled pal R r g1 g2 -> filled pal R r g g2.
Proof.
  intros [A1 M1 R1 N1] [A2 M2 R2 N2]. split.
  - eapply gridsApart_trans; eassumption.
  - auto.
  - intros x y H. rewrite (R2 x y H). apply R1. intros H1. apply H, M2, H1.
  - intros x y H0 H2. destruct (marked_dec r g1 x y) as [H1 | H1].
    + destruct (N1 x y H0 H1) as [Hm Hc]. split; [exact Hm |].
      intros x' y' Ha Hn. apply M2. exact (Hc x' y' Ha Hn).
    + destruct (N2 x y H1 H2) as [Hm Hc]. split.
      * apply (matching_apart pal R g g1 x y A1). exact Hm.
      * intros x' y' Ha Hn. apply (Hc x' y' Ha).
        apply (matching_apart pal R g g1 x' y' A1). exact Hn.
Qed.

Lemma linked_start (pal : colour.Palette) (R : colour.RangePtr)
    (g : ShaderOutput) (x y x' y' : Z) :
  linked pal R g x y x' y' -> matching pal R g x y.
Proof. induction 1; auto. Qed.

Lemma linked_trans (pal : colour.Palette) (R : colour.RangePtr)
    (g : ShaderOutput) (x y x1 y1 x2 y2 : Z) :
  linked pal R g x y x1 y1 -> linked pal R g x1 y1 x2 y2 ->
  linked pal R g x y x2 y2.
Proof.
  intros H1 H2. induction H2 as [| a b c d _ IH Hadj Hm]; [exact H1 |].
  eapply linked_step; eauto.
Qed.

Lemma adjacent_sym (x y x' y' : Z) : adjacent x y x' y' -> adjacent x' y' x y.
Proof. unfold adjacent. lia. Qed.

Lemma linked_sym (pal : colour.Palette) (R : colour.RangePtr)
    (g : ShaderOutput) (x y x' y' : Z) :
  linked pal R g x y x' y' -> linked pal R g x' y' x y.
Proof.
  intros H. pose proof (linked_start _ _ _ _ _ _ _ H) as Hs.
  induction H as [| a b c d H IH Hadj Hm]; [apply linked_here; assumption |].
  eapply linked_trans; [| exact IH].
  eapply linked_step; [apply linked_here; exact Hm | |].
  - apply adjacent_sym. exact Hadj.
  - destruct H; assumption.
Qed.

Lemma linked_apart (pal : colour.Palette) (R : colour.RangePtr)
    (g g' : ShaderOutput) (x y x' y' : Z) :
  gridsApart g g' -> linked pal R g x y x' y' -> linked pal R g' x y x' y'.
Proof.
  intros Ha H. induction H as [Hm | a b c d _ IH Hadj Hm].
  - apply linked_here. apply (matching_apart pal R g g' x y Ha). exact Hm.
  - eapply linked_step; [exact IH | exact Hadj |].
    apply (matching_apart pal R g g' c d Ha). exact Hm.
Qed.

Lemma gridsApart_sym (g g' : ShaderOutput) : gridsApart g g' -> gridsApart g' g.
Proof.
  intros H x y. specialize (H x y).
  destruct (pixel g x y) as [s | |], (pixel g' x y) as [s' | |];
    cbn [regionApart] in *; try contradiction; auto.
  rewrite H. destruct s; reflexivity.
Qed.

Lemma int_steps (x w : Z) :
  GoInt.in_range w -> 0 <= x < w ->
  GoInt.sub x 1 = x - 1 /\ GoInt.add x 1 = x + 1 /\ GoInt.sub w 1 = w - 1.
Proof.
  unfold GoInt.sub, GoInt.add, GoInt.in_range, GoInt.MinInt64, GoInt.MaxInt64.
  intros Hw Hx.
  repeat split; apply wrap64_id;
    unfold GoInt.in_range, GoInt.MinInt64, GoInt.MaxInt64; lia.
Qed.

Lemma marked_setPixel (r : Z) (g g1 : ShaderOutput) (x y x' y' : Z)
    (s : ShaderInfo) :
  pixel g x y = Ok s -> Region s <> r ->
  setPixel g x y (with_Region s r) = Ok g1 ->
  (marked r g1 x' y' <-> marked r g x' y' \/ (x', y') = (x, y)).
Proof.
  intros Hp Hne Hs. unfold marked.
  destruct (decide ((x', y') = (x, y))) as [E | E].
  - injection E as -> ->. rewrite (pixel_setPixel_same _ _ _ _ _ Hs). split.
    + auto.
    + intros _. eexists. split; reflexivity.
  - rewrite (pixel_setPixel_other _ _ _ _ _ _ _ Hs E). split; [auto |].
    intros [H | H]; [exact H | contradiction].
Qed.

(** The flood fill from a cell of the grid. *)
Lemma floodFill_filled (pal : colour.Palette) (R : colour.RangePtr) (r w h : Z)
    (depth : nat) :
  GoInt.in_range w -> GoInt.in_range h ->
  forall (g g' : ShaderOutput) (x y : Z) (b : bool),
    shape w h g -> 0 <= x < w -> 0 <= y < h ->
    floodFill depth g r x y w h pal R = Ok (g', b) ->
    filled pal R r g g'
    /\ (matching pal R g x y -> marked r g' x y)
    /\ (forall x' y', ~ marked r g x' y' -> marked r g' x' y' ->
          linked pal R g x y x' y').
Proof.
  intros Hw Hh. induction depth as [| depth IH];
    intros g g' x y b Hshape Hx Hy H; [discriminate H |].
  rewrite floodFill_unfold in H. cbv zeta in H.
  apply bind_Ok in H as (s & Hp & H).
  destruct (negb _ || _) eqn:Hc.
  { injection H as <- _. split; [apply filled_refl |]. split.
    - intros (s' & Hs' & Hr). rewrite Hp in Hs'. injection Hs' as <-.
      unfold rangeOf in Hr. unfold colour.ptr_eqb in Hc.
      rewrite bool_decide_eq_true_2 in Hc by exact Hr. cbn [negb orb] in Hc.
      exists s. split; [exact Hp |]. apply Z.eqb_eq. exact Hc.
    - intros x' y' H0 H1. contradiction. }
  apply orb_false_iff in Hc as [Hrange Hregion].
  apply negb_false_iff in Hrange. unfold colour.ptr_eqb in Hrange.
  apply bool_decide_eq_true_1 in Hrange. apply Z.eqb_neq in Hregion.
  apply bind_Ok in H as (g1 & Hset & H).
  destruct (int_steps x w Hw Hx) as (Ex1 & Ex2 & Ew).
  destruct (int_steps y h Hh Hy) as (Ey1 & Ey2 & Eh).
  rewrite Ex1, Ex2, Ew, Ey1, Ey2, Eh in H.
  pose proof (gridsApart_setRegion _ _ _ _ _ _ Hp Hset) as A1.
  (* one guarded call *)
  assert (Hwhen : forall cond x' y' o o',
            shape w h o -> (cond = true <-> (0 <= x' < w /\ 0 <= y' < h)) ->
            when cond (fun o => floodFill depth o r x' y' w h pal R) o = Ok o' ->
            filled pal R r o o'
            /\ (matching pal R o x' y' -> marked r o' x' y')
            /\ (forall a b, ~ marked r o a b -> marked r o' a b ->
                  linked pal R o x' y' a b)).
  { intros cond x' y' o o' Ho Hcond Hcall. unfold when in Hcall.
    destruct cond.
    - apply bind_Ok in Hcall as ([o'' b'] & Hf & Hcall).
      injection Hcall as <-. destruct Hcond as [Hcond _].
      destruct (Hcond eq_refl). exact (IH _ _ _ _ _ Ho H0 H1 Hf).
    - injection Hcall as <-. split; [apply filled_refl |]. split.
      + intros (t & Ht & _). destruct Hcond as [_ Hcond].
        assert (false = true); [| discriminate]. apply Hcond.
        apply (Ho x' y'). eauto.
      + intros a b' H0 H1. contradiction. }
  apply bind_Ok in H as (g2 & H2 & H). apply bind_Ok in H as (g3 & H3 & H).
  apply bind_Ok in H as (g4 & H4 & H). apply bind_Ok in H as (g5 & H5 & H).
  injection H as <- _.
  pose proof (shape_apart _ _ _ _ A1 Hshape) as S1.
  destruct (Hwhen (0 <? x) (x - 1) y g1 g2 S1
              ltac:(rewrite Z.ltb_lt; lia) H2) as (F2 & D2 & L2).
  pose proof (shape_apart _ _ _ _ (fill_apart _ _ _ _ _ F2) S1) as S2.
  destruct (Hwhen (0 <? y) x (y - 1) g2 g3 S2
              ltac:(rewrite Z.ltb_lt; lia) H3) as (F3 & D3 & L3).
  pose proof (shape_apart _ _ _ _ (fill_apart _ _ _ _ _ F3) S2) as S3.
  destruct (Hwhen (x <? w - 1) (x + 1) y g3 g4 S3
              ltac:(rewrite Z.ltb_lt; lia) H4) as (F4 & D4 & L4).
  pose proof (shape_apart _ _ _ _ (fill_apart _ _ _ _ _ F4) S3) as S4.
  destruct (Hwhen (y <? h - 1) x (y + 1) g4 g5 S4
              ltac:(rewrite Z.ltb_lt; lia) H5) as (F5 & D5 & L5).
  pose proof (filled_trans _ _ _ _ _ _ F2 F3) as F13.
  pose proof (filled_trans _ _ _ _ _ _ F13 F4) as F14.
  pose proof (filled_trans _ _ _ _ _ _ F14 F5) as F15.
  assert (Hseed : marked r g5 x y).
  { apply (fill_mono _ _ _ _ _ F15).
    apply (marked_setPixel r g g1 x y x y s Hp Hregion Hset). right. reflexivity. }
  assert (Hhere : matching pal R g x y) by (exists s; auto).
  assert (A2 : gridsApart g g2)
    by (eapply gridsApart_trans; [exact A1 | exact (fill_apart _ _ _ _ _ F2)]).
  assert (A3 : gridsApart g g3)
    by (eapply gridsApart_trans; [exact A2 | exact (fill_apart _ _ _ _ _ F3)]).
  assert (A4 : gridsApart g g4)
    by (eapply gridsApart_trans; [exact A3 | exact (fill_apart _ _ _ _ _ F4)]).
  assert (Hvia : forall o a b x' y',
            gridsApart g o -> adjacent x y x' y' ->
            linked pal R o x' y' a b -> linked pal R g x y a b).
  { intros o a b' x' y' Ao Hadj Hl.
    apply (linked_apart _ _ _ _ _ _ _ _ (gridsApart_sym _ _ Ao)) in Hl.
    eapply linked_trans; [| exact Hl].
    eapply linked_step; [apply linked_here; exact Hhere | exact Hadj |].
    exact (linked_start _ _ _ _ _ _ _ Hl). }
  split; [| split; [intros _; exact Hseed |]].
  2:{ intros x' y' Hn0 Hn5.
      destruct (decide ((x', y') = (x, y))) as [E | E].
      { injection E as -> ->. apply linked_here. exact Hhere. }
      assert (Hn1 : ~ marked r g1 x' y').
      { intros Hm1.
        apply (marked_setPixel r g g1 x y x' y' s Hp Hregion Hset) in Hm1
          as [Hm1 | Hm1]; contradiction. }
      destruct (marked_dec r g2 x' y') as [M2 | N2].
      { apply (Hvia g1 x' y' (x - 1) y A1); [unfold adjacent; lia | auto]. }
      destruct (marked_dec r g3 x' y') as [M3 | N3].
      { apply (Hvia g2 x' y' x (y - 1) A2); [unfold adjacent; lia | auto]. }
      destruct (marked_dec r g4 x' y') as [M4 | N4].
      { apply (Hvia g3 x' y' (x + 1) y A3); [unfold adjacent; lia | auto]. }
      apply (Hvia g4 x' y' x (y + 1) A4); [unfold adjacent; lia | auto]. }
  split.
  - eapply gridsApart_trans; [exact A1 | exact (fill_apart _ _ _ _ _ F15)].
  - intros x' y' Hm. apply (fill_mono _ _ _ _ _ F15).
    apply (marked_setPixel r g g1 x y x' y' s Hp Hregion Hset). left. exact Hm.
  - intros x' y' Hn. rewrite (fill_rest _ _ _ _ _ F15 x' y' Hn).
    apply (pixel_setPixel_other _ _ _ _ _ _ _ Hset).
    intros E. injection E as -> ->. contradiction.
  - intros x' y' Hn0 Hn5.
    destruct (decide ((x', y') = (x, y))) as [E | E].
    + injection E as -> ->. split; [exists s; auto |].
      intros x' y' Hadj Hm.
      pose proof (proj1 (matching_apart pal R g g1 x' y' A1) Hm) as Hm1.
      pose proof (proj1 (matching_apart pal R g1 g2 x' y'
                           (fill_apart _ _ _ _ _ F2)) Hm1) as Hm2.
      pose proof (proj1 (matching_apart pal R g2 g3 x' y'
                           (fill_apart _ _ _ _ _ F3)) Hm2) as Hm3.
      pose proof (proj1 (matching_apart pal R g3 g4 x' y'
                           (fill_apart _ _ _ _ _ F4)) Hm3) as Hm4.
      destruct Hadj as [[-> [-> | ->]] | [-> [-> | ->]]].
      * apply (fill_mono _ _ _ _ _ F5), D4, Hm3.
      * apply (fill_mono _ _ _ _ _ F5), (fill_mono _ _ _ _ _ F4),
          (fill_mono _ _ _ _ _ F3), D2, Hm1.
      * apply D5, Hm4.
      * apply (fill_mono _ _ _ _ _ F5), (fill_mono _ _ _ _ _ F4), D3, Hm2.
    + assert (Hn1 : ~ marked r g1 x' y').
      { intros Hm1.
        apply (marked_setPixel r g g1 x y x' y' s Hp Hregion Hset) in Hm1
          as [Hm1 | Hm1]; contradiction. }
      destruct (fill_new _ _ _ _ _ F15 x' y' Hn1 Hn5) as [Hm Hc]. split.
      * apply (matching_apart pal R g g1 x' y' A1). exact Hm.
      * intros x'' y'' Hadj Hm''. apply (Hc x'' y'' Hadj).
        apply (matching_apart pal R g g1 x'' y'' A1). exact Hm''.
Qed.

(** A loop whose rounds hand an invariant on from one position to the
    next. *)
Lemma forFrom_steps {St : Type} (P : Z -> St -> Prop) (count : nat) :
  forall (i : Z) (body : Z -> St -> result St) (s s' : St),
    (forall j st st', i <= j < i + Z.of_nat count -> P j st ->
                      body j st = Ok st' -> P (j + 1) st') ->
    P i s -> forFrom count i body s = Ok s' -> P (i + Z.of_nat count) s'.
Proof.
  induction count as [| count IH]; intros i body s s' Hbody Hs H;
    cbn [forFrom] in H.
  - injection H as <-. replace (i + Z.of_nat 0) with i by lia. exact Hs.
  - apply bind_Ok in H as (s1 & H1 & H).
    replace (i + Z.of_nat (S count)) with (i + 1 + Z.of_nat count) by lia.
    apply (IH (i + 1) body s1 s'); [| | exact H].
    + intros j st st' Hj. apply Hbody. lia.
    + apply (Hbody i s s1); [lia | exact Hs | exact H1].
Qed.

Lemma forRange_steps {St : Type} (P : Z -> St -> Prop) (n : Z)
    (body : Z -> St -> result St) (s s' : St) :
  0 <= n ->
  (forall j st st', 0 <= j < n -> P j st -> body j st = Ok st' ->
                    P (j + 1) st') ->
  P 0 s -> forRange n body s = Ok s' -> P n s'.
Proof.
  intros Hn Hbody Hs H.
  replace n with (0 + Z.of_nat (Z.to_nat n)) at 1 by lia.
  apply (forFrom_steps P (Z.to_nat n) 0 body s s'); [| exact Hs | exact H].
  intros j st st' Hj. apply Hbody. lia.
Qed.

Lemma apart_cell (g g' : ShaderOutput) (x y : Z) (s' : ShaderInfo) :
  gridsApart g g' -> pixel g' x y = Ok s' ->
  exists s, pixel g x y = Ok s /\ s' = with_Region s (Region s').
Proof.
  intros H Hp. specialize (H x y). rewrite Hp in H.
  destruct (pixel g x y) as [s | |]; cbn [regionApart] in H;
    try contradiction.
  eauto.
Qed.

Lemma segmentPixel_scanned (def : manifest.Definition_) (w h x y : Z)
    (st st' : Segmentation) :
  GoInt.in_range w -> GoInt.in_range h -> w * h < GoInt.MaxInt64 ->
  0 <= x < w -> 0 <= y < h ->
  scanned (manifest.Palette def) w h (x * h + y) st ->
  segmentPixel def w h x y st = Ok st' ->
  scanned (manifest.Palette def) w h (x * h + y + 1) st'.
Proof.
  intros Hw Hh Hwh Hx Hy [Hshape Hids Hcount Hsame Hdone Hlinked] H.
  unfold segmentPixel in H. apply bind_Ok in H as (s & Hp & H).
  assert (Hkeep : ModalIndex s = 0 \/ Region s <> 0 ->
            scanned (manifest.Palette def) w h (x * h + y + 1) st).
  { intros Hs. split; auto; [lia |].
    intros x' y' s' Hlt Hy' Hp' Hm.
    destruct (decide ((x', y') = (x, y))) as [E | E].
    - injection E as -> ->. rewrite Hp in Hp'. injection Hp' as <-.
      destruct Hs; [contradiction | assumption].
    - apply (Hdone x' y' s'); auto.
      assert (x' * h + y' <> x * h + y); [| lia].
      intros Eq. apply E.
      assert (x' = x) by nia. subst x'. f_equal. lia. }
  destruct (Z.eqb_spec (ModalIndex s) 0) as [Hm0 | Hm0].
  { injection H as <-. auto. }
  destruct (Z.eqb_spec (Region s) 0) as [Hr0 | Hr0]; cbn [negb] in H.
  2:{ injection H as <-. auto. }
  apply bind_Ok in H as ([g' b] & Hfill & H). injection H as <-.
  cbn [fst segGrid currentRegion].
  set (pal := manifest.Palette def) in *.
  set (k := currentRegion st) in *. set (g := segGrid st) in *.
  destruct (floodFill_filled pal _ k w h _ Hw Hh g g' x y b Hshape Hx Hy Hfill)
    as ([Hapart Hmono Hrest Hnew] & Hseed & Hreach).
  assert (Hfresh : forall x' y', ~ marked k g x' y').
  { intros x' y' (t & Ht & Hk). pose proof (Hids _ _ _ Ht). lia. }
  assert (Hk1 : GoInt.add k 1 = k + 1).
  { unfold GoInt.add. apply wrap64_id.
    unfold GoInt.in_range, GoInt.MinInt64, GoInt.MaxInt64 in *. nia. }
  assert (Hcell : forall x' y' t', pixel g' x' y' = Ok t' ->
            (Region t' = k /\ marked k g' x' y')
            \/ (Region t' <> k /\ pixel g x' y' = Ok t')).
  { intros x' y' t' Ht'. destruct (decide (Region t' = k)) as [E | E].
    - left. split; [exact E |]. exists t'. auto.
    - right. split; [exact E |]. rewrite <- Ht'. symmetry. apply Hrest.
      intros (u & Hu & Hk). rewrite Ht' in Hu. injection Hu as <-.
      contradiction. }
  split; cbn [segGrid currentRegion].
  - exact (shape_apart _ _ _ _ Hapart Hshape).
  - intros x' y' t' Ht'. rewrite Hk1.
    destruct (Hcell _ _ _ Ht') as [[E _] | [_ Hold]].
    + fold k in Hcount. lia.
    + pose proof (Hids _ _ _ Hold). fold k in H. lia.
  - rewrite Hk1. fold k in Hcount. nia.
  - intros x1 y1 x2 y2 t1 t2 Hadj Ht1 Ht2 Hrange Hnz.
    destruct (Hcell _ _ _ Ht1) as [[E1 M1] | [N1 O1]].
    + (* the first cell was filled: its neighbour of the range was too *)
      destruct (Hnew x1 y1 (Hfresh x1 y1) M1) as [(u & Hu & Hru) Hclosed].
      destruct (apart_cell _ _ _ _ _ Hapart Ht1) as (u1 & Hu1 & E1').
      destruct (apart_cell _ _ _ _ _ Hapart Ht2) as (u2 & Hu2 & E2').
      rewrite Hu in Hu1. injection Hu1 as <-.
      destruct (Hclosed x2 y2 Hadj) as (t & Ht & Hk).
      * exists u2. split; [exact Hu2 |]. rewrite <- Hru.
        unfold rangeOf in *. rewrite E1', E2' in Hrange.
        cbn [ModalIndex with_Region] in Hrange. symmetry. exact Hrange.
      * rewrite Ht2 in Ht. injection Ht as <-. congruence.
    + (* the first cell was left alone: so was its neighbour *)
      destruct (Hcell _ _ _ Ht2) as [[E2 M2] | [N2 O2]].
      * exfalso. destruct (Hnew x2 y2 (Hfresh x2 y2) M2) as [(u & Hu & Hru) Hclosed].
        destruct (apart_cell _ _ _ _ _ Hapart Ht2) as (u2 & Hu2 & E2').
        rewrite Hu in Hu2. injection Hu2 as <-.
        destruct (Hclosed x1 y1 (adjacent_sym _ _ _ _ Hadj)) as (t & Ht & Hk).
        -- exists t1. split; [exact O1 |]. rewrite <- Hru.
           unfold rangeOf in *. rewrite E2' in Hrange.
           cbn [ModalIndex with_Region] in Hrange. exact Hrange.
        -- rewrite Ht1 in Ht. injection Ht as <-. contradiction.
      * exact (Hsame _ _ _ _ _ _ Hadj O1 O2 Hrange Hnz).
  - intros x' y' t' Hlt Hy' Ht' Hm.
    destruct (Hcell _ _ _ Ht') as [[E _] | [N Hold]].
    + fold k in Hcount. lia.
    + destruct (decide ((x', y') = (x, y))) as [E | E].
      * injection E as -> ->. exfalso.
        destruct Hseed as (t & Ht & Hk); [exists s; auto |].
        rewrite Ht' in Ht. injection Ht as <-. contradiction.
      * apply (Hdone x' y' t'); auto.
        assert (x' * h + y' <> x * h + y); [| lia].
        intros Eq. apply E.
        assert (x' = x) by nia. subst x'. f_equal. lia.
  - intros x1 y1 x2 y2 t1 t2 Ht1 Ht2 Heq Hnz.
    destruct (Hcell _ _ _ Ht1) as [[E1 M1] | [N1 O1]];
      destruct (Hcell _ _ _ Ht2) as [[E2 M2] | [N2 O2]]; try congruence.
    + pose proof (Hreach x1 y1 (Hfresh x1 y1) M1) as L1.
      pose proof (Hreach x2 y2 (Hfresh x2 y2) M2) as L2.
      destruct (Hnew x1 y1 (Hfresh x1 y1) M1) as [(u & Hu & Hru) _].
      destruct (apart_cell _ _ _ _ _ Hapart Ht1) as (u1 & Hu1 & E1').
      rewrite Hu in Hu1. injection Hu1 as <-.
      replace (rangeOf pal t1) with (rangeOf pal u)
        by (rewrite E1'; reflexivity).
      rewrite Hru. apply (linked_apart _ _ _ _ _ _ _ _ Hapart).
      eapply linked_trans; [apply linked_sym; exact L1 | exact L2].
    + apply (linked_apart _ _ _ _ _ _ _ _ Hapart).
      exact (Hlinked _ _ _ _ _ _ O1 O2 Heq Hnz).
Qed.

Lemma linked_end (pal : colour.Palette) (R : colour.RangePtr)
    (g : ShaderOutput) (x y x' y' : Z) :
  linked pal R g x y x' y' -> matching pal R g x' y'.
Proof. destruct 1; assumption. Qed.

Lemma segmentStage_scanned (def : manifest.Definition_) (w h : Z)
    (g : ShaderOutput) (seg : Segmentation) :
  GoInt.in_range w -> GoInt.in_range h -> 0 <= w -> 0 <= h ->
  w * h < GoInt.MaxInt64 ->
  shape w h g -> (forall x y s, pixel g x y = Ok s -> Region s = 0) ->
  segmentStage def w h g = Ok seg ->
  scanned (manifest.Palette def) w h (w * h) seg.
Proof.
  intros Hw Hh Hw0 Hh0 Hwh Hshape Hzero H. unfold segmentStage in H.
  apply (forRange_steps
           (fun x st => scanned (manifest.Palette def) w h (x * h) st)
           w _ _ seg Hw0) with (3 := H).
  - intros x st st' Hx Hst E.
    replace ((x + 1) * h) with (x * h + h) by lia.
    apply (forRange_steps
             (fun y st => scanned (manifest.Palette def) w h (x * h + y) st)
             h _ _ st' Hh0) with (3 := E).
    + intros y a b' Hy Ha Eb.
      replace (x * h + (y + 1)) with (x * h + y + 1) by lia.
      exact (segmentPixel_scanned def w h x y a b' Hw Hh Hwh Hx Hy Ha Eb).
    + replace (x * h + 0) with (x * h) by lia. exact Hst.
  - split; cbn [segGrid currentRegion].
    + exact Hshape.
    + intros x y s Hs. rewrite (Hzero _ _ _ Hs). lia.
    + lia.
    + intros x y x' y' s s' _ Hs _ _ Hnz. rewrite (Hzero _ _ _ Hs) in Hnz.
      contradiction.
    + intros x y s Hlt Hy Hs _.
      assert (0 <= x) by (apply (Hshape x y); eauto). nia.
    + intros x y x' y' s s' Hs _ _ Hnz. rewrite (Hzero _ _ _ Hs) in Hnz.
      contradiction.
Qed.

(** The regions that the scan leaves on a grid of [w] columns of [h] cells
    that had none: a cell without a region has the modal index 0; along
    every path of neighbours through cells of one range the region is the
    same; and two cells of one region are joined by such a path. *)
Theorem segmentStage_regions (def : manifest.Definition_) (w h : Z)
    (g : ShaderOutput) (seg : Segmentation) :
  GoInt.in_range w -> GoInt.in_range h -> 0 <= w -> 0 <= h ->
  w * h < GoInt.MaxInt64 ->
  shape w h g -> (forall x y s, pixel g x y = Ok s -> Region s = 0) ->
  segmentStage def w h g = Ok seg ->
  let pal := manifest.Palette def in
  (forall x y s, pixel (segGrid seg) x y = Ok s -> Region s = 0 ->
                 ModalIndex s = 0)
  /\ (forall x y x' y' s s',
        linked pal (rangeOf pal s) (segGrid seg) x y x' y' ->
        pixel (segGrid seg) x y = Ok s -> pixel (segGrid seg) x' y' = Ok s' ->
        Region s' = Region s)
  /\ (forall x y x' y' s s',
        pixel (segGrid seg) x y = Ok s -> pixel (segGrid seg) x' y' = Ok s' ->
        Region s = Region s' -> Region s <> 0 ->
        linked pal (rangeOf pal s) (segGrid seg) x y x' y').
Proof.
  intros Hw Hh Hw0 Hh0 Hwh Hshape Hzero H pal.
  destruct (segmentStage_scanned def w h g seg Hw Hh Hw0 Hh0 Hwh Hshape Hzero H)
    as [Sshape Sids Scount Ssame Sdone Slinked].
  fold pal in Ssame, Slinked.
  assert (Hadj : forall x y x' y' s s',
            adjacent x y x' y' ->
            pixel (segGrid seg) x y = Ok s -> pixel (segGrid seg) x' y' = Ok s' ->
            rangeOf pal s = rangeOf pal s' -> Region s' = Region s).
  { intros x y x' y' s s' Ha Hs Hs' Hr.
    destruct (decide (Region s = 0)) as [E | E];
      [| exact (Ssame _ _ _ _ _ _ Ha Hs Hs' Hr E)].
    destruct (decide (Region s' = 0)) as [E' | E']; [congruence |].
    symmetry.
    exact (Ssame _ _ _ _ _ _ (adjacent_sym _ _ _ _ Ha) Hs' Hs (eq_sym Hr) E'). }
  split; [| split].
  - intros x y s Hs Hr. destruct (decide (ModalIndex s = 0)) as [E | E];
      [exact E | exfalso].
    assert (Hin : 0 <= x < w /\ 0 <= y < h) by (apply (Sshape x y); eauto).
    apply (Sdone x y s); try assumption; [nia | lia].
  - intros x y x' y' s s' Hl. revert s'.
    induction Hl as [Hm | x1 y1 x2 y2 Hl IH Ha Hm]; intros s' Hs Hs'.
    + congruence.
    + destruct (linked_end _ _ _ _ _ _ _ Hl) as (s1 & Hs1 & Hr1).
      destruct Hm as (s2 & Hs2 & Hr2). rewrite Hs' in Hs2.
      injection Hs2 as <-.
      rewrite <- (IH s1 Hs Hs1).
      apply (Hadj x1 y1 x2 y2 s1 s' Ha Hs1 Hs'). congruence.
  - exact Slinked.
Qed.

Lemma columnsMade_setPixel (w h x x' y' : Z) (o o' : ShaderOutput)
    (s : ShaderInfo) :
  setPixel o x' y' s = Ok o' -> columnsMade w h x o -> columnsMade w h x o'.
Proof.
  intros H [Hlen Hcols].
  apply setPixel_Ok in H as (Hx & Hy & column & old & Hc & Ho & ->).
  split; [rewrite length_insert; exact Hlen |].
  intros i c Hi. destruct (decide (i = Z.to_nat x')) as [-> | Hne].
  - rewrite list_lookup_insert_eq in Hi by (eapply lookup_lt_Some; eassumption).
    injection Hi as <-. rewrite length_insert.
    destruct (Hcols _ _ Hc) as [H1 H2]. split; [exact H1 |].
    intros Hge. rewrite (H2 Hge) in Ho. rewrite lookup_nil in Ho.
    discriminate Ho.
  - rewrite list_lookup_insert_ne in Hi by congruence. exact (Hcols _ _ Hi).
Qed.

Lemma columnsMade_shape (w h : Z) (o : ShaderOutput) :
  0 <= w -> columnsMade w h w o -> shape w h o.
Proof.
  intros Hw [Hlen Hcols] x y. split.
  - intros (s & Hp). apply pixel_Ok in Hp as (Hx & Hy & column & Hc & Hs).
    pose proof (lookup_lt_Some _ _ _ Hc) as Lx.
    destruct (Hcols _ _ Hc) as [Hh _].
    pose proof (lookup_lt_Some _ _ _ Hs) as Ly.
    rewrite Hh in Ly by lia. split; lia.
  - intros [Hx Hy].
    destruct (lookup_lt_is_Some_2 o (Z.to_nat x) ltac:(lia)) as [column Hc].
    destruct (Hcols _ _ Hc) as [Hh _].
    destruct (lookup_lt_is_Some_2 column (Z.to_nat y)
                ltac:(rewrite Hh by lia; lia)) as [s Hs].
    exists s. apply pixel_Ok.
    split; [lia |]. split; [lia |]. exists column. auto.
Qed.

Section ShadedShape.
Context `{rules : sample.Rules}.
Variable visit : Z -> Z -> gmap Z float -> list (Z * float).
Variable renderOutput : raycaster.RenderOutput.
Variable spr : manifest.Sprite.
Variable def : manifest.Definition_.
Variables width height : Z.

Lemma shadePixel_columnsMade (k x y : Z) (o o' : ShaderOutput) :
  shadePixel visit renderOutput spr def width height x y o = Ok o' ->
  columnsMade width height k o -> columnsMade width height k o'.
Proof.
  unfold shadePixel. intros H Hc.
  destruct (_ || _) in H; [injection H as <-; exact Hc |].
  inv_bind H. exact (columnsMade_setPixel _ _ _ _ _ _ _ _ H Hc).
Qed.

Lemma shadeStage_columnsMade (output : ShaderOutput) :
  shadeStage visit renderOutput spr def width height = Ok output ->
  0 <= width /\ columnsMade width height width output.
Proof.
  unfold shadeStage. intros H. apply bind_Ok in H as (o0 & Hmake & H).
  unfold make in Hmake. destruct (Z.ltb_spec width 0) as [| Hw];
    [discriminate |]. injection Hmake as <-. split; [exact Hw |].
  apply (forRange_steps (fun x o => columnsMade width height x o)
           width _ _ output Hw) with (3 := H).
  - intros x o o' Hx [Hlen Hcols] E. inv_bind E.
    unfold make in Ha. destruct (Z.ltb_spec height 0) as [| Hh];
      [discriminate |]. injection Ha as <-.
    apply store_Ok in Ha0 as (_ & Hlt & ->).
    apply (forRange_inv (columnsMade width height (x + 1)) height
             (shadePixel visit renderOutput spr def width height x)
             (<[Z.to_nat x := replicate (Z.to_nat height) zeroShaderInfo]> o)
             o');
      [| | exact E].
    + intros y st st' _ Hst Est.
      exact (shadePixel_columnsMade _ _ _ _ _ Est Hst).
    + split; [rewrite length_insert; exact Hlen |].
      intros i c Hi. destruct (decide (i = Z.to_nat x)) as [-> | Hne].
      * rewrite list_lookup_insert_eq in Hi by exact Hlt.
        injection Hi as <-. rewrite length_replicate. split; [reflexivity |].
        lia.
      * rewrite list_lookup_insert_ne in Hi by congruence.
        destruct (Hcols _ _ Hi) as [H1 H2]. split; intros Hi'.
        -- apply H1. lia.
        -- apply H2. lia.
  - split; [apply length_replicate |].
    intros i c Hi. apply lookup_replicate in Hi as [-> _].
    split; [lia | reflexivity].
Qed.

(** The shading stage returns a grid of [width] columns of [height] cells,
    none of which has a region. *)
Lemma shadeStage_shape (output : ShaderOutput) :
  shadeStage visit renderOutput spr def width height = Ok output ->
  0 <= width /\ shape width height output
  /\ forall x y s, pixel output x y = Ok s -> Region s = 0.
Proof.
  intros H. destruct (shadeStage_columnsMade output H) as [Hw Hc].
  pose proof (columnsMade_shape _ _ _ Hw Hc) as Hshape.
  split; [exact Hw |]. split; [exact Hshape |].
  intros x y s Hs.
  assert (Hin : 0 <= x < width /\ 0 <= y < height)
    by (apply (Hshape x y); eauto).
  destruct Hin as [Hx Hy].
  destruct (shadeStage_cell visit renderOutput spr def width height output
              x y H Hx Hy) as (s' & Hs' & Hfrom).
  rewrite Hs in Hs'. injection Hs' as <-.
  exact (proj1 (shadedFrom_fresh visit renderOutput spr def x y s Hfrom)).
Qed.

(** X1. The regions after the segmentation of the shaded grid: a cell without
    a region has the modal index 0; along every path of neighbours through
    cells of one range the region is the same; and two cells of one region
    are joined by such a path. *)
Theorem regions_after_segmentation (output : ShaderOutput)
    (seg : Segmentation) :
  GoInt.in_range width -> GoInt.in_range height ->
  width * height < GoInt.MaxInt64 ->
  shadeStage visit renderOutput spr def width height = Ok output ->
  segmentStage def width height output = Ok seg ->
  let pal := manifest.Palette def in
  (forall x y s, pixel (segGrid seg) x y = Ok s -> Region s = 0 ->
                 ModalIndex s = 0)
  /\ (forall x y x' y' s s',
        linked pal (rangeOf pal s) (segGrid seg) x y x' y' ->
        pixel (segGrid seg) x y = Ok s -> pixel (segGrid seg) x' y' = Ok s' ->
        Region s' = Region s)
  /\ (forall x y x' y' s s',
        pixel (segGrid seg) x y = Ok s -> pixel (segGrid seg) x' y' = Ok s' ->
        Region s = Region s' -> Region s <> 0 ->
        linked pal (rangeOf pal s) (segGrid seg) x y x' y').
Proof.
  intros Hw Hh Hwh Hshade Hseg.
  destruct (shadeStage_shape output Hshade) as (Hw0 & Hshape & Hzero).
  destruct (Z.le_gt_cases 0 height) as [Hh0 | Hneg].
  - exact (segmentStage_regions def width height output seg
             Hw Hh Hw0 Hh0 Hwh Hshape Hzero Hseg).
  - assert (Hnone : forall x y s, pixel (segGrid seg) x y = Ok s -> False).
    { intros x y s Hs.
      pose proof (shape_apart _ _ _ _ (segmentStage_frame _ _ _ _ _ Hseg)
                    Hshape) as Hshape'.
      assert (0 <= x < width /\ 0 <= y < height)
        by (apply (Hshape' x y); eauto). lia. }
    intros pal. split; [| split].
    + intros x y s Hs. destruct (Hnone _ _ _ Hs).
    + intros x y x' y' s s' _ Hs. destruct (Hnone _ _ _ Hs).
    + intros x y x' y' s s' Hs. destruct (Hnone _ _ _ Hs).
Qed.

End ShadedShape.

(** ** The depth given to the flood fill is never the outcome

    [segmentPixel] calls [floodFill] with a depth of one more than the
    number of cells; no stage of the pipeline ends [OutOfFuel], so every
    outcome of [GetShaderOutput] is a return or a panic of the source. *)

Lemma bind_fueled {A B : Type} (m : result A) (k : A -> result B) :
  m <> OutOfFuel -> (forall a, m = Ok a -> k a <> OutOfFuel) ->
  bind m k <> OutOfFuel.
Proof. destruct m; cbn [bind]; auto. Qed.

Lemma index_fueled {A : Type} (l : list A) (i : Z) : index l i <> OutOfFuel.
Proof.
  unfold index. destruct (i <? 0); [discriminate |].
  destruct (l !! Z.to_nat i); discriminate.
Qed.

Lemma store_fueled {A : Type} (l : list A) (i : Z) (a : A) :
  store l i a <> OutOfFuel.
Proof.
  unfold store. destruct (i <? 0); [discriminate |].
  destruct (l !! Z.to_nat i); discriminate.
Qed.

Lemma make_fueled {A : Type} (z : A) (n : Z) : make z n <> OutOfFuel.
Proof. unfold make. destruct (n <? 0); discriminate. Qed.

Lemma setPixel_fueled (output : ShaderOutput) (x y : Z) (s : ShaderInfo) :
  setPixel output x y s <> OutOfFuel.
Proof.
  unfold setPixel. apply bind_fueled; [apply index_fueled |]. intros c _.
  apply bind_fueled; [apply store_fueled |]. intros c' _. apply store_fueled.
Qed.

Lemma forFrom_fueled {S : Type} (count : nat) :
  forall (i : Z) (body : Z -> S -> result S) (s : S),
    (forall j st, body j st <> OutOfFuel) -> forFrom count i body s <> OutOfFuel.
Proof.
  induction count as [| count IH]; intros i body s Hbody; cbn [forFrom];
    [discriminate |].
  apply bind_fueled; [apply Hbody |]. intros s' _. apply IH, Hbody.
Qed.

Lemma forRange_fueled {S : Type} (n : Z) (body : Z -> S -> result S) (s : S) :
  (forall j st, body j st <> OutOfFuel) -> forRange n body s <> OutOfFuel.
Proof. apply forFrom_fueled. Qed.

(** The tactic that walks a chain of binds whose links cannot run out. *)
Ltac fueled :=
  repeat first
    [ apply index_fueled | apply store_fueled | apply make_fueled
    | apply setPixel_fueled | apply pixel_fuel | discriminate
    | apply bind_fueled; [| intros ? _]
    | match goal with
      | |- (if ?c then _ else _) <> OutOfFuel => destruct c
      | |- (let (_, _) := ?p in _) <> OutOfFuel => destruct p
      | |- match ?p with Some _ => _ | None => _ end <> OutOfFuel => destruct p
      end ].

Lemma ditherOutput_fueled (def : manifest.Definition_) (output : ShaderOutput)
    (x y : Z) (error : colour.RGB)
    (errCurr pcc scc reg errNext : list colour.RGB) :
  ditherOutput def output x y error errCurr pcc scc reg errNext <> OutOfFuel.
Proof.
  unfold ditherOutput, choose, target, diffuse, addAt. fueled.
Qed.

Lemma stretchRegions_fueled (pal : colour.Palette) (regions : gmap Z RegionInfo) :
  stretchRegions pal regions <> OutOfFuel.
Proof.
  unfold stretchRegions.
  assert (H : forall (l : list (Z * RegionInfo))
                     (acc : result (gmap Z RegionInfo)),
            acc <> OutOfFuel ->
            fold_left
              (fun acc kv =>
                 let* m := acc in
                 let* r := stretchRegion pal (snd kv) in
                 Ok (<[fst kv := r]> m)) l acc <> OutOfFuel).
  { induction l as [| kv l IH]; intros acc Hacc; cbn [fold_left];
      [exact Hacc |].
    apply IH. unfold stretchRegion. fueled. exact Hacc. }
  apply H. discriminate.
Qed.

Section Fueled.
Context `{rules : sample.Rules}.
Variable visit : Z -> Z -> gmap Z float -> list (Z * float).
Variable renderOutput : raycaster.RenderOutput.
Variable spr : manifest.Sprite.
Variable def : manifest.Definition_.
Variables width height : Z.

Lemma segmentPixel_fueled (x y : Z) (st : Segmentation) :
  segmentPixel def width height x y st <> OutOfFuel.
Proof.
  unfold segmentPixel. apply bind_fueled; [apply pixel_fuel | intros s _].
  destruct (ModalIndex s =? 0); [discriminate |].
  destruct (negb (Region s =? 0)); [discriminate |].
  apply bind_fueled; [| intros ? _; discriminate].
  intros E.
  pose proof (floodFill_spent (S (cells (segGrid st))) (segGrid st)
                (currentRegion st) x y width height (manifest.Palette def)
                (colour.Range (colour.Entries (manifest.Palette def)
                                              (ModalIndex s)))) as Hs.
  pose proof (pending_le_cells (currentRegion st) (segGrid st)).
  rewrite E in Hs. apply Hs. lia.
Qed.

Lemma shadeStage_fueled :
  shadeStage visit renderOutput spr def width height <> OutOfFuel.
Proof.
  unfold shadeStage. apply bind_fueled; [apply make_fueled | intros o _].
  apply forRange_fueled. intros x st.
  apply bind_fueled; [apply make_fueled | intros c _].
  apply bind_fueled; [apply store_fueled | intros o' _].
  apply forRange_fueled. intros y st'. unfold shadePixel. fueled.
Qed.

Lemma segmentStage_fueled (output : ShaderOutput) :
  segmentStage def width height output <> OutOfFuel.
Proof.
  unfold segmentStage. apply forRange_fueled. intros x st.
  apply forRange_fueled. intros y st'. apply segmentPixel_fueled.
Qed.

Lemma passLoop_fueled (body : Z -> Z -> Pass -> result Pass) (st : Pass) :
  (forall x y s, body x y s <> OutOfFuel) ->
  passLoop width height body st <> OutOfFuel.
Proof.
  intros Hbody. unfold passLoop. apply forRange_fueled. intros x s.
  apply bind_fueled; [| intros ? _; discriminate].
  apply forRange_fueled. intros y s'. apply Hbody.
Qed.

Lemma pass1Pixel_fueled (x y : Z) (st : Pass) :
  pass1Pixel def x y st <> OutOfFuel.
Proof.
  unfold pass1Pixel, dither.
  apply bind_fueled; [apply ditherOutput_fueled | intros d _].
  apply bind_fueled; [apply pixel_fuel | intros s _].
  apply bind_fueled; [| intros ? _; discriminate].
  unfold updateStats, countIndex. fueled.
Qed.

Lemma pass2Pixel_fueled (x y : Z) (st : Pass) :
  pass2Pixel def x y st <> OutOfFuel.
Proof.
  unfold pass2Pixel, dither.
  apply bind_fueled; [apply pixel_fuel | intros s _].
  apply bind_fueled; [apply setPixel_fueled | intros o _].
  apply bind_fueled; [apply ditherOutput_fueled | intros d _]. discriminate.
Qed.

Theorem GetShaderOutput_fueled :
  GetShaderOutput visit renderOutput spr def width height <> OutOfFuel.
Proof.
  unfold GetShaderOutput, afterPass1.
  apply bind_fueled; [| intros st1 _].
  - apply bind_fueled; [apply shadeStage_fueled | intros o _].
    apply bind_fueled; [apply segmentStage_fueled | intros seg _].
    unfold pass1Stage.
    apply bind_fueled; [apply make_fueled | intros r1 _].
    apply bind_fueled; [apply make_fueled | intros r2 _].
    apply passLoop_fueled, pass1Pixel_fueled.
  - apply bind_fueled; [| intros st1' _].
    + unfold stretchStage.
      apply bind_fueled; [apply stretchRegions_fueled |].
      intros ? _; discriminate.
    + apply bind_fueled; [| intros ? _; discriminate].
      apply passLoop_fueled, pass2Pixel_fueled.
Qed.
End Fueled.

(** ** More of the pipeline

    Edge cases of the sizes, what each stage writes and what it leaves
    alone, the statistics of the regions, and the conditions under which
    [GetShaderOutput] returns. *)

(** *** GetRegion, and the sizes of the image *)

(** X2. [GetRegion] tells 64 regions apart and no more: two pixels whose
    regions are not negative and leave the same remainder on division by 64
    get the same colour. *)
Theorem GetRegion_period (s s' : ShaderInfo) :
  0 <= Region s <= GoInt.MaxInt64 -> 0 <= Region s' <= GoInt.MaxInt64 ->
  Region s mod 64 = Region s' mod 64 ->
  GetRegion s = GetRegion s'.
Proof.
  assert (Hdigits : forall r, 0 <= r <= GoInt.MaxInt64 ->
            Z.rem r 4 = (r mod 64) mod 4
            /\ Z.rem (GoInt.quot r 4) 4 = (r mod 64) / 4 mod 4
            /\ Z.rem (GoInt.quot r 16) 4 = (r mod 64) / 16 mod 4).
  { intros r Hr.
    assert (Hin : GoInt.in_range r)
      by (unfold GoInt.in_range, GoInt.MinInt64, GoInt.MaxInt64 in *; lia).
    rewrite !quot_small by (assumption || lia).
    rewrite !Z.quot_div_nonneg by lia.
    rewrite !Z.rem_mod_nonneg by (try apply Z.div_pos; lia).
    repeat split; Z.div_mod_to_equations; lia. }
  intros Hs Hs' Hmod. unfold GetRegion.
  destruct (Hdigits _ Hs) as (E1 & E2 & E3).
  destruct (Hdigits _ Hs') as (E1' & E2' & E3').
  unfold GoInt.rem. rewrite E1, E2, E3, E1', E2', E3', Hmod. reflexivity.
Qed.

Lemma GetRegion_period_witness :
  GetRegion (fixture.pixelWith 1 0) = GetRegion (fixture.pixelWith 65 0).
Proof.
  apply GetRegion_period; vm_compute; try split; congruence.
Defined.

Section Sizes.
Context `{rules : sample.Rules}.
Variable visit : Z -> Z -> gmap Z float -> list (Z * float).
Variable renderOutput : raycaster.RenderOutput.
Variable spr : manifest.Sprite.
Variable def : manifest.Definition_.

(** X3. A negative width, and a negative height of an image that has
    columns, make [GetShaderOutput] panic: the slices cannot be made. *)
Theorem GetShaderOutput_negative_size (width height : Z) :
  width < 0 \/ (0 < width /\ height < 0) ->
  GetShaderOutput visit renderOutput spr def width height = Panic.
Proof.
  intros H. unfold GetShaderOutput, afterPass1, shadeStage, make.
  destruct H as [Hw | [Hw Hh]].
  - destruct (Z.ltb_spec width 0); [reflexivity | lia].
  - destruct (Z.ltb_spec width 0); [lia |]. cbn [bind].
    unfold forRange. destruct (Z.to_nat width) as [| n] eqn:E; [lia |].
    cbn [forFrom bind]. destruct (Z.ltb_spec height 0); [reflexivity | lia].
Qed.


End Sizes.

Lemma GetShaderOutput_negative_size_witness :
  GetShaderOutput (rules := fixture.rules) fixture.visitAt [] fixture.spr
                  (fixture.def 0.5) (-1) 3 = Panic.
Proof.
  apply GetShaderOutput_negative_size. left. lia.
Defined.


(** *** The loop over the regions *)

Lemma stretchRegion_Panic (pal : colour.Palette) (r : RegionInfo) :
  stretchRegion pal r = Panic <-> 1 < Size r /\ Range r = None.
Proof.
  unfold stretchRegion. destruct (Z.ltb_spec 1 (Size r)).
  - destruct (Range r); cbn [bind]; split; try discriminate; auto.
    intros [_ [=]].
  - split; [discriminate | lia].
Qed.

Lemma stretchRegion_fuel (pal : colour.Palette) (r : RegionInfo) :
  stretchRegion pal r <> OutOfFuel.
Proof.
  unfold stretchRegion. destruct (1 <? Size r); [| discriminate].
  destruct (Range r); cbn [bind]; discriminate.
Qed.

Lemma stretchRegions_fold (pal : colour.Palette)
    (l : list (Z * RegionInfo)) :
  NoDup l.*1 ->
  forall m : gmap Z RegionInfo,
    match fold_left
            (fun acc kv =>
               let* m := acc in
               let* r := stretchRegion pal (snd kv) in
               Ok (<[fst kv := r]> m))
            l (Ok m) with
    | Ok m' =>
        (forall k r, (k, r) ∈ l ->
           exists r', stretchRegion pal r = Ok r' /\ m' !! k = Some r')
        /\ (forall k, k ∉ l.*1 -> m' !! k = m !! k)
    | Panic => exists k r, (k, r) ∈ l /\ stretchRegion pal r = Panic
    | OutOfFuel => False
    end.
Proof.
  induction l as [| [k0 r0] l IH]; intros Hnd m; cbn [fold_left].
  - split; [| reflexivity]. intros k r Hin. apply elem_of_nil in Hin as [].
  - apply NoDup_cons in Hnd as [Hk0 Hnd]. cbn [bind fst snd].
    destruct (stretchRegion pal r0) as [r0' | |] eqn:E0; cbn [bind].
    + specialize (IH Hnd (<[k0 := r0']> m)).
      match goal with
      | |- match ?t with _ => _ end => destruct t as [m' | |]
      end; [| | exact IH].
      * destruct IH as [IH1 IH2]. split.
        -- intros k r Hin. apply elem_of_cons in Hin as [[= -> ->] | Hin].
           ++ exists r0'. split; [exact E0 |].
              rewrite (IH2 k0 Hk0). apply lookup_insert_eq.
           ++ exact (IH1 k r Hin).
        -- intros k Hk. cbn [fmap list_fmap fst] in Hk.
           apply not_elem_of_cons in Hk as [Hne Hk].
           rewrite (IH2 k Hk). apply lookup_insert_ne. congruence.
      * destruct IH as (k & r & Hin & Hp). exists k, r.
        split; [apply elem_of_cons; right; exact Hin | exact Hp].
    + assert (Hstuck : forall l' : list (Z * RegionInfo),
                fold_left
                  (fun (acc : result (gmap Z RegionInfo)) kv =>
                     let* m := acc in
                     let* r := stretchRegion pal (snd kv) in
                     Ok (<[fst kv := r]> m)) l' Panic = Panic)
        by (induction l' as [| kv l' IHl']; [reflexivity | exact IHl']).
      rewrite Hstuck. exists k0, r0. split; [apply elem_of_cons; left |]; auto.
    + destruct (stretchRegion_fuel pal r0 E0).
Qed.

(** X5. The loop over the regions after pass 1 works on every region by
    itself, whatever the order in which the map is walked: when it returns,
    each region of the map has been replaced by what the loop body makes of
    it, which is the region with a new [Distance] when its [Size] is above 1
    and the region itself otherwise, and no key has come or gone; it panics
    just when some region of a [Size] above 1 has a nil [Range]. *)
Theorem stretchRegions_each (pal : colour.Palette)
    (regions : gmap Z RegionInfo) :
  match stretchRegions pal regions with
  | Ok regions' =>
      forall k,
        match regions !! k with
        | Some r =>
            exists r', regions' !! k = Some r'
                       /\ stretchRegion pal r = Ok r'
                       /\ r' = mkRegionInfo (ModalCount r) (AverageColour r)
                                 (Distance r') (MinIndex r) (MaxIndex r)
                                 (Size r) (SizeInRange r) (Range r)
                       /\ (Size r <= 1 -> r' = r)
        | None => regions' !! k = None
        end
  | Panic => exists k r, regions !! k = Some r /\ 1 < Size r /\ Range r = None
  | OutOfFuel => False
  end.
Proof.
  unfold stretchRegions.
  pose proof (stretchRegions_fold pal (map_to_list regions)
                (NoDup_fst_map_to_list regions) regions) as H.
  match goal with
  | |- match ?t with _ => _ end => destruct t as [m' | |]
  end; [| | exact H].
  - destruct H as [H1 H2]. intros k.
    destruct (regions !! k) as [r |] eqn:E.
    + destruct (H1 k r) as (r' & Hr & Hk);
        [apply elem_of_map_to_list; exact E |].
      exists r'. split; [exact Hk |]. split; [exact Hr |].
      unfold stretchRegion in Hr. destruct (Z.ltb_spec 1 (Size r)).
      * destruct (Range r) eqn:ER; cbn [bind] in Hr; [| discriminate].
        injection Hr as <-. cbn. split; [reflexivity | lia].
      * injection Hr as <-. split; [destruct r; reflexivity | reflexivity].
    + rewrite (H2 k); [exact E |].
      intros Hin. apply list_elem_of_fmap in Hin as ([k' r] & -> & Hin).
      apply elem_of_map_to_list in Hin. cbn in E. congruence.
  - destruct H as (k & r & Hin & Hp). exists k, r.
    apply elem_of_map_to_list in Hin. apply stretchRegion_Panic in Hp. auto.
Qed.

(** *** The bounds of the ditherer *)

(** X6. The bounds of [ditherOutput]: it returns just when the pixel
    (x, y) is in the grid and both error rows have more than [y + 2]
    cells; otherwise it panics. *)
Theorem ditherOutput_bounds (def : manifest.Definition_)
    (output : ShaderOutput) (x y : Z) (error : colour.RGB)
    (errCurr pcc scc reg errNext : list colour.RGB) :
  (exists d, ditherOutput def output x y error errCurr pcc scc reg errNext
             = Ok d)
  <-> (exists s, pixel output x y = Ok s)
      /\ (Z.to_nat y + 2 < length errCurr)%nat
      /\ (Z.to_nat y + 2 < length errNext)%nat.
Proof.
  split.
  - intros [d H]. unfold ditherOutput in H. inv_bind H.
    destruct a0 as [[tgt best] s1]. inv_bind H. destruct a1 as [rc rn].
    apply diffuse_Ok in Ha2 as (_ & n0 & n1 & n2 & c2 & _ & _ & Hn & Hc & _).
    apply lookup_lt_Some in Hn, Hc. split; [eauto |]. lia.
  - intros ([s Hs] & Hc & Hn).
    apply (ditherOutput_returns def output x y error errCurr pcc scc reg
             errNext s Hs); [| exact Hc | exact Hn].
    intros Hy. apply pixel_Ok in Hs as (Hx & _ & column & Hcol & Hcell).
    destruct (lookup_lt_is_Some_2 column (Z.to_nat (y - 1))) as [above Ha].
    { apply lookup_lt_Some in Hcell. lia. }
    exists above. apply pixel_Ok. split; [lia |]. split; [lia |]. eauto.
Qed.

(** *** The modal vote and the samples *)

Lemma voteStep_led (seen : list (Z * float)) (st : Vote) (kv : Z * float) :
  voted seen st ->
  (st = mkVote 0 0 0 \/ F64.gt (max st) 0 = true) ->
  (alternateModal st = 0
   \/ exists v, (alternateModal st, v) ∈ seen /\ F64.lt v (max st) = true) ->
  let st' := voteStep st kv in
  (st' = mkVote 0 0 0 \/ F64.gt (max st') 0 = true)
  /\ (alternateModal st' = 0
      \/ exists v, (alternateModal st', v) ∈ seen ++ [kv]
                   /\ F64.lt v (max st') = true).
Proof.
  intros [_ Hmodal] Hpos Halt. destruct kv as [k v]. cbn [voteStep].
  destruct (F64.gt v (max st)) eqn:E; cbn [max alternateModal modal].
  - split.
    + right. destruct Hpos as [-> | Hpos]; [exact E |].
      unfold F64.gt in *. exact (lt_trans _ _ _ Hpos E).
    + destruct Hmodal as [Hin | ->]; [| left; reflexivity].
      right. exists (max st). split; [| exact E].
      apply elem_of_app. left. exact Hin.
  - split; [exact Hpos |].
    destruct Halt as [H0 | (w & Hin & Hw)]; [left; exact H0 |].
    right. exists w. split; [| exact Hw]. apply elem_of_app. left. exact Hin.
Qed.

Lemma vote_led (rest : list (Z * float)) :
  forall (seen : list (Z * float)) (st : Vote),
    voted seen st ->
    (st = mkVote 0 0 0 \/ F64.gt (max st) 0 = true) ->
    (alternateModal st = 0
     \/ exists v, (alternateModal st, v) ∈ seen /\ F64.lt v (max st) = true) ->
    let st' := fold_left voteStep rest st in
    voted (seen ++ rest) st'
    /\ (st' = mkVote 0 0 0 \/ F64.gt (max st') 0 = true)
    /\ (alternateModal st' = 0
        \/ exists v, (alternateModal st', v) ∈ seen ++ rest
                     /\ F64.lt v (max st') = true).
Proof.
  induction rest as [| kv rest IH]; intros seen st Hv Hpos Halt;
    cbn [fold_left].
  - rewrite app_nil_r. auto.
  - replace (seen ++ kv :: rest) with ((seen ++ [kv]) ++ rest)
      by (rewrite <- app_assoc; reflexivity).
    destruct (voteStep_led seen st kv Hv Hpos Halt) as [Hpos' Halt'].
    exact (IH (seen ++ [kv]) (voteStep st kv)
              (voteStep_voted seen st kv Hv) Hpos' Halt').
Qed.

Lemma vote_keys (visited : list (Z * float)) :
  (modal (vote visited) = 0 \/ exists w, (modal (vote visited), w) ∈ visited)
  /\ (alternateModal (vote visited) = 0
      \/ exists w, (alternateModal (vote visited), w) ∈ visited).
Proof.
  assert (Hinit : voted [] (mkVote 0 0 0)).
  { split; [| right; reflexivity]. intros k v Hin.
    apply elem_of_nil in Hin as []. }
  destruct (vote_led visited [] (mkVote 0 0 0) Hinit
              (or_introl eq_refl) (or_introl eq_refl))
    as ([_ Hmodal] & _ & Halt).
  cbn [app] in Hmodal, Halt. fold (vote visited) in *. split.
  - destruct Hmodal as [Hin | ->]; [right; eauto | left; reflexivity].
  - destruct Halt as [E | (w & Hin & _)]; [left; exact E | right; eauto].
Qed.

(** X7. The loop [for k, v := range values] of [shade], whatever the order
    in which it walks the map: no value visited is greater than the one of
    the modal index it ends with, which is a key visited whose value is
    above 0, unless no value is above 0 and the modal index stays 0; and
    the alternate modal is 0 or a key visited whose value is less than
    that of the modal index. *)
Theorem vote_maximal (visited : list (Z * float)) :
  let st := vote visited in
  (forall k v, (k, v) ∈ visited -> F64.gt v (max st) = false)
  /\ ((st = mkVote 0 0 0
       /\ forall k v, (k, v) ∈ visited -> F64.gt v 0 = false)
      \/ ((modal st, max st) ∈ visited /\ F64.gt (max st) 0 = true))
  /\ (alternateModal st = 0
      \/ exists v, (alternateModal st, v) ∈ visited
                   /\ F64.lt v (max st) = true).
Proof.
  assert (Hinit : voted [] (mkVote 0 0 0)).
  { split; [| right; reflexivity]. intros k v Hin.
    apply elem_of_nil in Hin as []. }
  destruct (vote_led visited [] (mkVote 0 0 0) Hinit
              (or_introl eq_refl) (or_introl eq_refl))
    as ([Hmax Hmodal] & Hpos & Halt).
  cbn [app] in Hmax, Hmodal, Halt. fold (vote visited) in *.
  cbv zeta. split; [exact Hmax |]. split; [| exact Halt].
  destruct Hpos as [E | Hpos].
  - left. split; [exact E |]. intros k v Hin.
    specialize (Hmax k v Hin). rewrite E in Hmax. exact Hmax.
  - right. split; [| exact Hpos].
    destruct Hmodal as [Hin | E]; [exact Hin |].
    rewrite E in Hpos. cbn [max] in Hpos. discriminate Hpos.
Qed.

Section Sampled.
Context `{rules : sample.Rules}.

Lemma bump_keys (values : gmap Z float) (k k' : Z) (d : float) :
  is_Some (bump values k d !! k') -> k' = k \/ is_Some (values !! k').
Proof.
  unfold bump. destruct (decide (k' = k)) as [-> | Hne]; [auto |].
  rewrite lookup_insert_ne by congruence. auto.
Qed.

Lemma tallySample_keys (def : manifest.Definition_) (minDepth : Z)
    (t : Tally) (s : raycaster.RenderSample) (k : Z) :
  is_Some (values (tallySample def minDepth t s) !! k) ->
  is_Some (values t !! k)
  \/ (raycaster.Collision s = true
      /\ colour.IsRenderable (manifest.Palette def) (raycaster.Index s) = true
      /\ raycaster.Index s = k).
Proof.
  unfold tallySample. cbn [values raycaster.with_Influence raycaster.Collision
                           raycaster.Index raycaster.Influence].
  destruct (raycaster.Collision s); cbn [andb values]; [| auto].
  destruct (colour.IsRenderable _ _); cbn [values]; [| auto].
  intros H.
  destruct (negb (raycaster.Index s =? 0));
    destruct (colour.IsSpecialColour _ _);
    repeat match type of H with
           | is_Some (bump _ _ _ !! _) =>
               apply bump_keys in H as [-> | H]; [right; auto |]
           end; auto.
Qed.

Lemma tally_keys (def : manifest.Definition_) (info : raycaster.RenderInfo)
    (k : Z) :
  is_Some (values (tally def info) !! k) ->
  exists s, s ∈ info /\ raycaster.Collision s = true
            /\ colour.IsRenderable (manifest.Palette def) (raycaster.Index s)
               = true
            /\ raycaster.Index s = k.
Proof.
  unfold tally. generalize (minDepthOf info). intros minDepth.
  assert (H : forall l t,
            is_Some (values (fold_left (tallySample def minDepth) l t) !! k) ->
            is_Some (values t !! k)
            \/ exists s, s ∈ l /\ raycaster.Collision s = true
                 /\ colour.IsRenderable (manifest.Palette def)
                      (raycaster.Index s) = true
                 /\ raycaster.Index s = k).
  { induction l as [| s l IH]; intros t Hk; cbn [fold_left] in Hk; [auto |].
    destruct (IH _ Hk) as [Ht | (s' & Hin & Hs')].
    - destruct (tallySample_keys _ _ _ _ _ Ht) as [Ht' | Hs]; [auto |].
      right. exists s. split; [apply elem_of_cons; auto | exact Hs].
    - right. exists s'. split; [apply elem_of_cons; auto | exact Hs']. }
  intros Hk. destruct (H info emptyTally Hk) as [He | Hs]; [| exact Hs].
  cbn [emptyTally values] in He. rewrite lookup_empty in He.
  destruct He as [? [=]].
Qed.

(** X8. The modal index that [shade] returns is 0 or the index of a sample
    of the pixel that collided with a renderable voxel, given that the
    range statement visits pairs of the map only. *)
Theorem shade_modal_sampled (visit : gmap Z float -> list (Z * float))
    (info : raycaster.RenderInfo) (def : manifest.Definition_)
    (prevIndex : Z) :
  (forall k v, (k, v) ∈ visit (values (tally def info)) ->
               values (tally def info) !! k = Some v) ->
  ModalIndex (shade visit info def prevIndex) = 0
  \/ exists s, s ∈ info /\ raycaster.Collision s = true
       /\ colour.IsRenderable (manifest.Palette def) (raycaster.Index s) = true
       /\ raycaster.Index s = ModalIndex (shade visit info def prevIndex).
Proof.
  intros Hvisit.
  destruct (edgeDiscard def (filledSamples (tally def info))
                        (totalSamples (tally def info))) eqn:E.
  { left. unfold shade. rewrite E. reflexivity. }
  destruct (shade_kept visit info def prevIndex E) as (-> & _ & _).
  destruct (vote_keys (visit (values (tally def info)))) as [Hmodal Halt].
  set (v := vote (visit (values (tally def info)))) in *.
  assert (Hkey : forall k, (exists w, (k, w) ∈ visit (values (tally def info))) ->
            exists s, s ∈ info /\ raycaster.Collision s = true
              /\ colour.IsRenderable (manifest.Palette def) (raycaster.Index s)
                 = true
              /\ raycaster.Index s = k).
  { intros k [w Hin]. apply tally_keys. rewrite (Hvisit k w Hin). eauto. }
  unfold antiBanding.
  destruct (_ && _).
  - destruct Halt as [-> | Hin]; [left; reflexivity |].
    right. apply Hkey. exact Hin.
  - destruct Hmodal as [-> | Hin]; [left; reflexivity |].
    right. apply Hkey. exact Hin.
Qed.

End Sampled.

Lemma shade_modal_sampled_witness :
  exists s, s ∈ [fixture.hit 1; fixture.hit 3; fixture.hit 3]
            /\ raycaster.Index s = 3.
Proof.
  destruct (shade_modal_sampled (rules := fixture.rules) fixture.visit
              [fixture.hit 1; fixture.hit 3; fixture.hit 3]
              (fixture.def 0.5) 0) as [H | (s & Hin & _ & _ & Hs)].
  - intros k v Hin. apply elem_of_map_to_list. exact Hin.
  - vm_compute in H. discriminate H.
  - exists s. split; [exact Hin |]. rewrite Hs. vm_compute. reflexivity.
Defined.

(** *** The life of a pixel *)

Section Untouched.
Context `{rules : sample.Rules}.

(** [shade] leaves the fields of the later stages at their zero values. *)
Lemma shade_untouched (visit : gmap Z float -> list (Z * float))
    (info : raycaster.RenderInfo) (def : manifest.Definition_)
    (prevIndex : Z) :
  DitheredIndex (shade visit info def prevIndex) = 0
  /\ IsAnimated (shade visit info def prevIndex) = false.
Proof.
  unfold shade.
  destruct (edgeDiscard _ _ _); [split; reflexivity |].
  assert (Hout : forall samples acc minDepth,
            DitheredIndex (output acc) = 0 /\ IsAnimated (output acc) = false ->
            let acc' := fold_left (tallySample def minDepth) samples acc in
            DitheredIndex (output acc') = 0
            /\ IsAnimated (output acc') = false).
  { induction samples as [| s samples IH]; intros acc minDepth Hacc;
      cbn [fold_left]; [exact Hacc |].
    apply IH. unfold tallySample.
    destruct (raycaster.Collision _ && colour.IsRenderable _ _);
      cbn [output]; [| exact Hacc].
    destruct (colour.IsSpecialColour _ _), (manifest.Debug def);
      cbn [DitheredIndex IsAnimated with_Specialness with_Colour
           with_SpecialColour];
      try exact Hacc.
    all: match goal with
         | |- context [Nat.iter ?n ?f ?o] =>
             assert (Hit : forall m o', DitheredIndex o' = 0
                                        /\ IsAnimated o' = false ->
                       DitheredIndex (Nat.iter m f o') = 0
                       /\ IsAnimated (Nat.iter m f o') = false)
               by (induction m as [| m IHm]; intros o' Ho'; cbn [Nat.iter];
                   [exact Ho' | exact (IHm o' Ho')]);
             apply Hit; exact Hacc
         end. }
  specialize (Hout info emptyTally (minDepthOf info) (conj eq_refl eq_refl)).
  cbv zeta in Hout. fold (tally def info) in Hout.
  destruct (manifest.SoftenEdges def), (manifest.Debug def);
    cbn [DitheredIndex IsAnimated with_debug with_Transparency
         with_Specialness with_SpecialColour with_Colour with_Alpha
         with_ModalIndex];
    exact Hout.
Qed.

Lemma shadedFrom_untouched
    (visit : Z -> Z -> gmap Z float -> list (Z * float))
    (renderOutput : raycaster.RenderOutput) (spr : manifest.Sprite)
    (def : manifest.Definition_) (x y : Z) (s : ShaderInfo) :
  shadedFrom visit renderOutput spr def x y s ->
  DitheredIndex s = 0 /\ IsAnimated s = false.
Proof.
  intros [-> | (column & info & prev & _ & _ & ->)]; [split; reflexivity |].
  apply shade_untouched.
Qed.

End Untouched.

(** What a call of the ditherer makes of its pixel. *)
Lemma ditherOutput_effect (def : manifest.Definition_)
    (output : ShaderOutput) (x y : Z) (error : colour.RGB)
    (errCurr pcc scc reg errNext : list colour.RGB) (d : Dithered) :
  ditherOutput def output x y error errCurr pcc scc reg errNext = Ok d ->
  exists s s',
    pixel output x y = Ok s
    /\ setPixel output x y s' = Ok (grid d)
    /\ undithered s' = undithered s
    /\ DitheredIndex s' = bestIndex d
    /\ IsMaskColour s'
       = IsMaskColour s
         || colour.IsSpecialColour (manifest.Palette def) (bestIndex d)
    /\ IsAnimated s' = IsAnimated s || animatedBranch def s
    /\ (animatedBranch def s = true -> bestIndex d = ModalIndex s)
    /\ length (rowCurr d) = length errCurr
    /\ length (rowNext d) = length errNext.
Proof.
  unfold ditherOutput. intros H. inv_bind H.
  destruct a0 as [[tgt best] s1]. inv_bind H. destruct a1 as [rc rn].
  injection H as <-. cbn [grid bestIndex rowCurr rowNext].
  apply diffuse_Ok in Ha2 as (_ & n0 & n1 & n2 & c2 & _ & _ & _ & _ & -> & ->).
  rewrite !length_insert.
  match type of Ha1 with
  | setPixel _ _ _ ?v = _ => exists a, v
  end.
  split; [exact Ha |]. split; [exact Ha1 |].
  assert (Hch : (s1 = a /\ animatedBranch def a = false)
                \/ (s1 = with_IsAnimated a true /\ best = ModalIndex a
                    /\ animatedBranch def a = true)).
  { unfold choose in Ha0. unfold animatedBranch.
    destruct (F64.lt _ _); [injection Ha0 as _ _ <-; left; auto |].
    destruct (colour.IsPrimaryCompanyColour _).
    { inv_bind Ha0. injection Ha0 as _ _ <-. left; auto. }
    destruct (colour.IsSecondaryCompanyColour _).
    { inv_bind Ha0. injection Ha0 as _ _ <-. left; auto. }
    destruct (colour.IsAnimatedLight _).
    { injection Ha0 as _ <- <-. right; auto. }
    inv_bind Ha0. injection Ha0 as _ _ <-. left; auto. }
  destruct Hch as [[-> Hb] | (-> & -> & Hb)]; rewrite Hb;
    destruct (colour.IsSpecialColour (manifest.Palette def) _);
    destruct a; cbn; rewrite ?orb_true_r, ?orb_false_r;
    repeat split; congruence.
Qed.

Lemma undithered_fields (s s' : ShaderInfo) :
  undithered s' = undithered s ->
  Alpha s' = Alpha s /\ ModalIndex s' = ModalIndex s /\ Region s' = Region s
  /\ Colour s' = Colour s /\ SpecialColour s' = SpecialColour s
  /\ Specialness s' = Specialness s.
Proof.
  destruct s, s'. unfold undithered. cbn. intros [=]. subst. repeat split.
Qed.

Lemma animatedBranch_fields (def : manifest.Definition_) (s s' : ShaderInfo) :
  Alpha s' = Alpha s -> ModalIndex s' = ModalIndex s ->
  animatedBranch def s' = animatedBranch def s.
Proof. unfold animatedBranch. intros -> ->. reflexivity. Qed.

Section History.
Context `{rules : sample.Rules}.
Variable visit : Z -> Z -> gmap Z float -> list (Z * float).
Variable renderOutput : raycaster.RenderOutput.
Variable spr : manifest.Sprite.
Variable def : manifest.Definition_.
Variables width height : Z.

(** The life of the pixel (x, y): what [shade] made of its samples, the
    region that the scan gave it, the call of the ditherer for it in pass
    1, the stretching of its colour and the call of the ditherer for it in
    pass 2, which leaves the pixel of the result. *)
Lemma pixel_history (x y : Z) (final : ShaderOutput) :
  GetShaderOutput visit renderOutput spr def width height = Ok final ->
  0 <= x < width -> 0 <= y < height ->
  exists (shaded : ShaderOutput) (seg : Segmentation) (st1 : Pass)
         (s0 p0 p1 p2 : ShaderInfo) (b1 b2 : Pass) (d1 d2 : Dithered),
    shadeStage visit renderOutput spr def width height = Ok shaded
    /\ segmentStage def width height shaded = Ok seg
    /\ afterPass1 visit renderOutput spr def width height = Ok st1
    /\ pixel shaded x y = Ok s0
    /\ shadedFrom visit renderOutput spr def x y s0
    /\ pixel (segGrid seg) x y = Ok p0
    /\ p0 = with_Region s0 (Region p0)
    /\ pixel (passGrid b1) x y = Ok p0
    /\ dither def x y b1 = Ok d1
    /\ pixel (grid d1) x y = Ok p1
    /\ pixel (passGrid st1) x y = Ok p1
    /\ pixel (passGrid b2) x y = Ok (stretchPixel def (regions b2) p1)
    /\ dither def x y b2 = Ok d2
    /\ pixel (grid d2) x y = Ok p2
    /\ pixel final x y = Ok p2.
Proof.
  intros Hrun Hx Hy.
  destruct (GetShaderOutput_stages _ _ _ _ _ _ _ Hrun)
    as (shaded & seg & st1 & st1' & st2 & Hshade & Hseg & Hp1 & Hafter & _
        & Hgrid & Hp2 & ->).
  destruct (shadeStage_cell _ _ _ _ _ _ _ x y Hshade Hx Hy)
    as (s0 & Hs0 & Hfrom).
  destruct (gridsApart_cell _ _ _ _ _ (segmentStage_frame _ _ _ _ _ Hseg) Hs0)
    as (p0 & Hp0 & Ep0).
  destruct (pass1Stage_start _ _ _ _ _ Hp1) as (st0 & Hst0 & Hloop1).
  destruct (passLoop_at (fun g => pixel g x y) (fun _ => True) width height
              (pass1Pixel def) x y st0 st1 Hx Hy)
    as (b1 & a1 & _ & Hround1 & Hb1 & Ha1);
    [auto | auto | | exact I | exact Hloop1 |].
  { intros x' y' s s' _ _ Hne _ E.
    exact (pass1Pixel_other _ _ _ _ _ _ _ E Hne). }
  cbv beta in Hb1, Ha1.
  apply pass1Pixel_dither in Hround1 as (d1 & Hd1 & Hg1).
  pose proof Hd1 as Hc1. unfold dither in Hc1.
  destruct (ditherOutput_effect _ _ _ _ _ _ _ _ _ _ _ Hc1)
    as (q0 & p1 & Hq0 & Hset1 & _).
  pose proof (pixel_setPixel_same _ _ _ _ _ Hset1) as Hp1'.
  rewrite Hb1, Hst0, Hp0 in Hq0. injection Hq0 as <-.
  destruct (passLoop_at (fun g => pixel g x y) (fun _ => True) width height
              (pass2Pixel def) x y st1' st2 Hx Hy)
    as (b2 & a2 & _ & Hround2 & Hb2 & Ha2);
    [auto | auto | | exact I | exact Hp2 |].
  { intros x' y' s s' _ _ Hne _ E.
    exact (pass2Pixel_other _ _ _ _ _ _ _ E Hne). }
  cbv beta in Hb2, Ha2.
  apply pass2Pixel_dither in Hround2
    as (q1 & output & d2 & Hq1 & Hset & Hd2 & Hg2).
  pose proof Hd2 as Hc2. unfold dither in Hc2. cbn [passGrid] in Hc2.
  destruct (ditherOutput_effect _ _ _ _ _ _ _ _ _ _ _ Hc2)
    as (q2 & p2 & Hq2 & Hset2 & _).
  pose proof (pixel_setPixel_same _ _ _ _ _ Hset2) as Hp2'.
  rewrite Hb2, Hgrid, <- Ha1, Hg1, Hp1' in Hq1. injection Hq1 as <-.
  exists shaded, seg, st1, s0, p0, p1, p2, b1,
    (mkPass output (errCurr b2) (errNext b2) (regions b2)), d1, d2.
  cbn [passGrid regions].
  split; [exact Hshade |]. split; [exact Hseg |]. split; [exact Hafter |].
  split; [exact Hs0 |]. split; [exact Hfrom |]. split; [exact Hp0 |].
  split; [exact Ep0 |].
  split; [rewrite Hb1, Hst0; exact Hp0 |]. split; [exact Hd1 |].
  split; [exact Hp1' |].
  split; [rewrite <- Ha1, Hg1; exact Hp1' |].
  split; [exact (pixel_setPixel_same _ _ _ _ _ Hset) |].
  split; [exact Hd2 |]. split; [exact Hp2' |].
  rewrite <- Ha2, Hg2. exact Hp2'.
Qed.

End History.

(** *** What the ditherer writes, and what the passes leave alone *)

(** X9. What [ditherOutput] writes to the grid: the fields DitheredIndex,
    IsMaskColour and IsAnimated of the pixel (x, y) and nothing else.  The
    index it returns is the one it stores; it sets IsAnimated in the branch
    of the animated lights, where the index is the modal index of the
    pixel, and never clears it; the error rows keep their lengths. *)
Theorem ditherOutput_writes (def : manifest.Definition_)
    (output : ShaderOutput) (x y : Z) (error : colour.RGB)
    (errCurr pcc scc reg errNext : list colour.RGB) (d : Dithered) :
  ditherOutput def output x y error errCurr pcc scc reg errNext = Ok d ->
  (forall x' y', (x', y') <> (x, y) ->
                 pixel (grid d) x' y' = pixel output x' y')
  /\ (exists s s',
        pixel output x y = Ok s /\ pixel (grid d) x y = Ok s'
        /\ undithered s' = undithered s
        /\ DitheredIndex s' = bestIndex d
        /\ IsAnimated s' = IsAnimated s || animatedBranch def s
        /\ (animatedBranch def s = true -> bestIndex d = ModalIndex s))
  /\ length (rowCurr d) = length errCurr
  /\ length (rowNext d) = length errNext.
Proof.
  intros H.
  destruct (ditherOutput_effect _ _ _ _ _ _ _ _ _ _ _ H)
    as (s & s' & Hs & Hset & Hu & Hd & _ & Ha & Hb & Lc & Ln).
  split; [| split; [| split; [exact Lc | exact Ln]]].
  - intros x' y' Hne. exact (pixel_setPixel_other _ _ _ _ _ _ _ Hset Hne).
  - exists s, s'. split; [exact Hs |].
    split; [exact (pixel_setPixel_same _ _ _ _ _ Hset) |]. auto.
Qed.

Lemma ditherOutput_writes_witness :
  exists s s',
    pixel [[fixture.pixelWith 1 2]] 0 0 = Ok s
    /\ undithered s' = undithered s /\ DitheredIndex s' = 1.
Proof.
  destruct (ditherOutput (fixture.def 0.5) [[fixture.pixelWith 1 2]] 0 0
              colour.zero [colour.zero; colour.zero; colour.zero]
              [] [] fixture.regular [colour.zero; colour.zero; colour.zero])
    as [d | |] eqn:E; [| vm_compute in E; discriminate E ..].
  destruct (ditherOutput_writes _ _ _ _ _ _ _ _ _ _ _ E)
    as (_ & (s & s' & Hs & _ & Hu & Hd & _) & _).
  exists s, s'. split; [exact Hs |]. split; [exact Hu |].
  rewrite Hd. vm_compute in E. injection E as <-. reflexivity.
Defined.

Lemma stretchPixel_core (def : manifest.Definition_)
    (regions : gmap Z RegionInfo) (s : ShaderInfo) :
  shadedCore (stretchPixel def regions s) = shadedCore s
  /\ DitheredIndex (stretchPixel def regions s) = DitheredIndex s
  /\ IsAnimated (stretchPixel def regions s) = IsAnimated s.
Proof.
  unfold stretchPixel. destruct (1 <? Size _); [| auto].
  destruct (colour.IsSpecialColour _ _); destruct s; repeat split.
Qed.

Lemma undithered_core (s s' : ShaderInfo) :
  undithered s' = undithered s -> shadedCore s' = shadedCore s.
Proof. unfold shadedCore. intros ->. reflexivity. Qed.

Lemma shadedCore_fields (s s' : ShaderInfo) :
  shadedCore s' = shadedCore s ->
  Alpha s' = Alpha s /\ ModalIndex s' = ModalIndex s
  /\ Specialness s' = Specialness s.
Proof.
  destruct s, s'. unfold shadedCore, undithered. cbn. intros [=]. subst.
  repeat split.
Qed.

Section Final.
Context `{rules : sample.Rules}.
Variable visit : Z -> Z -> gmap Z float -> list (Z * float).
Variable renderOutput : raycaster.RenderOutput.
Variable spr : manifest.Sprite.
Variable def : manifest.Definition_.
Variables width height : Z.

(** X10. What the stages after [shade] leave alone: in the result, every
    pixel of the image is the pixel that the first pair of loops stored for
    it (the zero value, or what [shade] made of its samples), apart from
    the region, the colour and special colour, and the three fields of the
    ditherer; its region is the one that the scan gave it. *)
Theorem final_pixel_core (x y : Z) (final : ShaderOutput) :
  GetShaderOutput visit renderOutput spr def width height = Ok final ->
  0 <= x < width -> 0 <= y < height ->
  exists (shaded : ShaderOutput) (seg : Segmentation) (s0 p0 p : ShaderInfo),
    shadeStage visit renderOutput spr def width height = Ok shaded
    /\ segmentStage def width height shaded = Ok seg
    /\ pixel shaded x y = Ok s0
    /\ shadedFrom visit renderOutput spr def x y s0
    /\ pixel (segGrid seg) x y = Ok p0
    /\ pixel final x y = Ok p
    /\ shadedCore p = shadedCore s0
    /\ Region p = Region p0.
Proof.
  intros Hrun Hx Hy.
  destruct (pixel_history visit renderOutput spr def width height x y final
              Hrun Hx Hy)
    as (shaded & seg & st1 & s0 & p0 & p1 & p2 & b1 & b2 & d1 & d2 & Hshade
        & Hseg & _ & Hs0 & Hfrom & Hp0 & Ep0 & Hb1 & Hd1 & Hp1 & _ & Hb2 & Hd2
        & Hp2 & Hfinal).
  exists shaded, seg, s0, p0, p2.
  split; [exact Hshade |]. split; [exact Hseg |]. split; [exact Hs0 |].
  split; [exact Hfrom |]. split; [exact Hp0 |]. split; [exact Hfinal |].
  unfold dither in Hd1, Hd2.
  destruct (ditherOutput_effect _ _ _ _ _ _ _ _ _ _ _ Hd1)
    as (q0 & q1 & Hq0 & Hset1 & Hu1 & _).
  rewrite Hb1 in Hq0. injection Hq0 as <-.
  rewrite (pixel_setPixel_same _ _ _ _ _ Hset1) in Hp1. injection Hp1 as ->.
  destruct (ditherOutput_effect _ _ _ _ _ _ _ _ _ _ _ Hd2)
    as (r1 & r2 & Hr1 & Hset2 & Hu2 & _).
  rewrite Hb2 in Hr1. injection Hr1 as <-.
  rewrite (pixel_setPixel_same _ _ _ _ _ Hset2) in Hp2. injection Hp2 as ->.
  destruct (stretchPixel_core def (regions b2) p1) as (Hcore & _).
  destruct (stretchPixel_kept def (regions b2) p1) as (_ & _ & _ & Hreg).
  destruct (undithered_fields _ _ Hu1) as (_ & _ & R1 & _).
  destruct (undithered_fields _ _ Hu2) as (_ & _ & R2 & _).
  split.
  - rewrite (undithered_core _ _ Hu2), Hcore, (undithered_core _ _ Hu1), Ep0.
    destruct s0; reflexivity.
  - rewrite R2, Hreg, R1. reflexivity.
Qed.

(** X11. The animated lights: in the result, IsAnimated of a pixel of the
    image is true just when the pixel takes the branch of the animated
    lights in the ditherer (it is not below the edge threshold and its
    range is one of animated lights and of neither company colour), and
    then its dithered index and its mask index are its modal index. *)
Theorem animated_pixels (x y : Z) (final : ShaderOutput) :
  GetShaderOutput visit renderOutput spr def width height = Ok final ->
  0 <= x < width -> 0 <= y < height ->
  exists s, pixel final x y = Ok s
            /\ IsAnimated s = animatedBranch def s
            /\ (IsAnimated s = true ->
                DitheredIndex s = ModalIndex s
                /\ GetMaskIndex s = ModalIndex s).
Proof.
  intros Hrun Hx Hy.
  destruct (pixel_history visit renderOutput spr def width height x y final
              Hrun Hx Hy)
    as (shaded & seg & st1 & s0 & p0 & p1 & p2 & b1 & b2 & d1 & d2 & _
        & _ & _ & _ & Hfrom & _ & Ep0 & Hb1 & Hd1 & Hp1 & _ & Hb2 & Hd2
        & Hp2 & Hfinal).
  exists p2. split; [exact Hfinal |].
  unfold dither in Hd1, Hd2.
  destruct (ditherOutput_effect _ _ _ _ _ _ _ _ _ _ _ Hd1)
    as (q0 & q1 & Hq0 & Hset1 & Hu1 & _ & _ & Ha1 & _).
  rewrite Hb1 in Hq0. injection Hq0 as <-.
  rewrite (pixel_setPixel_same _ _ _ _ _ Hset1) in Hp1. injection Hp1 as ->.
  destruct (ditherOutput_effect _ _ _ _ _ _ _ _ _ _ _ Hd2)
    as (r1 & r2 & Hr1 & Hset2 & Hu2 & Hidx & _ & Ha2 & Hbest & _).
  rewrite Hb2 in Hr1. injection Hr1 as <-.
  rewrite (pixel_setPixel_same _ _ _ _ _ Hset2) in Hp2. injection Hp2 as ->.
  destruct (shadedFrom_untouched _ _ _ _ _ _ _ Hfrom) as [_ Hfresh].
  destruct (stretchPixel_core def (regions b2) p1) as (_ & _ & Hanim).
  destruct (stretchPixel_kept def (regions b2) p1) as (Sa & _ & Sm & _).
  destruct (undithered_fields _ _ Hu1) as (A1 & M1 & _).
  destruct (undithered_fields _ _ Hu2) as (A2 & M2 & _).
  assert (Hp0 : IsAnimated p0 = false)
    by (rewrite Ep0; cbn [IsAnimated with_Region]; exact Hfresh).
  assert (B2 : animatedBranch def p2
               = animatedBranch def (stretchPixel def (regions b2) p1))
    by (apply animatedBranch_fields; assumption).
  assert (B1 : animatedBranch def (stretchPixel def (regions b2) p1)
               = animatedBranch def p0).
  { apply animatedBranch_fields; congruence. }
  assert (Hflag : IsAnimated p2 = animatedBranch def p2).
  { rewrite Ha2, Hanim, Ha1, Hp0, B2, B1. cbn [orb]. apply orb_diag. }
  split; [exact Hflag |].
  intros Htrue.
  assert (Hd : DitheredIndex p2 = ModalIndex p2).
  { rewrite Hidx, M2. apply Hbest. rewrite <- B2, <- Hflag. exact Htrue. }
  split; [exact Hd |].
  unfold GetMaskIndex. rewrite Htrue, orb_true_r. reflexivity.
Qed.

End Final.

Lemma final_pixel_core_witness :
  let renderOutput := [[[fixture.hit 3]; [fixture.hit 2]]] in
  exists final p,
    GetShaderOutput (rules := fixture.rules) fixture.visitAt renderOutput
                    fixture.spr (fixture.def 0.5) 1 2 = Ok final
    /\ pixel final 0 1 = Ok p /\ Region p = 2.
Proof.
  intros renderOutput.
  destruct (GetShaderOutput (rules := fixture.rules) fixture.visitAt
              renderOutput fixture.spr (fixture.def 0.5) 1 2)
    as [final | |] eqn:E; [| vm_compute in E; discriminate E ..].
  destruct (final_pixel_core (rules := fixture.rules) fixture.visitAt
              renderOutput fixture.spr (fixture.def 0.5) 1 2 0 1 final E
              ltac:(lia) ltac:(lia))
    as (shaded & seg & s0 & p0 & p & Hshade & Hseg & _ & _ & Hp0 & Hp & _ & Hr).
  exists final, p. split; [reflexivity |]. split; [exact Hp |].
  rewrite Hr. vm_compute in Hshade. injection Hshade as <-.
  vm_compute in Hseg. injection Hseg as <-.
  vm_compute in Hp0. injection Hp0 as <-. reflexivity.
Defined.

Lemma animated_pixels_witness :
  let renderOutput := [[[fixture.hit 3]; [fixture.hit 2]]] in
  exists final s,
    GetShaderOutput (rules := fixture.rules) fixture.visitAt renderOutput
                    fixture.spr scenes.defLight 1 2 = Ok final
    /\ pixel final 0 0 = Ok s /\ IsAnimated s = true /\ DitheredIndex s = 3.
Proof.
  intros renderOutput.
  destruct (GetShaderOutput (rules := fixture.rules) fixture.visitAt
              renderOutput fixture.spr scenes.defLight 1 2)
    as [final | |] eqn:E; [| vm_compute in E; discriminate E ..].
  destruct (animated_pixels (rules := fixture.rules) fixture.visitAt
              renderOutput fixture.spr scenes.defLight 1 2 0 0 final E
              ltac:(lia) ltac:(lia))
    as (s & Hs & Hflag & Hidx).
  exists final, s. split; [reflexivity |]. split; [exact Hs |].
  vm_compute in E. injection E as <-. vm_compute in Hs. injection Hs as <-.
  split; reflexivity.
Defined.

(** *** The flood fill and the pixels it reaches *)

(** The shape of a grid given as a list of columns of one length. *)
Lemma shape_columns (w h : Z) (g : ShaderOutput) :
  0 <= w -> length g = Z.to_nat w ->
  Forall (fun column => length column = Z.to_nat h) g ->
  shape w h g.
Proof.
  intros Hw Hlen Hall. apply columnsMade_shape; [exact Hw |].
  split; [exact Hlen |]. intros i column Hi. split.
  - intros _. rewrite Forall_forall in Hall. apply Hall.
    apply list_elem_of_lookup. eauto.
  - intros Hge. apply lookup_lt_Some in Hi. lia.
Qed.

Lemma unmarked_columns (r : Z) (g : ShaderOutput) :
  Forall (Forall (fun s => Region s <> r)) g ->
  forall x y, ~ marked r g x y.
Proof.
  intros Hall x y (s & Hs & Hr).
  apply pixel_Ok in Hs as (_ & _ & column & Hc & Hs).
  rewrite Forall_forall in Hall.
  assert (Hcol : Forall (fun s => Region s <> r) column)
    by (apply Hall, list_elem_of_lookup; eauto).
  rewrite Forall_forall in Hcol.
  apply (Hcol s); [apply list_elem_of_lookup; eauto | exact Hr].
Qed.

(** X12. What a flood fill does to a grid in which no pixel carries the
    region id yet: it gives the id to the pixels that are joined to the
    seed by steps between neighbours through pixels whose modal index is of
    the range asked for, the seed among them, and to no others; it writes
    nothing but the region of these pixels; and it returns true just when
    the seed is of the range. *)
Theorem floodFill_component (pal : colour.Palette) (R : colour.RangePtr)
    (r w h : Z) (depth : nat) (g g' : ShaderOutput) (x y : Z) (b : bool) :
  GoInt.in_range w -> GoInt.in_range h ->
  shape w h g -> 0 <= x < w -> 0 <= y < h ->
  (forall x' y', ~ marked r g x' y') ->
  floodFill depth g r x y w h pal R = Ok (g', b) ->
  (forall x' y', marked r g' x' y' <-> linked pal R g x y x' y')
  /\ (forall x' y', ~ marked r g' x' y' -> pixel g' x' y' = pixel g x' y')
  /\ gridsApart g g'
  /\ (b = true <-> matching pal R g x y).
Proof.
  intros Hw Hh Hshape Hx Hy Hfresh H.
  destruct (floodFill_filled pal R r w h depth Hw Hh g g' x y b Hshape Hx Hy H)
    as ([Hapart Hmono Hrest Hnew] & Hseed & Hlinked).
  split; [| split; [exact Hrest | split; [exact Hapart |]]].
  - intros x' y'. split.
    + intros Hm. exact (Hlinked x' y' (Hfresh x' y') Hm).
    + intros Hl. induction Hl as [Hm | x1 y1 x2 y2 Hl IH Ha Hm].
      * exact (Hseed Hm).
      * destruct (Hnew x1 y1 (Hfresh x1 y1) IH) as [_ Hnext].
        exact (Hnext x2 y2 Ha Hm).
  - destruct depth as [| depth]; [discriminate H |].
    rewrite floodFill_unfold in H. cbv zeta in H.
    apply bind_Ok in H as (s & Hs & H).
    assert (Hr : (Region s =? r) = false).
    { apply Z.eqb_neq. intros E. apply (Hfresh x y). exists s. auto. }
    rewrite Hr, orb_false_r in H.
    unfold colour.ptr_eqb in H.
    destruct (bool_decide_reflect
                (colour.Range (colour.Entries pal (ModalIndex s)) = R))
      as [E | E]; cbn [negb] in H.
    + inv_bind H. injection H as _ <-. split; [| reflexivity].
      intros _. exists s. auto.
    + injection H as _ <-. split; [discriminate |].
      intros (s' & Hs' & E'). rewrite Hs in Hs'. injection Hs' as <-.
      contradiction.
Qed.

Lemma floodFill_component_witness :
  exists g',
    floodFill 5 scenes.quad 7 0 0 2 2 fixture.pal (Some 0%nat)
    = Ok (g', true)
    /\ marked 7 g' 1 1 /\ ~ marked 7 g' 1 0.
Proof.
  destruct (floodFill 5 scenes.quad 7 0 0 2 2 fixture.pal (Some 0%nat))
    as [[g' b] | |] eqn:E; [| vm_compute in E; discriminate E ..].
  assert (Hshape : shape 2 2 scenes.quad).
  { apply shape_columns; [lia | reflexivity |]. repeat constructor. }
  assert (Hfresh : forall x' y', ~ marked 7 scenes.quad x' y').
  { apply unmarked_columns. repeat constructor; cbn; lia. }
  assert (Hw : GoInt.in_range 2)
    by (unfold GoInt.in_range, GoInt.MinInt64, GoInt.MaxInt64; lia).
  destruct (floodFill_component fixture.pal (Some 0%nat) 7 2 2 5 scenes.quad
              g' 0 0 b Hw Hw Hshape ltac:(lia) ltac:(lia) Hfresh E)
    as (Hmarked & _ & _ & Hb).
  exists g'. vm_compute in E. injection E as <- <-.
  split; [reflexivity |]. split.
  - exists (fixture.pixelWith 7 2). split; reflexivity.
  - intros (s & Hs & Hr). vm_compute in Hs. injection Hs as <-.
    vm_compute in Hr. discriminate Hr.
Defined.

(** *** The dimensions of the result *)

Lemma regions_after_segmentation_witness :
  let renderOutput :=
    [[[fixture.hit 1]; [fixture.hit 2]]; [[fixture.hit 3]; [fixture.hit 2]]] in
  exists output seg,
    shadeStage (rules := fixture.rules) fixture.visitAt renderOutput
               fixture.spr (fixture.def 0.5) 2 2 = Ok output
    /\ segmentStage (fixture.def 0.5) 2 2 output = Ok seg
    /\ forall x y s, pixel (segGrid seg) x y = Ok s -> Region s = 0 ->
                     ModalIndex s = 0.
Proof.
  intros renderOutput.
  destruct (shadeStage (rules := fixture.rules) fixture.visitAt renderOutput
              fixture.spr (fixture.def 0.5) 2 2)
    as [output | |] eqn:E; [| vm_compute in E; discriminate E ..].
  destruct (segmentStage (fixture.def 0.5) 2 2 output)
    as [seg | |] eqn:E'.
  2, 3: vm_compute in E; injection E as <-; vm_compute in E'; discriminate E'.
  assert (Hw : GoInt.in_range 2)
    by (unfold GoInt.in_range, GoInt.MinInt64, GoInt.MaxInt64; lia).
  destruct (regions_after_segmentation (rules := fixture.rules)
              fixture.visitAt renderOutput fixture.spr (fixture.def 0.5) 2 2
              output seg Hw Hw ltac:(unfold GoInt.MaxInt64; lia) E E')
    as (Hzero & _ & _).
  exists output, seg. split; [reflexivity |]. split; [exact E' |].
  exact Hzero.
Defined.

Lemma floodFill_inv (P : ShaderOutput -> Prop) :
  (forall o x y s o', setPixel o x y s = Ok o' -> P o -> P o') ->
  forall (depth : nat) (output output' : ShaderOutput)
         (region x y width height : Z) (palette : colour.Palette)
         (paletteRange : colour.RangePtr) (b : bool),
    floodFill depth output region x y width height palette paletteRange
    = Ok (output', b) ->
    P output -> P output'.
Proof.
  intros Hset. induction depth as [| depth IH];
    intros output output' region x y width height palette paletteRange b H Hp;
    [discriminate H |].
  rewrite floodFill_unfold in H. cbv zeta in H.
  apply bind_Ok in H as (s & Hs & H).
  destruct (_ || _); [injection H as <- _; exact Hp |].
  assert (Hwhen : forall c x' y' o o',
            when c (fun o => floodFill depth o region x' y' width height
                                       palette paletteRange) o = Ok o' ->
            P o -> P o').
  { intros c x' y' o o' E Ho. unfold when in E. destruct c.
    - apply bind_Ok in E as ([o1 b1] & E1 & E). injection E as <-.
      exact (IH _ _ _ _ _ _ _ _ _ _ E1 Ho).
    - injection E as <-. exact Ho. }
  inv_bind H. injection H as <- _.
  eapply Hwhen; [exact Ha3 |]. eapply Hwhen; [exact Ha2 |].
  eapply Hwhen; [exact Ha1 |]. eapply Hwhen; [exact Ha0 |].
  exact (Hset _ _ _ _ _ Ha Hp).
Qed.

Section Dimensions.
Context `{rules : sample.Rules}.
Variable visit : Z -> Z -> gmap Z float -> list (Z * float).
Variable renderOutput : raycaster.RenderOutput.
Variable spr : manifest.Sprite.
Variable def : manifest.Definition_.
Variables width height : Z.

Lemma segmentStage_columnsMade (output : ShaderOutput) (seg : Segmentation) :
  segmentStage def width height output = Ok seg ->
  columnsMade width height width output ->
  columnsMade width height width (segGrid seg).
Proof.
  unfold segmentStage. intros H Hc.
  apply (forRange_inv (fun st => columnsMade width height width (segGrid st))
           width _ _ seg) with (3 := H); [| exact Hc].
  intros x st st' _ Hst E.
  apply (forRange_inv (fun st => columnsMade width height width (segGrid st))
           height _ _ st') with (3 := E); [| exact Hst].
  intros y a a' _ Ha Ea. unfold segmentPixel in Ea.
  apply bind_Ok in Ea as (s & Hs & Ea).
  destruct (ModalIndex s =? 0); [injection Ea as <-; exact Ha |].
  destruct (negb (Region s =? 0)); [injection Ea as <-; exact Ha |].
  apply bind_Ok in Ea as ([g b] & Ef & Ea). injection Ea as <-.
  cbn [segGrid fst].
  apply (floodFill_inv (columnsMade width height width)
           (fun o x' y' s' o' E' => columnsMade_setPixel _ _ _ _ _ _ _ _ E')
           _ _ _ _ _ _ _ _ _ _ _ Ef Ha).
Qed.

Lemma dither_columnsMade (x y : Z) (st : Pass) (d : Dithered) :
  dither def x y st = Ok d ->
  columnsMade width height width (passGrid st) ->
  columnsMade width height width (grid d).
Proof.
  unfold dither. intros H Hc.
  destruct (ditherOutput_effect _ _ _ _ _ _ _ _ _ _ _ H)
    as (s & s' & _ & Hset & _).
  exact (columnsMade_setPixel _ _ _ _ _ _ _ _ Hset Hc).
Qed.

(** X13. The dimensions of the result: [GetShaderOutput] returns [width]
    columns of [height] pixels each. *)
Theorem GetShaderOutput_dimensions (final : ShaderOutput) :
  GetShaderOutput visit renderOutput spr def width height = Ok final ->
  0 <= width
  /\ length final = Z.to_nat width
  /\ Forall (fun column => length column = Z.to_nat height) final.
Proof.
  intros Hrun.
  destruct (GetShaderOutput_stages _ _ _ _ _ _ _ Hrun)
    as (shaded & seg & st1 & st1' & st2 & Hshade & Hseg & Hp1 & _ & _
        & Hgrid & Hp2 & ->).
  destruct (shadeStage_columnsMade _ _ _ _ _ _ _ Hshade) as [Hw Hc0].
  pose proof (segmentStage_columnsMade _ _ Hseg Hc0) as Hc1.
  destruct (pass1Stage_start _ _ _ _ _ Hp1) as (st0 & Hst0 & Hloop1).
  assert (Hc2 : columnsMade width height width (passGrid st1)).
  { apply (passLoop_inv
             (fun st => columnsMade width height width (passGrid st))
             width height (pass1Pixel def) st0 st1);
      [| auto | rewrite Hst0; exact Hc1 | exact Hloop1].
    intros x y s s' _ _ Hs E.
    apply pass1Pixel_dither in E as (d & Hd & ->).
    exact (dither_columnsMade _ _ _ _ Hd Hs). }
  assert (Hc3 : columnsMade width height width (passGrid st2)).
  { apply (passLoop_inv
             (fun st => columnsMade width height width (passGrid st))
             width height (pass2Pixel def) st1' st2);
      [| auto | rewrite Hgrid; exact Hc2 | exact Hp2].
    intros x y s s' _ _ Hs E.
    apply pass2Pixel_dither in E as (p & output & d & _ & Hset & Hd & ->).
    apply (dither_columnsMade _ _ _ _ Hd). cbn [passGrid].
    exact (columnsMade_setPixel _ _ _ _ _ _ _ _ Hset Hs). }
  destruct Hc3 as [Hlen Hcols].
  split; [exact Hw |]. split; [exact Hlen |].
  apply Forall_forall. intros column Hin.
  apply list_elem_of_lookup in Hin as [i Hi].
  apply (Hcols i column Hi). apply lookup_lt_Some in Hi. lia.
Qed.

End Dimensions.

Lemma GetShaderOutput_dimensions_witness :
  let renderOutput := [[[fixture.hit 3]; [fixture.hit 2]]] in
  exists final,
    GetShaderOutput (rules := fixture.rules) fixture.visitAt renderOutput
                    fixture.spr (fixture.def 0.5) 1 2 = Ok final
    /\ length final = 1%nat.
Proof.
  intros renderOutput.
  destruct (GetShaderOutput (rules := fixture.rules) fixture.visitAt
              renderOutput fixture.spr (fixture.def 0.5) 1 2)
    as [final | |] eqn:E; [| vm_compute in E; discriminate E ..].
  destruct (GetShaderOutput_dimensions (rules := fixture.rules)
              fixture.visitAt renderOutput fixture.spr (fixture.def 0.5) 1 2
              final E) as (_ & Hlen & _).
  exists final. split; [reflexivity | exact Hlen].
Defined.

(** *** The statistics of the regions *)

Lemma countIndex_Ok (m : option (gmap Z Z)) (k : Z) (counts' : gmap Z Z) :
  countIndex m k = Ok counts' ->
  exists counts n, m = Some counts /\ counts' = <[k := n]> counts.
Proof.
  unfold countIndex. destruct m as [counts |]; [| discriminate].
  destruct (counts !! k); intros [= <-]; eauto.
Qed.

(** One round of the statistics: the regions keep their keys and their
    ranges, and what [counted] says of them. *)
Lemma updateStats_counted (pal : colour.Palette)
    (regions regions' : gmap Z RegionInfo) (s : ShaderInfo) (best : Z) :
  updateStats pal regions s best = Ok regions' ->
  (forall r info, regions !! r = Some info -> counted pal info) ->
  (forall r, is_Some (regions' !! r) <-> is_Some (regions !! r))
  /\ (forall r info', regions' !! r = Some info' ->
        counted pal info'
        /\ exists info, regions !! r = Some info /\ Range info' = Range info).
Proof.
  unfold updateStats. intros H Hall.
  destruct (colour.ptr_eqb _ _ && negb (best =? 0)) eqn:Hcond.
  2:{ injection H as <-. split; [reflexivity |].
      intros r info' Hr. split; [exact (Hall r info' Hr) | eauto]. }
  apply andb_true_iff in Hcond as [Hrange Hbest].
  apply bool_decide_eq_true in Hrange.
  apply negb_true_iff, Z.eqb_neq in Hbest.
  apply bind_Ok in H as (counts' & Hcount & H). injection H as <-.
  apply countIndex_Ok in Hcount as (counts & n & Hcounts & ->).
  unfold regionOf in *.
  destruct (regions !! Region s) as [info |] eqn:Hkey;
    cbn [default from_option id] in *; [| discriminate Hcounts].
  split.
  - intros r. destruct (decide (r = Region s)) as [-> | Hne].
    + rewrite lookup_insert_eq, Hkey. split; eauto.
    + rewrite lookup_insert_ne by congruence. reflexivity.
  - intros r info' Hr. destruct (decide (r = Region s)) as [-> | Hne].
    2:{ rewrite lookup_insert_ne in Hr by congruence.
        split; [exact (Hall r info' Hr) | eauto]. }
    rewrite lookup_insert_eq in Hr. injection Hr as <-.
    split; [| exists info; split; [exact Hkey | reflexivity]].
    destruct (Hall _ _ Hkey) as (Hsize & Hdist & c & Hc & Hkeys & Hends).
    rewrite Hcounts in Hc. injection Hc as <-.
    unfold counted.
    cbn [Size SizeInRange Distance ModalCount MinIndex MaxIndex Range].
    split; [rewrite Hsize; reflexivity |]. split; [exact Hdist |].
    exists (<[best := n]> counts). split; [reflexivity |].
    assert (Hends' :
              (MinIndex info = 0 /\ MaxIndex info = 0
               /\ forall k m, counts !! k = Some m -> False)
              \/ (MinIndex info <> 0 /\ MaxIndex info <> 0
                  /\ MinIndex info <= MaxIndex info
                  /\ is_Some (counts !! MinIndex info)
                  /\ is_Some (counts !! MaxIndex info))).
    { destruct Hends as [(-> & E1 & E2) | [[n1 H1] [n2 H2]]].
      - left. split; [exact E1 |]. split; [exact E2 |].
        intros k m Hk. rewrite lookup_empty in Hk. discriminate Hk.
      - right. destruct (Hkeys _ _ H1) as (Z1 & _ & B1).
        destruct (Hkeys _ _ H2) as (Z2 & _ & B2).
        repeat split; eauto; lia. }
    destruct Hends' as [(E1 & E2 & Hnone) | (Z1 & Z2 & Hle & S1 & S2)].
    + rewrite E1, E2. change (0 =? 0) with true. rewrite !orb_true_r.
      split.
      * intros k m Hk. destruct (decide (k = best)) as [-> | Hne].
        -- split; [exact Hbest |]. split; [exact Hrange | lia].
        -- rewrite lookup_insert_ne in Hk by congruence.
           destruct (Hnone _ _ Hk).
      * right. rewrite lookup_insert_eq. split; eauto.
    + assert (Hmin : (MinIndex info =? 0) = false) by (apply Z.eqb_neq; lia).
      assert (Hmax : (MaxIndex info =? 0) = false) by (apply Z.eqb_neq; lia).
      rewrite Hmin, Hmax, !orb_false_r.
      split.
      * intros k m Hk. destruct (decide (k = best)) as [-> | Hne].
        -- split; [exact Hbest |]. split; [exact Hrange |].
           destruct (Z.ltb_spec best (MinIndex info));
             destruct (Z.ltb_spec (MaxIndex info) best); lia.
        -- rewrite lookup_insert_ne in Hk by congruence.
           destruct (Hkeys _ _ Hk) as (Zk & Rk & Bk).
           split; [exact Zk |]. split; [exact Rk |].
           destruct (Z.ltb_spec best (MinIndex info));
             destruct (Z.ltb_spec (MaxIndex info) best); lia.
      * right. split.
        -- destruct (best <? MinIndex info);
             [rewrite lookup_insert_eq; eauto |].
           destruct (decide (MinIndex info = best)) as [-> | Hne];
             [rewrite lookup_insert_eq; eauto |].
           rewrite lookup_insert_ne by congruence. exact S1.
        -- destruct (MaxIndex info <? best);
             [rewrite lookup_insert_eq; eauto |].
           destruct (decide (MaxIndex info = best)) as [-> | Hne];
             [rewrite lookup_insert_eq; eauto |].
           rewrite lookup_insert_ne by congruence. exact S2.
Qed.

(** The regions that the scan makes: each is the record that the scan
    stores, with the range of a modal index other than 0. *)
Lemma segmentStage_fresh (def : manifest.Definition_) (width height : Z)
    (output : ShaderOutput) (seg : Segmentation) :
  segmentStage def width height output = Ok seg ->
  forall r info, segRegions seg !! r = Some info ->
    exists k, k <> 0
      /\ info = mkRegionInfo (Some ∅) colour.zero (mkColourDistance 0 0)
                  0 0 0 0
                  (colour.Range (colour.Entries (manifest.Palette def) k)).
Proof.
  unfold segmentStage. intros H.
  match goal with
  | |- ?G => set (P := fun st : Segmentation =>
                forall r info, segRegions st !! r = Some info ->
                  exists k, k <> 0
                    /\ info = mkRegionInfo (Some ∅) colour.zero
                                (mkColourDistance 0 0) 0 0 0 0
                                (colour.Range
                                   (colour.Entries (manifest.Palette def) k)))
  end.
  apply (forRange_inv P width _ _ seg) with (3 := H).
  - intros x st st' _ Hst E.
    apply (forRange_inv P height _ _ st') with (3 := E); [| exact Hst].
    intros y a a' _ Ha Ea. unfold segmentPixel in Ea.
    apply bind_Ok in Ea as (s & Hs & Ea).
    destruct (Z.eqb_spec (ModalIndex s) 0) as [| Hnz];
      [injection Ea as <-; exact Ha |].
    destruct (negb (Region s =? 0)); [injection Ea as <-; exact Ha |].
    apply bind_Ok in Ea as ([g b] & Ef & Ea). injection Ea as <-.
    intros r info Hr. cbn [segRegions] in Hr.
    destruct (decide (r = currentRegion a)) as [-> | Hne].
    + rewrite lookup_insert_eq in Hr. injection Hr as <-.
      exists (ModalIndex s). split; [exact Hnz | reflexivity].
    + rewrite lookup_insert_ne in Hr by congruence. exact (Ha r info Hr).
  - intros r info Hr. cbn [segRegions] in Hr. rewrite lookup_empty in Hr.
    discriminate Hr.
Qed.

Lemma fresh_counted (pal : colour.Palette) (R : colour.RangePtr) :
  counted pal (mkRegionInfo (Some ∅) colour.zero (mkColourDistance 0 0)
                            0 0 0 0 R).
Proof.
  split; [reflexivity |]. split; [reflexivity |]. exists ∅.
  split; [reflexivity |]. split; [| left; auto].
  intros k n Hk. rewrite lookup_empty in Hk. discriminate Hk.
Qed.

Section Statistics.
Context `{rules : sample.Rules}.
Variable visit : Z -> Z -> gmap Z float -> list (Z * float).
Variable renderOutput : raycaster.RenderOutput.
Variable spr : manifest.Sprite.
Variable def : manifest.Definition_.
Variables width height : Z.

Lemma pass1Stage_counted (seg : Segmentation) (st1 : Pass) :
  pass1Stage def width height seg = Ok st1 ->
  (forall r info, segRegions seg !! r = Some info ->
     exists k, k <> 0
       /\ info = mkRegionInfo (Some ∅) colour.zero (mkColourDistance 0 0)
                   0 0 0 0
                   (colour.Range (colour.Entries (manifest.Palette def) k))) ->
  (forall r, is_Some (regions st1 !! r) <-> is_Some (segRegions seg !! r))
  /\ (forall r info', regions st1 !! r = Some info' ->
        counted (manifest.Palette def) info'
        /\ exists info, segRegions seg !! r = Some info
                        /\ Range info' = Range info).
Proof.
  intros H Hfresh. unfold pass1Stage in H. inv_bind H.
  set (P := fun st : Pass =>
         (forall r, is_Some (regions st !! r) <-> is_Some (segRegions seg !! r))
         /\ (forall r info', regions st !! r = Some info' ->
               counted (manifest.Palette def) info'
               /\ exists info, segRegions seg !! r = Some info
                               /\ Range info' = Range info)).
  apply (passLoop_inv P width height (pass1Pixel def) _ st1)
    with (4 := H).
  - intros x y s s' _ _ [Hkeys Hs] E. unfold pass1Pixel in E. inv_bind E.
    injection E as <-. cbn [regions].
    destruct (updateStats_counted _ _ _ _ _ Ha3
                (fun r info Hr => proj1 (Hs r info Hr))) as [Hk Hc].
    split.
    + intros r. rewrite Hk. apply Hkeys.
    + intros r info' Hr. destruct (Hc r info' Hr) as (Hcnt & info & Hi & HR).
      split; [exact Hcnt |].
      destruct (Hs r info Hi) as (_ & info0 & Hi0 & HR0).
      exists info0. split; [exact Hi0 | congruence].
  - intros s Hs. exact Hs.
  - split; [reflexivity |]. cbn [regions]. intros r info' Hr.
    split; [| eauto]. destruct (Hfresh r info' Hr) as (k & _ & ->).
    apply fresh_counted.
Qed.

(** X14. The statistics of the regions after pass 1.  The regions are
    the ones that the scan made, each with the range it was given; the
    Size of a region is the same number as its SizeInRange; the indices in
    ModalCount are not 0 and their palette entries are of the range of the
    region; MinIndex and MaxIndex are the least and the greatest of these
    indices, and both 0 when there is none. *)
Theorem pass1_statistics (st1 : Pass) :
  afterPass1 visit renderOutput spr def width height = Ok st1 ->
  exists (shaded : ShaderOutput) (seg : Segmentation),
    shadeStage visit renderOutput spr def width height = Ok shaded
    /\ segmentStage def width height shaded = Ok seg
    /\ (forall r, is_Some (regions st1 !! r) <-> is_Some (segRegions seg !! r))
    /\ forall r info, regions st1 !! r = Some info ->
         (exists info0, segRegions seg !! r = Some info0
                        /\ Range info = Range info0)
         /\ Size info = SizeInRange info
         /\ exists counts,
              ModalCount info = Some counts
              /\ (forall k n, counts !! k = Some n ->
                    k <> 0
                    /\ colour.Range (colour.Entries (manifest.Palette def) k)
                       = Range info
                    /\ MinIndex info <= k <= MaxIndex info)
              /\ ((counts = ∅ /\ MinIndex info = 0 /\ MaxIndex info = 0)
                  \/ (is_Some (counts !! MinIndex info)
                      /\ is_Some (counts !! MaxIndex info))).
Proof.
  unfold afterPass1. intros H.
  apply bind_Ok in H as (shaded & Hshade & H).
  apply bind_Ok in H as (seg & Hseg & H).
  exists shaded, seg. split; [exact Hshade |]. split; [exact Hseg |].
  destruct (pass1Stage_counted seg st1 H
              (segmentStage_fresh def width height shaded seg Hseg))
    as [Hkeys Hall].
  split; [exact Hkeys |]. intros r info Hr.
  destruct (Hall r info Hr) as ((Hsize & _ & Hcounts) & Hrange).
  split; [exact Hrange |]. split; [exact Hsize | exact Hcounts].
Qed.

End Statistics.

Lemma pass1_statistics_witness :
  let renderOutput := [[[fixture.hit 3]; [fixture.hit 2]]] in
  exists st1 info,
    afterPass1 (rules := fixture.rules) fixture.visitAt renderOutput
               fixture.spr (fixture.def 0.5) 1 2 = Ok st1
    /\ regions st1 !! 1 = Some info
    /\ Size info = SizeInRange info /\ MinIndex info = 3.
Proof.
  intros renderOutput.
  destruct (afterPass1 (rules := fixture.rules) fixture.visitAt renderOutput
              fixture.spr (fixture.def 0.5) 1 2)
    as [st1 | |] eqn:E; [| vm_compute in E; discriminate E ..].
  destruct (pass1_statistics (rules := fixture.rules) fixture.visitAt
              renderOutput fixture.spr (fixture.def 0.5) 1 2 st1 E)
    as (shaded & seg & _ & _ & _ & Hall).
  destruct (regions st1 !! 1) as [info |] eqn:Hr.
  2:{ vm_compute in E. injection E as <-. vm_compute in Hr. discriminate Hr. }
  destruct (Hall 1 info Hr) as (_ & Hsize & _).
  exists st1, info. split; [reflexivity |]. split; [exact Hr |].
  split; [exact Hsize |].
  vm_compute in E. injection E as <-. vm_compute in Hr. injection Hr as <-.
  reflexivity.
Defined.

(** *** When GetShaderOutput returns *)










Section Safe.
Context `{rules : sample.Rules}.
Variable visit : Z -> Z -> gmap Z float -> list (Z * float).
Variable renderOutput : raycaster.RenderOutput.
Variable spr : manifest.Sprite.
Variable def : manifest.Definition_.
Variables width height : Z.
Hypothesis Hwidth : 0 <= width <= GoInt.MaxInt64.
Hypothesis Hheight : 0 <= height <= GoInt.MaxInt64 - 2.
Hypothesis Hcolumns : (Z.to_nat width <= length renderOutput)%nat.
Hypothesis Hcells :
  Forall (fun column : list raycaster.RenderInfo =>
            (Z.to_nat height <= length column)%nat) renderOutput.
Hypothesis Hranges :
  forall k, k <> 0 ->
    colour.Range (colour.Entries (manifest.Palette def) k) <> None.












End Safe.


(** *** The vote without ties, the counts of shade, the edge threshold *)

(** X16. The order in which the map is walked does not show in the vote
    when one index has a value above 0 that is greater than the value of
    every other index: that index is the modal index. *)
Theorem vote_unique_winner (visited : list (Z * float)) (m : Z)
    (top : float) :
  (m, top) ∈ visited -> F64.gt top 0 = true ->
  (forall v, (m, v) ∈ visited -> v = top) ->
  (forall k v, (k, v) ∈ visited -> k <> m -> F64.lt v top = true) ->
  modal (vote visited) = m /\ max (vote visited) = top.
Proof.
  intros Hin Hpos Hkey Hless.
  assert (Hinit : voted [] (mkVote 0 0 0)).
  { split; [| right; reflexivity]. intros k v Hk.
    apply elem_of_nil in Hk as []. }
  destruct (vote_led visited [] (mkVote 0 0 0) Hinit
              (or_introl eq_refl) (or_introl eq_refl))
    as ([Hmax Hmodal] & _ & _).
  cbn [app] in Hmax, Hmodal. fold (vote visited) in *.
  specialize (Hmax m top Hin).
  destruct Hmodal as [Hwin | E].
  - destruct (decide (modal (vote visited) = m)) as [Em | Hne].
    + split; [exact Em |]. apply Hkey. rewrite <- Em. exact Hwin.
    + specialize (Hless _ _ Hwin Hne). unfold F64.gt, F64.lt in *. congruence.
  - rewrite E in Hmax. cbn [max] in Hmax. congruence.
Qed.

Lemma vote_unique_winner_witness :
  modal (vote [(1, 1%float); (3, 2%float); (2, 0.5%float)]) = 3.
Proof.
  apply (vote_unique_winner _ 3 2%float).
  - repeat constructor.
  - reflexivity.
  - intros v Hin.
    repeat (apply elem_of_cons in Hin as [E | Hin]; [congruence |]).
    apply elem_of_nil in Hin as [].
  - intros k v Hin Hne.
    repeat (apply elem_of_cons in Hin as [E | Hin];
            [injection E as -> ->; first [reflexivity | contradiction] |]).
    apply elem_of_nil in Hin as [].
Defined.

(** X17. The depth that [shade] takes for the nearest: [MaxInt64] when no
    sample collided at a smaller depth, and otherwise the depth of a
    sample that collided, which no sample that collided is nearer than. *)
Theorem minDepthOf_least (info : raycaster.RenderInfo) :
  (forall s, s ∈ info -> raycaster.Collision s = true ->
             minDepthOf info <= raycaster.Depth s)
  /\ (minDepthOf info = GoInt.MaxInt64
      \/ exists s, s ∈ info /\ raycaster.Collision s = true
                   /\ raycaster.Depth s = minDepthOf info).
Proof.
  unfold minDepthOf.
  assert (H : forall l m0,
            let m := fold_left
                       (fun minDepth s =>
                          if raycaster.Collision s
                             && (raycaster.Depth s <? minDepth)
                          then raycaster.Depth s else minDepth) l m0 in
            m <= m0
            /\ (forall s, s ∈ l -> raycaster.Collision s = true ->
                          m <= raycaster.Depth s)
            /\ (m = m0 \/ exists s, s ∈ l /\ raycaster.Collision s = true
                                    /\ raycaster.Depth s = m)).
  { induction l as [| s l IH]; intros m0; cbn [fold_left].
    - split; [lia |]. split; [| left; reflexivity].
      intros s Hs. apply elem_of_nil in Hs as [].
    - match goal with
      | |- context [fold_left _ l ?a] => destruct (IH a) as (Hle & Hall & Hex)
      end.
      cbv zeta in *.
      destruct (raycaster.Collision s) eqn:Ec; cbn [andb] in *.
      + destruct (Z.ltb_spec (raycaster.Depth s) m0).
        * split; [lia |]. split.
          -- intros s' Hs' Hc. apply elem_of_cons in Hs' as [-> | Hs'];
               [lia | exact (Hall s' Hs' Hc)].
          -- right. destruct Hex as [E | (s' & Hs' & Hc & E)].
             ++ exists s. split; [apply elem_of_cons; auto | auto].
             ++ exists s'. split; [apply elem_of_cons; auto | auto].
        * split; [lia |]. split.
          -- intros s' Hs' Hc. apply elem_of_cons in Hs' as [-> | Hs'];
               [lia | exact (Hall s' Hs' Hc)].
          -- destruct Hex as [E | (s' & Hs' & Hc & E)]; [left; exact E |].
             right. exists s'. split; [apply elem_of_cons; auto | auto].
      + split; [lia |]. split.
        * intros s' Hs' Hc. apply elem_of_cons in Hs' as [-> | Hs'];
            [congruence | exact (Hall s' Hs' Hc)].
        * destruct Hex as [E | (s' & Hs' & Hc & E)]; [left; exact E |].
          right. exists s'. split; [apply elem_of_cons; auto | auto]. }
  destruct (H info GoInt.MaxInt64) as (_ & Hall & Hex). split; assumption.
Qed.

Lemma wrap64_add_l (a b : Z) :
  GoInt.wrap64 (GoInt.wrap64 a + b) = GoInt.wrap64 (a + b).
Proof.
  unfold GoInt.wrap64. f_equal.
  replace ((a + 2 ^ 63) mod 2 ^ 64 - 2 ^ 63 + b + 2 ^ 63)
    with ((a + 2 ^ 63) mod 2 ^ 64 + b) by lia.
  rewrite Zplus_mod_idemp_l. f_equal. lia.
Qed.

Section Counts.
Context `{rules : sample.Rules}.

(** X18. The two counts of [shade]: the total is the sum of the counts of
    all samples, and the filled count the sum of the counts of the samples
    that collided with a renderable voxel, both wrapped to an [int]. *)
Theorem tally_counts (def : manifest.Definition_)
    (info : raycaster.RenderInfo) :
  let filled s :=
    raycaster.Collision s
    && colour.IsRenderable (manifest.Palette def) (raycaster.Index s) in
  totalSamples (tally def info)
  = GoInt.wrap64 (foldr Z.add 0 (raycaster.Count <$> info))
  /\ filledSamples (tally def info)
     = GoInt.wrap64
         (foldr Z.add 0 (raycaster.Count <$> List.filter filled info)).
Proof.
  intros filled. unfold tally. generalize (minDepthOf info). intros minDepth.
  assert (H : forall l t a b,
            totalSamples t = GoInt.wrap64 a ->
            filledSamples t = GoInt.wrap64 b ->
            let t' := fold_left (tallySample def minDepth) l t in
            totalSamples t'
            = GoInt.wrap64 (a + foldr Z.add 0 (raycaster.Count <$> l))
            /\ filledSamples t'
               = GoInt.wrap64
                   (b + foldr Z.add 0
                          (raycaster.Count <$> List.filter filled l))).
  { induction l as [| s l IH]; intros t a b Ha Hb; cbn [fold_left].
    - cbn. rewrite !Z.add_0_r. auto.
    - cbn [List.filter fmap list_fmap foldr].
      specialize (IH (tallySample def minDepth t s)).
      unfold tallySample in *.
      cbn [raycaster.with_Influence raycaster.Collision raycaster.Index
           raycaster.Count raycaster.Influence] in *.
      subst filled. cbv beta in *.
      destruct (raycaster.Collision s
                && colour.IsRenderable (manifest.Palette def)
                     (raycaster.Index s));
        cbn [totalSamples filledSamples fmap list_fmap foldr] in *.
      + destruct (IH (a + raycaster.Count s) (b + raycaster.Count s))
          as [Ht Hf].
        * unfold GoInt.add. rewrite Ha. apply wrap64_add_l.
        * unfold GoInt.add. rewrite Hb. apply wrap64_add_l.
        * rewrite Ht, Hf. split; f_equal; lia.
      + destruct (IH (a + raycaster.Count s) b) as [Ht Hf].
        * unfold GoInt.add. rewrite Ha. apply wrap64_add_l.
        * exact Hb.
        * rewrite Ht, Hf. split; f_equal; lia. }
  destruct (H info emptyTally 0 0 eq_refl eq_refl) as [Ht Hf].
  rewrite Ht, Hf. rewrite !Z.add_0_l. auto.
Qed.

End Counts.

Section Threshold.
Context `{rules : sample.Rules}.
Variable visit : Z -> Z -> gmap Z float -> list (Z * float).
Variable renderOutput : raycaster.RenderOutput.
Variable spr : manifest.Sprite.
Variable def : manifest.Definition_.
Variables width height : Z.

(** X19. In the result, a pixel of the image whose Alpha is below the
    edge threshold has the dithered index 0. *)
Theorem below_threshold_index (x y : Z) (final : ShaderOutput) :
  GetShaderOutput visit renderOutput spr def width height = Ok final ->
  0 <= x < width -> 0 <= y < height ->
  exists s, pixel final x y = Ok s
            /\ (F64.lt (Alpha s) (manifest.EdgeThreshold (manifest.Manifest def))
                = true -> DitheredIndex s = 0).
Proof.
  intros Hrun Hx Hy.
  destruct (pixel_history visit renderOutput spr def width height x y final
              Hrun Hx Hy)
    as (shaded & seg & st1 & s0 & p0 & p1 & p2 & b1 & b2 & d1 & d2 & _
        & _ & _ & _ & _ & _ & _ & _ & _ & _ & _ & Hb2 & Hd2 & Hp2 & Hfinal).
  exists p2. split; [exact Hfinal |]. intros Hlt.
  unfold dither in Hd2.
  destruct (ditherOutput_cell _ _ _ _ _ _ _ _ _ _ _ Hd2)
    as (q & q' & Hq & Hq' & Hidx & _ & Ha & _ & _ & Hzero & _).
  rewrite Hp2 in Hq'. injection Hq' as <-.
  rewrite Hidx. apply Hzero. rewrite <- Ha. exact Hlt.
Qed.

(** X20. With no offset of the sprite, an image with rows that is wider
    than the samples has columns makes [GetShaderOutput] panic: the column
    of samples is not there. *)
Theorem GetShaderOutput_missing_column :
  xoffset spr def = 0 -> yoffset spr def = 0 ->
  0 < height -> width <= GoInt.MaxInt64 ->
  Z.of_nat (length renderOutput) < width ->
  GetShaderOutput visit renderOutput spr def width height = Panic.
Proof.
  intros Hxo Hyo Hh Hw Hshort.
  destruct (GetShaderOutput visit renderOutput spr def width height)
    as [final | |] eqn:Hrun; [exfalso | reflexivity |].
  2:{ destruct (GetShaderOutput_fueled _ _ _ _ _ _ Hrun). }
  destruct (GetShaderOutput_stages _ _ _ _ _ _ _ Hrun)
    as (shaded & _ & _ & _ & _ & Hshade & _).
  unfold shadeStage in Hshade. apply bind_Ok in Hshade as (o0 & _ & Hshade).
  set (k := Z.of_nat (length renderOutput)) in *.
  destruct (forRange_at (fun _ : ShaderOutput => tt) (fun _ => True) k width
              _ o0 shaded ltac:(lia) (fun _ _ _ _ _ _ => I)
              (fun _ _ _ _ _ _ _ => eq_refl) I Hshade)
    as (s1 & s2 & _ & Hround & _).
  cbv beta in Hround. inv_bind Hround.
  destruct (forRange_at (fun _ : ShaderOutput => tt) (fun _ => True) 0 height
              _ a0 s2 ltac:(lia) (fun _ _ _ _ _ _ => I)
              (fun _ _ _ _ _ _ _ => eq_refl) I Hround)
    as (t1 & t2 & _ & Hcell & _).
  unfold shadePixel in Hcell. rewrite Hxo, Hyo in Hcell.
  assert (Ek : GoInt.add k 0 = k).
  { unfold GoInt.add. rewrite Z.add_0_r. apply wrap64_id.
    unfold GoInt.in_range, GoInt.MinInt64, GoInt.MaxInt64 in *. lia. }
  assert (E0 : GoInt.add 0 0 = 0) by reflexivity.
  rewrite Ek, E0 in Hcell.
  destruct (Z.ltb_spec k 0); [lia |].
  destruct (Z.leb_spec width k); [lia |].
  destruct (Z.leb_spec height 0); [lia |].
  cbn [orb Z.ltb Z.compare] in Hcell.
  apply bind_Ok in Hcell as (prev & _ & Hcell).
  apply bind_Ok in Hcell as (column & Hcol & _).
  apply index_Ok in Hcol as [_ Hcol]. apply lookup_lt_Some in Hcol.
  unfold k in Hcol. lia.
Qed.

End Threshold.

Lemma below_threshold_index_witness :
  let renderOutput := [[[fixture.hit 3; fixture.miss 9]; [fixture.hit 2]]] in
  exists final s,
    GetShaderOutput (rules := fixture.rules) fixture.visitAt renderOutput
                    fixture.spr (fixture.def 0.5) 1 2 = Ok final
    /\ pixel final 0 0 = Ok s /\ DitheredIndex s = 0.
Proof.
  intros renderOutput.
  destruct (GetShaderOutput (rules := fixture.rules) fixture.visitAt
              renderOutput fixture.spr (fixture.def 0.5) 1 2)
    as [final | |] eqn:E; [| vm_compute in E; discriminate E ..].
  destruct (below_threshold_index (rules := fixture.rules) fixture.visitAt
              renderOutput fixture.spr (fixture.def 0.5) 1 2 0 0 final E
              ltac:(lia) ltac:(lia))
    as (s & Hs & Hidx).
  exists final, s. split; [reflexivity |]. split; [exact Hs |].
  apply Hidx. vm_compute in E. injection E as <-.
  vm_compute in Hs. injection Hs as <-. reflexivity.
Defined.

Lemma GetShaderOutput_missing_column_witness :
  GetShaderOutput (rules := fixture.rules) fixture.visitAt
                  [[[fixture.hit 3]; [fixture.hit 2]]]
                  fixture.spr (fixture.def 0.5) 2 2 = Panic.
Proof.
  apply GetShaderOutput_missing_column.
  - reflexivity.
  - reflexivity.
  - lia.
  - unfold GoInt.MaxInt64. lia.
  - cbn. lia.
Defined.

(** *** The map of the regions *)

Lemma segmentPixel_charted (def : manifest.Definition_) (w h x y : Z)
    (st st' : Segmentation) :
  GoInt.in_range w -> GoInt.in_range h -> w * h < GoInt.MaxInt64 ->
  0 <= x < w -> 0 <= y < h ->
  scanned (manifest.Palette def) w h (x * h + y) st ->
  charted (manifest.Palette def) st ->
  segmentPixel def w h x y st = Ok st' ->
  charted (manifest.Palette def) st'.
Proof.
  intros Hw Hh Hwh Hx Hy [Hshape Hids Hcount _ _ _] [Hkeys Hentry] H.
  unfold segmentPixel in H. apply bind_Ok in H as (s & Hp & H).
  destruct (ModalIndex s =? 0); [injection H as <-; split; assumption |].
  destruct (negb (Region s =? 0)); [injection H as <-; split; assumption |].
  apply bind_Ok in H as ([g' b] & Hfill & H). injection H as <-.
  cbn [fst].
  set (pal := manifest.Palette def) in *.
  set (k := currentRegion st) in *. set (g := segGrid st) in *.
  destruct (floodFill_filled pal _ k w h _ Hw Hh g g' x y b Hshape Hx Hy Hfill)
    as ([Hapart Hmono Hrest Hnew] & _ & _).
  assert (Hfresh : forall x' y', ~ marked k g x' y').
  { intros x' y' (t & Ht & Hk). pose proof (Hids _ _ _ Ht). lia. }
  assert (Hk1 : GoInt.add k 1 = k + 1).
  { unfold GoInt.add. apply wrap64_id.
    unfold GoInt.in_range, GoInt.MinInt64, GoInt.MaxInt64 in *. nia. }
  split; cbn [segGrid segRegions currentRegion].
  - intros r. rewrite Hk1. destruct (decide (r = k)) as [-> | Hne].
    + rewrite lookup_insert_eq. split; [lia | eauto].
    + rewrite lookup_insert_ne by congruence. rewrite Hkeys. fold k. lia.
  - intros x' y' t' Ht' Hnz. destruct (decide (Region t' = k)) as [E | E].
    + rewrite E, lookup_insert_eq. eexists. split; [reflexivity |].
      cbn [Range].
      destruct (Hnew x' y' (Hfresh x' y')) as [(u & Hu & Hru) _];
        [exists t'; auto |].
      destruct (apart_cell _ _ _ _ _ Hapart Ht') as (u1 & Hu1 & ->).
      rewrite Hu in Hu1. injection Hu1 as <-.
      rewrite <- Hru. reflexivity.
    + rewrite lookup_insert_ne by congruence.
      apply (Hentry x' y'); [| exact Hnz].
      rewrite <- Ht'. symmetry. apply Hrest.
      intros (u & Hu & Hk). rewrite Ht' in Hu. injection Hu as <-.
      contradiction.
Qed.

Section Charted.
Context `{rules : sample.Rules}.
Variable visit : Z -> Z -> gmap Z float -> list (Z * float).
Variable renderOutput : raycaster.RenderOutput.
Variable spr : manifest.Sprite.
Variable def : manifest.Definition_.
Variables width height : Z.

(** X21. The map of the regions after the scan: its keys are the region
    ids from 1 up to the last one given out, and every pixel that carries a
    region has an entry in it, whose range is the range of the palette
    entry of the pixel's modal index. *)
Theorem segmentation_regions_map (output : ShaderOutput)
    (seg : Segmentation) :
  GoInt.in_range width -> GoInt.in_range height ->
  0 <= height -> width * height < GoInt.MaxInt64 ->
  shadeStage visit renderOutput spr def width height = Ok output ->
  segmentStage def width height output = Ok seg ->
  (forall r, is_Some (segRegions seg !! r) <-> 1 <= r < currentRegion seg)
  /\ forall x y s, pixel (segGrid seg) x y = Ok s -> Region s <> 0 ->
       exists info,
         segRegions seg !! Region s = Some info
         /\ Range info
            = colour.Range (colour.Entries (manifest.Palette def)
                                           (ModalIndex s)).
Proof.
  intros Hw Hh Hh0 Hwh Hshade Hseg.
  destruct (shadeStage_shape _ _ _ _ _ _ _ Hshade) as (Hw0 & Hshape & Hzero).
  assert (Hboth : scanned (manifest.Palette def) width height (width * height)
                          seg
                  /\ charted (manifest.Palette def) seg).
  { unfold segmentStage in Hseg.
    apply (forRange_steps
             (fun x st => scanned (manifest.Palette def) width height
                                  (x * height) st
                          /\ charted (manifest.Palette def) st)
             width _ _ seg Hw0) with (3 := Hseg).
    - intros x st st' Hx Hst E.
      replace ((x + 1) * height) with (x * height + height) by lia.
      apply (forRange_steps
               (fun y st => scanned (manifest.Palette def) width height
                                    (x * height + y) st
                            /\ charted (manifest.Palette def) st)
               height _ _ st' Hh0) with (3 := E).
      + intros y a a' Hy [Ha Hc] Ea.
        replace (x * height + (y + 1)) with (x * height + y + 1) by lia.
        split.
        * exact (segmentPixel_scanned def width height x y a a' Hw Hh Hwh
                   Hx Hy Ha Ea).
        * exact (segmentPixel_charted def width height x y a a' Hw Hh Hwh
                   Hx Hy Ha Hc Ea).
      + replace (x * height + 0) with (x * height) by lia. exact Hst.
    - split.
      + split; cbn [segGrid currentRegion].
        * exact Hshape.
        * intros x y s Hs. rewrite (Hzero _ _ _ Hs). lia.
        * lia.
        * intros x y x' y' s s' _ Hs _ _ Hnz. rewrite (Hzero _ _ _ Hs) in Hnz.
          contradiction.
        * intros x y s Hlt Hy Hs _.
          assert (0 <= x) by (apply (Hshape x y); eauto). nia.
        * intros x y x' y' s s' Hs _ _ Hnz. rewrite (Hzero _ _ _ Hs) in Hnz.
          contradiction.
      + split; cbn [segGrid segRegions currentRegion].
        * intros r. rewrite lookup_empty. split; [intros [? [=]] | lia].
        * intros x y s Hs Hnz. rewrite (Hzero _ _ _ Hs) in Hnz.
          contradiction. }
  destruct Hboth as [_ [Hkeys Hentry]]. split; [exact Hkeys | exact Hentry].
Qed.

End Charted.

Lemma segmentation_regions_map_witness :
  let renderOutput :=
    [[[fixture.hit 1]; [fixture.hit 2]]; [[fixture.hit 3]; [fixture.hit 2]]] in
  exists output seg,
    shadeStage (rules := fixture.rules) fixture.visitAt renderOutput
               fixture.spr (fixture.def 0.5) 2 2 = Ok output
    /\ segmentStage (fixture.def 0.5) 2 2 output = Ok seg
    /\ (is_Some (segRegions seg !! 2) <-> 1 <= 2 < currentRegion seg).
Proof.
  intros renderOutput.
  destruct (shadeStage (rules := fixture.rules) fixture.visitAt renderOutput
              fixture.spr (fixture.def 0.5) 2 2)
    as [output | |] eqn:E; [| vm_compute in E; discriminate E ..].
  destruct (segmentStage (fixture.def 0.5) 2 2 output)
    as [seg | |] eqn:E'.
  2, 3: vm_compute in E; injection E as <-; vm_compute in E'; discriminate E'.
  assert (Hw : GoInt.in_range 2)
    by (unfold GoInt.in_range, GoInt.MinInt64, GoInt.MaxInt64; lia).
  destruct (segmentation_regions_map (rules := fixture.rules)
              fixture.visitAt renderOutput fixture.spr (fixture.def 0.5) 2 2
              output seg Hw Hw ltac:(lia) ltac:(unfold GoInt.MaxInt64; lia)
              E E')
    as (Hkeys & _).
  exists output, seg. split; [reflexivity |]. split; [exact E' |].
  exact (Hkeys 2).
Defined.

(** *** A second flood fill *)

(** X22. A flood fill that has filled from a seed leaves nothing to do
    for a second one with the same region id from the same seed: it returns
    false and the grid as it is. *)
Theorem floodFill_again (pal : colour.Palette) (R : colour.RangePtr)
    (r w h : Z) (depth depth' : nat) (g g' : ShaderOutput) (x y : Z) :
  GoInt.in_range w -> GoInt.in_range h ->
  shape w h g -> 0 <= x < w -> 0 <= y < h ->
  floodFill depth g r x y w h pal R = Ok (g', true) ->
  floodFill (S depth') g' r x y w h pal R = Ok (g', false).
Proof.
  intros Hw Hh Hshape Hx Hy H.
  destruct (floodFill_filled pal R r w h depth Hw Hh g g' x y true Hshape
              Hx Hy H) as ([_ Hmono _ _] & _ & _).
  assert (Hseed : marked r g' x y).
  { destruct depth as [| depth]; [discriminate H |].
    rewrite floodFill_unfold in H. cbv zeta in H.
    apply bind_Ok in H as (s & Hs & H).
    destruct (_ || _) eqn:Hc; [discriminate H |].
    apply bind_Ok in H as (g1 & Hset & H).
    assert (Hm1 : marked r g1 x y).
    { exists (with_Region s r).
      split; [exact (pixel_setPixel_same _ _ _ _ _ Hset) | reflexivity]. }
    assert (Hwhen : forall c x' y' o o',
              when c (fun o => floodFill depth o r x' y' w h pal R) o = Ok o' ->
              shape w h o -> (c = true -> 0 <= x' < w /\ 0 <= y' < h) ->
              marked r o x y -> shape w h o' /\ marked r o' x y).
    { intros c x' y' o o' E Ho Hc' Hm. unfold when in E. destruct c.
      - apply bind_Ok in E as ([o1 b1] & E1 & E). injection E as <-.
        destruct (Hc' eq_refl) as [Hx' Hy'].
        destruct (floodFill_filled pal R r w h depth Hw Hh o o1 x' y' b1 Ho
                    Hx' Hy' E1) as ([Hap Hmo _ _] & _ & _).
        split; [exact (shape_apart _ _ _ _ Hap Ho) | exact (Hmo _ _ Hm)].
      - injection E as <-. auto. }
    pose proof (shape_apart _ _ _ _
                  (gridsApart_setRegion _ _ _ _ _ _ Hs Hset) Hshape) as Hs1.
    destruct (int_steps x w Hw Hx) as (Ex1 & Ex2 & Ew).
    destruct (int_steps y h Hh Hy) as (Ey1 & Ey2 & Eh).
    rewrite Ex1, Ex2, Ew, Ey1, Ey2, Eh in H.
    apply bind_Ok in H as (g2 & E2 & H).
    destruct (Hwhen _ _ _ _ _ E2 Hs1) as [Hs2 Hm2]; [| exact Hm1 |].
    { intros E. apply Z.ltb_lt in E. lia. }
    apply bind_Ok in H as (g3 & E3 & H).
    destruct (Hwhen _ _ _ _ _ E3 Hs2) as [Hs3 Hm3]; [| exact Hm2 |].
    { intros E. apply Z.ltb_lt in E. lia. }
    apply bind_Ok in H as (g4 & E4 & H).
    destruct (Hwhen _ _ _ _ _ E4 Hs3) as [Hs4 Hm4]; [| exact Hm3 |].
    { intros E. apply Z.ltb_lt in E. lia. }
    apply bind_Ok in H as (g5 & E5 & H).
    destruct (Hwhen _ _ _ _ _ E5 Hs4) as [Hs5 Hm5]; [| exact Hm4 |].
    { intros E. apply Z.ltb_lt in E. lia. }
    injection H as <-. exact Hm5. }
  destruct Hseed as (s & Hs & Hr).
  rewrite floodFill_unfold. cbv zeta. rewrite Hs. cbn [bind].
  rewrite (proj2 (Z.eqb_eq _ _) Hr), orb_true_r. reflexivity.
Qed.

Lemma floodFill_again_witness :
  exists g',
    floodFill 5 scenes.quad 7 0 0 2 2 fixture.pal (Some 0%nat)
    = Ok (g', true)
    /\ floodFill 1 g' 7 0 0 2 2 fixture.pal (Some 0%nat) = Ok (g', false).
Proof.
  destruct (floodFill 5 scenes.quad 7 0 0 2 2 fixture.pal (Some 0%nat))
    as [[g' b] | |] eqn:E; [| vm_compute in E; discriminate E ..].
  assert (Hb : b = true) by (vm_compute in E; congruence).
  subst b. exists g'. split; [reflexivity |].
  assert (Hshape : shape 2 2 scenes.quad).
  { apply shape_columns; [lia | reflexivity |]. repeat constructor. }
  assert (Hw : GoInt.in_range 2)
    by (unfold GoInt.in_range, GoInt.MinInt64, GoInt.MaxInt64; lia).
  exact (floodFill_again fixture.pal (Some 0%nat) 7 2 2 5 0 scenes.quad g' 0 0
           Hw Hw Hshape ltac:(lia) ltac:(lia) E).
Defined.

(** *** The colours of the result *)

Section Stretch.
Context `{rules : sample.Rules}.
Variable visit : Z -> Z -> gmap Z float -> list (Z * float).
Variable renderOutput : raycaster.RenderOutput.
Variable spr : manifest.Sprite.
Variable def : manifest.Definition_.
Variables width height : Z.

Lemma pass2Pixel_regions (x y : Z) (st st' : Pass) :
  pass2Pixel def x y st = Ok st' -> regions st' = regions st.
Proof.
  unfold pass2Pixel. intros H. inv_bind H. injection H as <-. reflexivity.
Qed.

(** The round of the pixel (x, y) in pass 2 works with the regions as the
    loop over the regions left them. *)
Lemma pixel_stretch (x y : Z) (final : ShaderOutput) :
  GetShaderOutput visit renderOutput spr def width height = Ok final ->
  0 <= x < width -> 0 <= y < height ->
  exists (st1 st1' : Pass) (p1 p2 : ShaderInfo),
    afterPass1 visit renderOutput spr def width height = Ok st1
    /\ stretchStage def st1 = Ok st1'
    /\ pixel (passGrid st1) x y = Ok p1
    /\ pixel final x y = Ok p2
    /\ undithered p2 = undithered (stretchPixel def (regions st1') p1).
Proof.
  intros Hrun Hx Hy.
  destruct (GetShaderOutput_stages _ _ _ _ _ _ _ Hrun)
    as (shaded & seg & st1 & st1' & st2 & _ & _ & _ & Hafter & Hstretch
        & Hgrid & Hp2 & ->).
  destruct (passLoop_at (fun g => pixel g x y)
              (fun s => regions s = regions st1') width height
              (pass2Pixel def) x y st1' st2 Hx Hy)
    as (b2 & a2 & Hregs & Hround2 & Hb2 & Ha2);
    [| auto | | reflexivity | exact Hp2 |].
  { intros x' y' s s' _ _ Hs E. rewrite (pass2Pixel_regions _ _ _ _ E).
    exact Hs. }
  { intros x' y' s s' _ _ Hne _ E.
    exact (pass2Pixel_other _ _ _ _ _ _ _ E Hne). }
  cbv beta in Hb2, Ha2.
  apply pass2Pixel_dither in Hround2
    as (p1 & output & d2 & Hq1 & Hset & Hd2 & Hg2).
  unfold dither in Hd2. cbn [passGrid] in Hd2.
  destruct (ditherOutput_effect _ _ _ _ _ _ _ _ _ _ _ Hd2)
    as (q & p2 & Hq & Hset2 & Hu & _).
  rewrite (pixel_setPixel_same _ _ _ _ _ Hset) in Hq. injection Hq as <-.
  exists st1, st1', p1, p2.
  split; [exact Hafter |]. split; [exact Hstretch |].
  split; [rewrite <- Hgrid, <- Hb2; exact Hq1 |].
  split; [rewrite <- Ha2, Hg2; exact (pixel_setPixel_same _ _ _ _ _ Hset2) |].
  rewrite Hregs in Hu. exact Hu.
Qed.

(** X23. The two colours of a pixel of the result.  They are the colours
    that the shading loops stored for the pixel, except in a region whose
    Size after pass 1 is above 1: there the special colour, when the modal
    index of the pixel is a special colour, and the colour otherwise, is
    the stored one stretched by [MultiplyColours] about the average colour
    of the region, with the distance that the loop over the regions worked
    out; the other of the two is the stored one. *)
Theorem stretched_colours (x y : Z) (final : ShaderOutput) :
  GetShaderOutput visit renderOutput spr def width height = Ok final ->
  0 <= x < width -> 0 <= y < height ->
  exists (shaded : ShaderOutput) (st1 st1' : Pass) (s0 p : ShaderInfo),
    shadeStage visit renderOutput spr def width height = Ok shaded
    /\ afterPass1 visit renderOutput spr def width height = Ok st1
    /\ stretchStage def st1 = Ok st1'
    /\ pixel shaded x y = Ok s0
    /\ pixel final x y = Ok p
    /\ let info := regionOf (regions st1') (Region p) in
       Size info = Size (regionOf (regions st1) (Region p))
       /\ if 1 <? Size info then
            if colour.IsSpecialColour (manifest.Palette def) (ModalIndex p)
            then SpecialColour p
                 = MultiplyColours (Distance info) (AverageColour info)
                                   (SpecialColour s0)
                 /\ Colour p = Colour s0
            else Colour p
                 = MultiplyColours (Distance info) (AverageColour info)
                                   (Colour s0)
                 /\ SpecialColour p = SpecialColour s0
          else Colour p = Colour s0 /\ SpecialColour p = SpecialColour s0.
Proof.
  intros Hrun Hx Hy.
  destruct (pixel_history visit renderOutput spr def width height x y final
              Hrun Hx Hy)
    as (shaded & seg & st1 & s0 & p0 & p1 & p2 & b1 & b2 & d1 & d2 & Hshade
        & _ & Hafter & Hs0 & _ & _ & Ep0 & Hb1 & Hd1 & Hp1 & Hst1 & _ & _
        & _ & Hfinal).
  destruct (pixel_stretch x y final Hrun Hx Hy)
    as (st1a & st1' & q1 & q2 & Hafter' & Hstretch & Hq1 & Hq2 & Hu2).
  rewrite Hafter in Hafter'. injection Hafter' as <-.
  rewrite Hst1 in Hq1. injection Hq1 as <-.
  rewrite Hfinal in Hq2. injection Hq2 as <-.
  exists shaded, st1, st1', s0, p2.
  split; [exact Hshade |]. split; [exact Hafter |]. split; [exact Hstretch |].
  split; [exact Hs0 |]. split; [exact Hfinal |].
  unfold dither in Hd1.
  destruct (ditherOutput_effect _ _ _ _ _ _ _ _ _ _ _ Hd1)
    as (r0 & r1 & Hr0 & Hset1 & Hu1 & _).
  rewrite Hb1 in Hr0. injection Hr0 as <-.
  rewrite (pixel_setPixel_same _ _ _ _ _ Hset1) in Hp1. injection Hp1 as ->.
  destruct (undithered_fields _ _ Hu1) as (_ & M1 & R1 & C1 & S1 & _).
  destruct (undithered_fields _ _ Hu2) as (_ & M2 & R2 & C2 & S2 & _).
  destruct (stretchPixel_kept def (regions st1') p1) as (_ & _ & Sm & Sr).
  assert (Cp0 : Colour p0 = Colour s0) by (rewrite Ep0; reflexivity).
  assert (Sp0 : SpecialColour p0 = SpecialColour s0)
    by (rewrite Ep0; reflexivity).
  assert (Hreg : Region p2 = Region p1) by congruence.
  assert (Hmod : ModalIndex p2 = ModalIndex p1) by congruence.
  cbv zeta. rewrite Hreg, Hmod. split.
  - unfold stretchStage in Hstretch.
    apply bind_Ok in Hstretch as (regions' & Hregs & Hstretch).
    injection Hstretch as <-. cbn [regions].
    pose proof (stretchRegions_fold (manifest.Palette def)
                  (map_to_list (regions st1))
                  (NoDup_fst_map_to_list (regions st1)) (regions st1)) as H.
    unfold stretchRegions in Hregs. rewrite Hregs in H.
    destruct H as [H1 H2]. unfold regionOf.
    destruct (regions st1 !! Region p1) as [info |] eqn:E.
    + destruct (H1 (Region p1) info) as (info' & Hs & ->);
        [apply elem_of_map_to_list; exact E |].
      cbn [default from_option id]. unfold stretchRegion in Hs.
      destruct (1 <? Size info); [| injection Hs as <-; reflexivity].
      destruct (Range info); cbn [bind] in Hs; [| discriminate Hs].
      injection Hs as <-. reflexivity.
    + rewrite (H2 (Region p1)), E; [reflexivity |].
      intros Hin. apply list_elem_of_fmap in Hin as ([k' r] & Ek & Hin).
      apply elem_of_map_to_list in Hin. cbn in Ek. congruence.
  - rewrite C2, S2. unfold stretchPixel.
    destruct (1 <? Size (regionOf (regions st1') (Region p1)));
      [| split; congruence].
    destruct (colour.IsSpecialColour (manifest.Palette def) (ModalIndex p1)).
    + cbn [SpecialColour Colour with_SpecialColour].
      split; [f_equal |]; congruence.
    + cbn [SpecialColour Colour with_Colour].
      split; [f_equal |]; congruence.
Qed.

End Stretch.

Lemma stretched_colours_witness :
  let renderOutput := [[[fixture.hit 3]; [fixture.hit 2]]] in
  exists final p,
    GetShaderOutput (rules := fixture.rules) fixture.visitAt renderOutput
                    fixture.spr (fixture.def 0.5) 1 2 = Ok final
    /\ pixel final 0 1 = Ok p /\ Colour p = fixture.grey 32768.
Proof.
  intros renderOutput.
  destruct (GetShaderOutput (rules := fixture.rules) fixture.visitAt
              renderOutput fixture.spr (fixture.def 0.5) 1 2)
    as [final | |] eqn:E; [| vm_compute in E; discriminate E ..].
  destruct (stretched_colours (rules := fixture.rules) fixture.visitAt
              renderOutput fixture.spr (fixture.def 0.5) 1 2 0 1 final E
              ltac:(lia) ltac:(lia))
    as (shaded & st1 & st1' & s0 & p & _ & _ & _ & _ & Hp & _).
  exists final, p. split; [reflexivity |]. split; [exact Hp |].
  vm_compute in E. injection E as <-. vm_compute in Hp. injection Hp as <-.
  reflexivity.
Defined.

(** *** What the statistics count *)

Lemma passLoop_steps (P : Z -> Pass -> Prop) (width height : Z)
    (body : Z -> Z -> Pass -> result Pass) (st st' : Pass) :
  0 <= width -> 0 <= height ->
  (forall x y s s', 0 <= x < width -> 0 <= y < height ->
     P (x * height + y) s -> body x y s = Ok s' ->
     P (x * height + y + 1) s') ->
  (forall n s, P n s -> P n (swapRows s)) ->
  P 0 st -> passLoop width height body st = Ok st' ->
  P (width * height) st'.
Proof.
  intros Hw Hh Hbody Hswap Hst H. unfold passLoop in H.
  apply (forRange_steps (fun x s => P (x * height) s) width _ _ st' Hw)
    with (3 := H); [| exact Hst].
  intros x s s' Hx Hs E. apply bind_Ok in E as (s1 & E1 & E).
  injection E as <-. apply Hswap.
  replace ((x + 1) * height) with (x * height + height) by lia.
  apply (forRange_steps (fun y s => P (x * height + y) s) height _ _ s1 Hh)
    with (3 := E1).
  - intros y a a' Hy Ha Ea.
    replace (x * height + (y + 1)) with (x * height + y + 1) by lia.
    exact (Hbody x y a a' Hx Hy Ha Ea).
  - replace (x * height + 0) with (x * height) by lia. exact Hs.
Qed.

Lemma scannedCells_next (h x y : Z) :
  0 <= x -> 0 <= y < h ->
  scannedCells h (Z.to_nat (x * h + y + 1))
  = scannedCells h (Z.to_nat (x * h + y)) ++ [(x, y)].
Proof.
  intros Hx Hy. unfold scannedCells.
  replace (Z.to_nat (x * h + y + 1)) with (S (Z.to_nat (x * h + y))) by nia.
  rewrite seq_S, fmap_app. cbn [fmap list_fmap Nat.add]. f_equal.
  rewrite Z2Nat.id by nia. f_equal. f_equal.
  - symmetry. apply (Z.div_unique_pos _ _ x y); lia.
  - symmetry. apply (Z.mod_unique_pos _ _ x y); lia.
Qed.

Lemma scannedCells_before (h x y : Z) (c : Z * Z) :
  0 <= x -> 0 <= y < h ->
  c ∈ scannedCells h (Z.to_nat (x * h + y)) -> c <> (x, y).
Proof.
  intros Hx Hy Hin E. subst c. unfold scannedCells in Hin.
  apply list_elem_of_fmap in Hin as (i & Ei & Hin).
  apply elem_of_seq in Hin. injection Ei as E1 E2.
  assert (Hi : Z.of_nat i = h * x + y).
  { rewrite (Z.div_mod (Z.of_nat i) h) by lia. rewrite <- E1, <- E2.
    reflexivity. }
  nia.
Qed.

Lemma filter_same {A : Type} (f f' : A -> bool) (l : list A) :
  (forall a, a ∈ l -> f' a = f a) -> List.filter f' l = List.filter f l.
Proof.
  induction l as [| a l IH]; intros H; cbn [List.filter]; [reflexivity |].
  rewrite (H a) by (apply elem_of_cons; auto).
  rewrite IH; [reflexivity |]. intros b Hb. apply H, elem_of_cons. auto.
Qed.

Lemma inRangeCount_next (pal : colour.Palette) (g g' : ShaderOutput)
    (h x y r : Z) (R : colour.RangePtr) :
  0 <= x -> 0 <= y < h ->
  (forall x' y', (x', y') <> (x, y) -> pixel g' x' y' = pixel g x' y') ->
  inRangeCount pal g' h (Z.to_nat (x * h + y + 1)) r R
  = inRangeCount pal g h (Z.to_nat (x * h + y)) r R
    + (if inRangeAt pal g' r R (x, y) then 1 else 0).
Proof.
  intros Hx Hy Hother. unfold inRangeCount.
  rewrite (scannedCells_next h x y Hx Hy), List.filter_app, length_app.
  rewrite (filter_same (inRangeAt pal g r R) (inRangeAt pal g' r R)).
  - cbn [List.filter]. destruct (inRangeAt pal g' r R (x, y)); cbn [length];
      lia.
  - intros [x' y'] Hin. unfold inRangeAt. cbn [fst snd].
    rewrite (Hother x' y'); [reflexivity |].
    exact (scannedCells_before h x y _ Hx Hy Hin).
Qed.

Lemma inRangeCount_bound (pal : colour.Palette) (g : ShaderOutput) (h : Z)
    (n : nat) (r : Z) (R : colour.RangePtr) :
  0 <= inRangeCount pal g h n r R <= Z.of_nat n.
Proof.
  unfold inRangeCount. split; [lia |].
  pose proof (List.filter_length_le (inRangeAt pal g r R) (scannedCells h n))
    as H.
  unfold scannedCells in H at 2. rewrite length_fmap, length_seq in H. lia.
Qed.

Lemma pass1Pixel_count (def : manifest.Definition_) (width height x y : Z)
    (st st' : Pass) :
  0 <= x < width -> 0 <= y < height -> width * height < GoInt.MaxInt64 ->
  (forall r info, regions st !! r = Some info ->
     SizeInRange info
     = inRangeCount (manifest.Palette def) (passGrid st) height
                    (Z.to_nat (x * height + y)) r (Range info)) ->
  pass1Pixel def x y st = Ok st' ->
  forall r info, regions st' !! r = Some info ->
    SizeInRange info
    = inRangeCount (manifest.Palette def) (passGrid st') height
                   (Z.to_nat (x * height + y + 1)) r (Range info).
Proof.
  intros Hx Hy Hwh Hinv H. unfold pass1Pixel in H.
  apply bind_Ok in H as (d & Hd & H). apply bind_Ok in H as (s & Hs & H).
  apply bind_Ok in H as (regions' & Hu & H). injection H as <-.
  cbn [passGrid regions].
  assert (Hother : forall x' y', (x', y') <> (x, y) ->
            pixel (grid d) x' y' = pixel (passGrid st) x' y').
  { intros x' y' Hne. exact (dither_other _ _ _ _ _ _ _ Hd Hne). }
  assert (Hbest : DitheredIndex s = bestIndex d).
  { unfold dither in Hd.
    destruct (ditherOutput_cell _ _ _ _ _ _ _ _ _ _ _ Hd)
      as (q & q' & _ & Hq' & Hidx & _).
    rewrite Hs in Hq'. injection Hq' as <-. exact Hidx. }
  assert (Hat : forall r R,
            inRangeAt (manifest.Palette def) (grid d) r R (x, y)
            = (Region s =? r) && negb (bestIndex d =? 0)
              && colour.ptr_eqb
                   (colour.Range (colour.Entries (manifest.Palette def)
                                                 (bestIndex d))) R).
  { intros r R. unfold inRangeAt. cbn [fst snd]. rewrite Hs, Hbest.
    reflexivity. }
  intros r info Hr.
  rewrite (inRangeCount_next _ (passGrid st) (grid d) height x y r
             (Range info)) by (lia || exact Hother).
  rewrite Hat. unfold updateStats in Hu.
  destruct (colour.ptr_eqb _ _ && negb (bestIndex d =? 0)) eqn:Hcond.
  - apply bind_Ok in Hu as (counts' & Hcount & Hu). injection Hu as <-.
    apply countIndex_Ok in Hcount as (counts & n & Hcounts & _).
    unfold regionOf in *.
    destruct (regions st !! Region s) as [info0 |] eqn:Hkey;
      cbn [default from_option id] in *; [| discriminate Hcounts].
    apply andb_true_iff in Hcond as [Hrange Hnz].
    destruct (decide (r = Region s)) as [-> | Hne].
    + rewrite lookup_insert_eq in Hr. injection Hr as <-.
      cbn [SizeInRange Range]. rewrite Z.eqb_refl, Hnz, Hrange. cbn [andb].
      rewrite <- (Hinv _ _ Hkey).
      pose proof (inRangeCount_bound (manifest.Palette def) (passGrid st)
                    height (Z.to_nat (x * height + y)) (Region s)
                    (Range info0)) as Hb.
      rewrite <- (Hinv _ _ Hkey) in Hb.
      unfold GoInt.add. apply wrap64_id.
      unfold GoInt.in_range, GoInt.MinInt64, GoInt.MaxInt64 in *. nia.
    + rewrite lookup_insert_ne in Hr by congruence.
      rewrite (proj2 (Z.eqb_neq (Region s) r)) by congruence.
      cbn [andb]. rewrite (Hinv _ _ Hr). lia.
  - injection Hu as <-. rewrite (Hinv _ _ Hr).
    destruct (Z.eqb_spec (Region s) r) as [E | E]; cbn [andb]; [| lia].
    unfold regionOf in Hcond. rewrite E, Hr in Hcond.
    cbn [default from_option id] in Hcond.
    rewrite andb_comm in Hcond. rewrite Hcond. lia.
Qed.

Section Counted.
Context `{rules : sample.Rules}.
Variable visit : Z -> Z -> gmap Z float -> list (Z * float).
Variable renderOutput : raycaster.RenderOutput.
Variable spr : manifest.Sprite.
Variable def : manifest.Definition_.
Variables width height : Z.

(** X24. What the statistics of pass 1 count.  After pass 1, for an
    image of fewer than MaxInt64 pixels, the SizeInRange of a region, and
    its Size with it, is the number of pixels of the image that carry the
    region and whose dithered index is not 0 and is of the range of the
    region. *)
Theorem pass1_counts (st1 : Pass) :
  0 <= width -> 0 <= height -> width * height < GoInt.MaxInt64 ->
  afterPass1 visit renderOutput spr def width height = Ok st1 ->
  forall r info, regions st1 !! r = Some info ->
    SizeInRange info
    = inRangeCount (manifest.Palette def) (passGrid st1) height
                   (Z.to_nat (width * height)) r (Range info)
    /\ Size info = SizeInRange info.
Proof.
  intros Hw Hh Hwh H. unfold afterPass1 in H.
  apply bind_Ok in H as (shaded & Hshade & H).
  apply bind_Ok in H as (seg & Hseg & Hp1).
  pose proof (segmentStage_fresh def width height shaded seg Hseg) as Hfresh.
  intros r info Hr. split.
  2:{ destruct (pass1Stage_counted def width height seg st1 Hp1 Hfresh)
        as [_ Hall].
      destruct (Hall r info Hr) as ((Hsize & _) & _). exact Hsize. }
  revert r info Hr. unfold pass1Stage in Hp1. inv_bind Hp1.
  apply (passLoop_steps
           (fun n st =>
              forall r info, regions st !! r = Some info ->
                SizeInRange info
                = inRangeCount (manifest.Palette def) (passGrid st) height
                               (Z.to_nat n) r (Range info))
           width height (pass1Pixel def) _ st1 Hw Hh) with (4 := Hp1).
  - intros x y s s' Hx Hy Hs E.
    exact (pass1Pixel_count def width height x y s s' Hx Hy Hwh Hs E).
  - intros n s Hs. exact Hs.
  - cbn [regions passGrid]. intros r info Hr.
    destruct (Hfresh r info Hr) as (k & _ & ->). reflexivity.
Qed.

End Counted.

Lemma pass1_counts_witness :
  let renderOutput := [[[fixture.hit 3]; [fixture.hit 2]]] in
  exists st1 info,
    afterPass1 (rules := fixture.rules) fixture.visitAt renderOutput
               fixture.spr (fixture.def 0.5) 1 2 = Ok st1
    /\ regions st1 !! 1 = Some info /\ SizeInRange info = 1.
Proof.
  intros renderOutput.
  destruct (afterPass1 (rules := fixture.rules) fixture.visitAt renderOutput
              fixture.spr (fixture.def 0.5) 1 2)
    as [st1 | |] eqn:E; [| vm_compute in E; discriminate E ..].
  destruct (regions st1 !! 1) as [info |] eqn:Hr.
  2:{ vm_compute in E. injection E as <-. vm_compute in Hr. discriminate Hr. }
  destruct (pass1_counts (rules := fixture.rules) fixture.visitAt
              renderOutput fixture.spr (fixture.def 0.5) 1 2 st1
              ltac:(lia) ltac:(lia) ltac:(unfold GoInt.MaxInt64; lia) E
              1 info Hr) as [Hcount _].
  exists st1, info. split; [reflexivity |]. split; [exact Hr |].
  rewrite Hcount. vm_compute in E. injection E as <-.
  vm_compute in Hr. injection Hr as <-. reflexivity.
Defined.

(** *** What the shading loops store *)

Section Stored.
Context `{rules : sample.Rules}.
Variable visit : Z -> Z -> gmap Z float -> list (Z * float).
Variable renderOutput : raycaster.RenderOutput.
Variable spr : manifest.Sprite.
Variable def : manifest.Definition_.
Variables width height : Z.

Lemma storedBy_same (o o' : ShaderOutput) (x y : Z) :
  pixel o' x y = pixel o x y -> pixel o' (x - 1) y = pixel o (x - 1) y ->
  storedBy visit renderOutput spr def width height o x y ->
  storedBy visit renderOutput spr def width height o' x y.
Proof.
  unfold storedBy. cbv zeta. intros E E1. rewrite E, E1. auto.
Qed.

Lemma shadePixel_stored (x y : Z) (o o' : ShaderOutput) :
  shadePixel visit renderOutput spr def width height x y o = Ok o' ->
  pixel o x y = Ok zeroShaderInfo ->
  storedBy visit renderOutput spr def width height o' x y.
Proof.
  unfold shadePixel, storedBy. cbv zeta. intros H Hzero.
  destruct (_ || _); [injection H as <-; exact Hzero |].
  apply bind_Ok in H as (prev & Hprev & H).
  apply bind_Ok in H as (column & Hcol & H).
  apply bind_Ok in H as (info & Hinfo & H).
  exists column, info, prev. split; [exact Hcol |]. split; [exact Hinfo |].
  split; [| exact (pixel_setPixel_same _ _ _ _ _ H)].
  destruct (1 <? x); [| injection Hprev as <-; reflexivity].
  apply bind_Ok in Hprev as (p & Hp & Hprev). injection Hprev as <-.
  exists p. split; [| reflexivity].
  rewrite (pixel_setPixel_other _ _ _ _ _ _ _ H); [exact Hp |].
  intros [= E]. lia.
Qed.

(** X25. What the first pair of loops stores: every cell of the grid
    holds the zero value when the cell, moved by the offsets of the sprite,
    falls outside the image, and otherwise the result of [shade] on the
    samples of the moved cell; the previous index that [shade] is given is
    the modal index stored for the left neighbour in the columns from the
    third on, and 0 in the first two columns. *)
Theorem shadeStage_stored (shaded : ShaderOutput) (x y : Z) :
  shadeStage visit renderOutput spr def width height = Ok shaded ->
  0 <= x < width -> 0 <= y < height ->
  storedBy visit renderOutput spr def width height shaded x y.
Proof.
  intros H Hx Hy. unfold shadeStage in H. apply bind_Ok in H as (o0 & Hmake & H).
  assert (Hw : 0 <= width) by lia.
  revert x y Hx Hy.
  apply (forRange_steps
           (fun j o => forall x y, 0 <= x < j -> 0 <= y < height ->
              storedBy visit renderOutput spr def width height o x y)
           width _ _ shaded Hw) with (3 := H); [| intros x y Hx; lia].
  intros j o o' Hj Ho E. inv_bind E.
  unfold make in Ha. destruct (Z.ltb_spec height 0) as [| Hh]; [discriminate |].
  injection Ha as <-.
  assert (Hfresh : forall y, 0 <= y < height ->
            pixel a0 j y = Ok zeroShaderInfo).
  { intros y Hy. rewrite (store_column_same _ _ j y _ Ha0).
    apply index_Ok. split; [lia |]. apply lookup_replicate_2. lia. }
  assert (Hold : forall x y, 0 <= x < j -> 0 <= y < height ->
            storedBy visit renderOutput spr def width height a0 x y).
  { intros x y Hx Hy.
    apply (storedBy_same o a0 x y); [| | exact (Ho x y Hx Hy)];
      apply (store_column_other _ _ _ _ _ _ Ha0); lia. }
  assert (Hcol :
            (forall x y, 0 <= x < j -> 0 <= y < height ->
               storedBy visit renderOutput spr def width height o' x y)
            /\ (forall y, 0 <= y < height ->
                  storedBy visit renderOutput spr def width height o' j y)
            /\ (forall y, height <= y < height ->
                  pixel o' j y = Ok zeroShaderInfo)).
  { apply (forRange_steps
             (fun k o1 =>
                (forall x y, 0 <= x < j -> 0 <= y < height ->
                   storedBy visit renderOutput spr def width height o1 x y)
                /\ (forall y, 0 <= y < k ->
                      storedBy visit renderOutput spr def width height o1 j y)
                /\ (forall y, k <= y < height ->
                      pixel o1 j y = Ok zeroShaderInfo))
             height _ _ o' Hh) with (3 := E).
    - intros k o1 o2 Hk (Hleft & Habove & Hbelow) Ek.
      destruct (shadePixel_cell _ _ _ _ _ _ _ _ _ _ Ek) as [Hother _].
      split; [| split].
      + intros x y Hx Hy.
        apply (storedBy_same o1 o2 x y); [| | exact (Hleft x y Hx Hy)];
          apply Hother; intros E'; inversion E'; lia.
      + intros y Hy. destruct (decide (y = k)) as [-> | Hne].
        * apply (shadePixel_stored j k o1 o2 Ek). apply Hbelow. lia.
        * apply (storedBy_same o1 o2 j y); [| | apply Habove; lia];
            apply Hother; intros E'; inversion E'; lia.
      + intros y Hy. rewrite Hother; [apply Hbelow; lia |].
        intros E'. inversion E'. lia.
    - split; [exact Hold |]. split; [intros y Hy; lia | exact Hfresh]. }
  destruct Hcol as (Hleft & Hnew & _).
  intros x y Hx Hy. destruct (decide (x = j)) as [-> | Hne].
  - exact (Hnew y Hy).
  - apply Hleft; lia.
Qed.

End Stored.

Lemma shadeStage_stored_witness :
  let renderOutput :=
    [[[fixture.hit 1]];
     [[fixture.hitWith 2 0.5; fixture.hit 1]];
     [[fixture.hitWith 2 0.5; fixture.hit 1]]] in
  exists shaded s1 s2,
    shadeStage (rules := fixture.rules) fixture.visitAt renderOutput
               fixture.spr (fixture.def 0.5) 3 1 = Ok shaded
    /\ storedBy (rules := fixture.rules) fixture.visitAt renderOutput
                fixture.spr (fixture.def 0.5) 3 1 shaded 2 0
    /\ pixel shaded 1 0 = Ok s1 /\ pixel shaded 2 0 = Ok s2
    /\ ModalIndex s1 = 1 /\ ModalIndex s2 = 2.
Proof.
  intros renderOutput.
  destruct (shadeStage (rules := fixture.rules) fixture.visitAt renderOutput
              fixture.spr (fixture.def 0.5) 3 1)
    as [shaded | |] eqn:E; [| vm_compute in E; discriminate E ..].
  pose proof (shadeStage_stored (rules := fixture.rules) fixture.visitAt
                renderOutput fixture.spr (fixture.def 0.5) 3 1 shaded 2 0 E
                ltac:(lia) ltac:(lia)) as Hstored.
  eexists shaded, _, _. split; [reflexivity |]. split; [exact Hstored |].
  vm_compute in E. injection E as <-.
  split; [vm_compute; reflexivity |]. split; [vm_compute; reflexivity |].
  split; reflexivity.
Defined.
